(** * Pac-Man AI Adventure: navigation, pursuit and movement core

    A shallow embedding of the Python sources [settings.py], [maze.py],
    [ai/pathfinding.py], [ai/controller.py], [entities.py] and the
    power-pellet, autopilot and mouse-click parts of [game.py], followed by
    the properties of the specification that are stated about them and by
    further properties of the code.

    Conventions of the embedding:
    - Python [int] is [Z]; A-star scores are floats in the source but only
      ever hold small non-negative integers, so they are [Z] here;
    - pygame's [Vector2] (two doubles) is a pair of rationals [Q]: all
      arithmetic is exact, rounding is not modelled;
    - a Python exception is the outcome [IndexError]; a [while] loop is a
      fuelled recursion whose outcome [OutOfFuel] stands for divergence;
    - dictionaries are [gmap]s, sets are [gset]s. *)

From Stdlib Require Import ZArith QArith Qround Qabs Ascii String List Lia Lqa.
From stdpp Require Import base decidable option numbers list sorting gmap sets strings.

Open Scope Z_scope.

(** ** settings.py *)

Module settings.
Definition TILE_SIZE : Z := 24.
Definition GRID_WIDTH : Z := 28.
Definition GRID_HEIGHT : Z := 31.
Definition SCREEN_WIDTH : Z := GRID_WIDTH * TILE_SIZE.
Definition SCREEN_HEIGHT : Z := GRID_HEIGHT * TILE_SIZE.
Definition POWER_MODE_DURATION : Z := 8.
End settings.

(** ** Outcomes of a call: a value, an exception, or divergence *)

Inductive result (A : Type) : Type :=
  | Ok (a : A)
  | IndexError
  | OutOfFuel.
Arguments Ok {A} a.
Arguments IndexError {A}.
Arguments OutOfFuel {A}.

Definition rbind {A B} (r : result A) (k : A → result B) : result B :=
  match r with
  | Ok a => k a
  | IndexError => IndexError
  | OutOfFuel => OutOfFuel
  end.

Notation "x ← r ;;; k" := (rbind r (λ x, k))
  (at level 20, r at level 100, k at level 200, right associativity,
   format "x  ←  r  ;;;  '/' k").

Fixpoint rmapM {A B} (f : A → result B) (l : list A) : result (list B) :=
  match l with
  | [] => Ok []
  | a :: l' => b ← f a ;;; bs ← rmapM f l' ;;; Ok (b :: bs)
  end.

Definition of_option {A} (o : option A) : result A :=
  match o with
  | Some a => Ok a
  | None => IndexError
  end.

(** Python subscription [l[i]]: a negative index counts from the end, an
    index outside [-len, len) raises [IndexError]. *)
Definition py_norm_index {A} (l : list A) (i : Z) : option nat :=
  let n := Z.of_nat (length l) in
  if decide (0 ≤ i < n) then Some (Z.to_nat i)
  else if decide (- n ≤ i < 0) then Some (Z.to_nat (n + i))
  else None.

Definition py_index {A} (l : list A) (i : Z) : result A :=
  of_option (k ← py_norm_index l i; l !! k).

(** ** maze.py *)

Definition MAZE_BLUEPRINT : list string := [
  "XXXXXXXXXXXXXXXXXXXXXXXXXXXX";
  "X............XX............X";
  "X.XXXX.XXXXX.XX.XXXXX.XXXX.X";
  "XoXXXX.XXXXX.XX.XXXXX.XXXXoX";
  "X.XXXX.XXXXX.XX.XXXXX.XXXX.X";
  "X..........................X";
  "X.XXXX.XX.XXXXXXXX.XX.XXXX.X";
  "X.XXXX.XX.XXXXXXXX.XX.XXXX.X";
  "X......XX....XX....XX......X";
  "XXXXXX.XXXXX XX XXXXX.XXXXXX";
  "     X.XXXXX XX XXXXX.X     ";
  "     X.XX          XX.X     ";
  "     X.XX XXX  XXX XX.X     ";
  "XXXXXX.XX XGGGGGGX XX.XXXXXX";
  "      .   XGGGGGGX   .      ";
  "XXXXXX.XX XXXXXXXX XX.XXXXXX";
  "     X.XX          XX.X     ";
  "     X.XX XXXXXXXX XX.X     ";
  "XXXXXX.XX XXXXXXXX XX.XXXXXX";
  "X............XX............X";
  "X.XXXX.XXXXX.XX.XXXXX.XXXX.X";
  "X.XXXX.XXXXX.XX.XXXXX.XXXX.X";
  "Xo..XX.......  .......XX..oX";
  "XXX.XX.XX.XX    XX.XX.XX.XXX";
  "XXX.XX.XX.XXXXXXXX.XX.XX.XXX";
  "X......XX....XX....XX......X";
  "X.XXXXXXXXXX.XX.XXXXXXXXXX.X";
  "X.XXXXXXXXXX.XX.XXXXXXXXXX.X";
  "X..........................X";
  "XXXXXXXXXXXXXXXXXXXXXXXXXXXX"
]%string.

(** [Maze.grid] is a Python list of row lists.  The rows are objects of
    their own: [grid] holds their identities, in order, and [rows] is the
    store that gives each row object its current content, so that a write
    through one row is seen through every alias of it. *)
Record Maze := mkMaze {
  grid : list nat;
  rows : gmap nat (list ascii)
}.

(** [row.replace("G", " ")] followed by [list(...)]. *)
Definition replace_G (c : ascii) : ascii :=
  if decide (c = "G"%char) then " "%char else c.

Definition blueprint_row (row : string) : list ascii :=
  replace_G <$> list_ascii_of_string row.

(** [Maze.from_blueprint]: every row is a freshly allocated list. *)
Definition from_blueprint (blueprint : list string) : Maze :=
  {| grid := seq 0 (length blueprint);
     rows := map_seq 0 (blueprint_row <$> blueprint) |}.

(** The content of the row object stored at [maze.grid[y]]. *)
Definition grid_row (maze : Maze) (y : Z) : result (list ascii) :=
  r ← py_index (grid maze) y ;;; of_option (rows maze !! r).

(** [maze.grid[y][x]]. *)
Definition grid_get (maze : Maze) (y x : Z) : result ascii :=
  row ← grid_row maze y ;;; py_index row x.

(** [Maze.consume_tile]: returns the marker and the maze after the call. *)
Definition consume_tile (maze : Maze) (x y : Z) : result (ascii * Maze) :=
  r ← py_index (grid maze) y ;;;
  row ← of_option (rows maze !! r) ;;;
  k ← of_option (py_norm_index row x) ;;;
  value ← of_option (row !! k) ;;;
  if decide (value = "."%char ∨ value = "o"%char)
  then Ok (value, {| grid := grid maze;
                     rows := <[r := <[k := " "%char]> row]> (rows maze) |})
  else Ok (value, maze).

(** [Maze.reset_pellet]. *)
Definition reset_pellet (maze : Maze) (x y : Z) : result Maze :=
  r ← py_index (grid maze) y ;;;
  row ← of_option (rows maze !! r) ;;;
  k ← of_option (py_norm_index row x) ;;;
  value ← of_option (row !! k) ;;;
  if decide (value = " "%char)
  then Ok {| grid := grid maze;
             rows := <[r := <[k := "."%char]> row]> (rows maze) |}
  else Ok maze.

(** ** ai/pathfinding.py *)

Definition GridPos : Type := Z * Z.

Definition manhattan_to (current goal : GridPos) : Z :=
  Z.abs (current.1 - goal.1) + Z.abs (current.2 - goal.2).

(** [heuristic]: [0] for an empty goal set, else the least Manhattan
    distance to a goal. *)
Definition heuristic (current : GridPos) (goals : gset GridPos) : Z :=
  match manhattan_to current <$> elements goals with
  | [] => 0
  | d :: ds => foldl Z.min d ds
  end.

Definition DELTAS : list (Z * Z) := [(-1, 0); (1, 0); (0, -1); (0, 1)].

(** One turn of the [for dx, dy] loop of [neighbours]: [Some] cell when
    the generator yields, [None] when it skips, [IndexError] when
    [maze.grid[ny][nx]] is out of range. *)
Definition neighbour_at (maze : Maze) (position : GridPos) (d : Z * Z)
    : result (option GridPos) :=
  let nx := position.1 + d.1 in
  let ny := position.2 + d.2 in
  let nx := if decide (nx < 0) then settings.GRID_WIDTH - 1
            else if decide (nx >= settings.GRID_WIDTH) then 0
            else nx in
  if decide (ny < 0 ∨ ny >= settings.GRID_HEIGHT) then Ok None
  else
    v ← grid_get maze ny nx ;;;
    if decide (v ≠ "X"%char) then Ok (Some (nx, ny)) else Ok None.

(** [neighbours]: the cells the generator yields, in order.  The caller's
    state is local to [astar_path], so an [IndexError] raised part-way
    through the iteration is the outcome of the whole call. *)
Definition neighbours (position : GridPos) (maze : Maze)
    : result (list GridPos) :=
  ys ← rmapM (neighbour_at maze position) DELTAS ;;; Ok (omap id ys).

(** The [while current in came_from] loop of [reconstruct_path]; [path]
    is the list built so far, [current] its last element. *)
Fixpoint reconstruct_loop (fuel : nat) (came_from : gmap GridPos GridPos)
    (current : GridPos) (path : list GridPos) : result (list GridPos) :=
  match came_from !! current with
  | None => Ok path
  | Some previous =>
      match fuel with
      | O => OutOfFuel
      | S fuel' =>
          reconstruct_loop fuel' came_from previous (path ++ [previous])
      end
  end.

Definition reconstruct_path (fuel : nat) (came_from : gmap GridPos GridPos)
    (current : GridPos) : result (list GridPos) :=
  path ← reconstruct_loop fuel came_from current [current] ;;;
  Ok (reverse path).

(** Heap entries [(f, g, (x, y))] with Python's lexicographic tuple
    order.  [heappop] returns a least entry; entries that compare equal
    are equal, so a sorted list gives the same sequence of pops as
    [heapq]'s array. *)
Definition entry : Type := Z * Z * GridPos.

Definition entry_key (e : entry) : list Z :=
  [e.1.1; e.1.2; e.2.1; e.2.2].

Fixpoint lex_ltb (a b : list Z) : bool :=
  match a, b with
  | x :: a', y :: b' => (x <? y) || ((x =? y) && lex_ltb a' b')
  | [], _ :: _ => true
  | _, [] => false
  end.

Definition entry_ltb (a b : entry) : bool := lex_ltb (entry_key a) (entry_key b).

Fixpoint heappush (heap : list entry) (e : entry) : list entry :=
  match heap with
  | [] => [e]
  | e' :: heap' => if entry_ltb e' e then e' :: heappush heap' e else e :: heap
  end.

Definition heappop (heap : list entry) : option (entry * list entry) :=
  match heap with
  | [] => None
  | e :: heap' => Some (e, heap')
  end.

(** The list is in non-decreasing order. *)
Definition heap_ordered (heap : list entry) : Prop :=
  StronglySorted (λ a b, entry_ltb b a = false) heap.

Record astar_state := mkState {
  open_heap : list entry;
  came_from : gmap GridPos GridPos;
  g_scores : gmap GridPos Z
}.

(** The body of [for neighbour in neighbours(current, maze)]. *)
Definition relax (goals : gset GridPos) (current : GridPos) (g_cost : Z)
    (st : astar_state) (neighbour : GridPos) : astar_state :=
  let tentative_g := g_cost + 1 in
  if match g_scores st !! neighbour with
     | Some g => bool_decide (tentative_g < g)
     | None => true
     end
  then
    let f_score := tentative_g + heuristic neighbour goals in
    {| open_heap := heappush (open_heap st) (f_score, tentative_g, neighbour);
       came_from := <[neighbour := current]> (came_from st);
       g_scores := <[neighbour := tentative_g]> (g_scores st) |}
  else st.

(** The [while open_heap] loop.  [rfuel] bounds the loop of
    [reconstruct_path]. *)
Fixpoint astar_loop (fuel rfuel : nat) (maze : Maze) (goals : gset GridPos)
    (st : astar_state) : result (list GridPos) :=
  match fuel with
  | O => OutOfFuel
  | S fuel' =>
      match heappop (open_heap st) with
      | None => Ok []
      | Some ((f_cost, g_cost, current), heap') =>
          if decide (current ∈ goals)
          then reconstruct_path rfuel (came_from st) current
          else
            ns ← neighbours current maze ;;;
            astar_loop fuel' rfuel maze goals
              (foldl (relax goals current g_cost)
                     {| open_heap := heap';
                        came_from := came_from st;
                        g_scores := g_scores st |} ns)
      end
  end.

Definition astar_init (start : GridPos) (goals : gset GridPos) : astar_state :=
  {| open_heap := heappush [] (heuristic start goals, 0, start);
     came_from := ∅;
     g_scores := {[ start := 0 ]} |}.

Definition astar_path (fuel : nat) (maze : Maze) (start : GridPos)
    (goals : gset GridPos) : result (list GridPos) :=
  if decide (start ∈ goals) then Ok [start]
  else astar_loop fuel fuel maze goals (astar_init start goals).

Definition the_maze : Maze := from_blueprint MAZE_BLUEPRINT.


(** ** pygame.math.Vector2 *)

(** Two double-precision coordinates, here exact rationals. *)
Record Vector2 := mkVector2 { vx : Q; vy : Q }.

(** [Vector2(x, y)] on two integers. *)
Definition Vector2_of (x y : Z) : Vector2 :=
  {| vx := inject_Z x; vy := inject_Z y |}.

Definition vadd (a b : Vector2) : Vector2 :=
  {| vx := (vx a + vx b)%Q; vy := (vy a + vy b)%Q |}.

Definition vscale (a : Vector2) (k : Q) : Vector2 :=
  {| vx := (vx a * k)%Q; vy := (vy a * k)%Q |}.

Definition length_squared (a : Vector2) : Q :=
  (vx a * vx a + vy a * vy a)%Q.

Definition Qltb (a b : Q) : bool := negb (Qle_bool b a).

(** [a != b] on vectors: pygame compares coordinate-wise up to the
    vector's [epsilon], which is [1e-6] unless changed (this program never
    changes it).  On vectors with integer coordinates this is plain
    inequality. *)
Definition VECTOR_EPSILON : Q := 1 # 1000000.

Definition vector_ne (a b : Vector2) : bool :=
  Qle_bool VECTOR_EPSILON (Qabs (vx a - vx b)) ||
  Qle_bool VECTOR_EPSILON (Qabs (vy a - vy b)).

(** [int(q)]: truncation towards zero. *)
Definition py_int (q : Q) : Z := Z.quot (Qnum q) (Z.pos (Qden q)).

(** [int(q // n)]: floor division of a float by an integer. *)
Definition floordiv (q : Q) (n : Z) : Z := Qfloor (q / inject_Z n).

(** ** ai/controller.py *)

Inductive GhostMode := SCATTER | CHASE | FRIGHTENED | EATEN.

#[export] Instance GhostMode_eq_dec : EqDecision GhostMode.
Proof. solve_decision. Defined.

(** The fields of [Ghost] that belong to the pursuer state machine.  The
    position, direction and speed of the ghost are those of an [Entity];
    no property below needs the two together. *)
Record Ghost := mkGhost {
  mode : GhostMode;
  frightened_timer : Q
}.

Record GhostContext := mkGhostContext {
  pacman_pos : Vector2;
  ghost_pos : Vector2;
  scatter_corner : Vector2;
  ctx_maze : Maze;
  power_mode_active : bool;
  distance_threshold : Z
}.

Definition DEFAULT_DISTANCE_THRESHOLD : Z := 6.

Definition observe_ghost_state (maze : Maze)
    (pacman_pos ghost_pos scatter_corner : Vector2) (ghosts : list Ghost)
    : GhostContext :=
  let power_mode :=
    existsb (λ ghost, bool_decide (mode ghost = FRIGHTENED)) ghosts in
  {| pacman_pos := pacman_pos;
     ghost_pos := ghost_pos;
     scatter_corner := scatter_corner;
     ctx_maze := maze;
     power_mode_active := power_mode;
     distance_threshold := DEFAULT_DISTANCE_THRESHOLD |}.

Definition manhattan (a b : Vector2) : Z :=
  py_int (Qabs (vx a - vx b) + Qabs (vy a - vy b)).

Definition decide_mode (context : GhostContext) : string * Vector2 :=
  let distance := manhattan (ghost_pos context) (pacman_pos context) in
  if power_mode_active context then ("fuite"%string, scatter_corner context)
  else if decide (distance ≤ distance_threshold context)
       then ("attaque"%string, pacman_pos context)
       else ("patrouille"%string, scatter_corner context).

Definition compute_path (fuel : nat) (context : GhostContext)
    (target : Vector2) : result (list GridPos) :=
  let goals : gset GridPos := {[ (py_int (vx target), py_int (vy target)) ]} in
  let start := (py_int (vx (ghost_pos context)),
                py_int (vy (ghost_pos context))) in
  astar_path fuel (ctx_maze context) start goals.

(** ** entities.py *)

Definition DIRECTIONS : list (string * Vector2) := [
  ("left"%string, Vector2_of (-1) 0);
  ("right"%string, Vector2_of 1 0);
  ("up"%string, Vector2_of 0 (-1));
  ("down"%string, Vector2_of 0 1)
].

(** [Vector2(settings.TILE_SIZE / 2)] has both coordinates equal to 12. *)
Definition grid_to_pixel (grid_pos : Vector2) : Vector2 :=
  vadd (vscale grid_pos (inject_Z settings.TILE_SIZE))
       {| vx := inject_Z settings.TILE_SIZE / 2;
          vy := inject_Z settings.TILE_SIZE / 2 |}.

Definition pixel_to_grid (pixel_pos : Vector2) : Vector2 :=
  Vector2_of (floordiv (vx pixel_pos) settings.TILE_SIZE)
             (floordiv (vy pixel_pos) settings.TILE_SIZE).

Definition valid_tile (maze : Maze) (grid_pos : Vector2) : result bool :=
  let x := py_int (vx grid_pos) in
  let y := py_int (vy grid_pos) in
  if decide (x < 0 ∨ y < 0 ∨ y >= Z.of_nat (length (grid maze))) then Ok false
  else
    row0 ← grid_row maze 0 ;;;
    if decide (x >= Z.of_nat (length row0)) then Ok false
    else
      v ← grid_get maze y x ;;;
      Ok (bool_decide (v ≠ "X"%char)).

Definition portal_adjust (grid_pos : Vector2) : Vector2 :=
  if Qltb (vx grid_pos) 0
  then {| vx := inject_Z (settings.GRID_WIDTH - 1); vy := vy grid_pos |}
  else if Qle_bool (inject_Z settings.GRID_WIDTH) (vx grid_pos)
  then {| vx := inject_Z 0; vy := vy grid_pos |}
  else grid_pos.

(** [Entity.maze] is a reference to the one maze of the game session; the
    functions below take the current state of that object as an argument. *)
Record Entity := mkEntity {
  grid_pos : Vector2;
  speed : Q;
  direction : Vector2;
  pixel_pos : Vector2
}.

Definition is_at_center (e : Entity) : bool :=
  let center := grid_to_pixel (grid_pos e) in
  Qltb (Qabs (vx (pixel_pos e) - vx center)) (1 # 2) &&
  Qltb (Qabs (vy (pixel_pos e) - vy center)) (1 # 2).

(** The position after [self.pixel_pos += self.direction * self.speed * dt]. *)
Definition integrate (e : Entity) (dt : Q) : Vector2 :=
  vadd (pixel_pos e) (vscale (vscale (direction e) (speed e)) dt).

(** The [if]/[elif] on the world bounds: the position after it, and
    [wrapped]. *)
Definition screen_wrap (p : Vector2) : Vector2 * bool :=
  if Qltb (vx p) (inject_Z (- settings.TILE_SIZE))
  then ({| vx := inject_Z (settings.SCREEN_WIDTH + settings.TILE_SIZE);
           vy := vy p |}, true)
  else if Qltb (inject_Z (settings.SCREEN_WIDTH + settings.TILE_SIZE)) (vx p)
  then ({| vx := inject_Z (- settings.TILE_SIZE); vy := vy p |}, true)
  else (p, false).

Definition update_position (maze : Maze) (e : Entity) (dt : Q)
    : result Entity :=
  if Qeq_bool (length_squared (direction e)) 0 then Ok e
  else
    let previous_pixel := pixel_pos e in
    let previous_grid := grid_pos e in
    let '(pixel, wrapped) := screen_wrap (integrate e dt) in
    let new_grid := portal_adjust (pixel_to_grid pixel) in
    rejected ← (if wrapped then Ok false
                else valid ← valid_tile maze new_grid ;;; Ok (negb valid)) ;;;
    if (rejected : bool)
    then Ok {| grid_pos := previous_grid;
               speed := speed e;
               direction := Vector2_of 0 0;
               pixel_pos := previous_pixel |}
    else if wrapped || vector_ne new_grid previous_grid
    then Ok {| grid_pos := new_grid;
               speed := speed e;
               direction := direction e;
               pixel_pos := grid_to_pixel new_grid |}
    else
      let center := grid_to_pixel new_grid in
      Ok {| grid_pos := new_grid;
            speed := speed e;
            direction := direction e;
            pixel_pos :=
              {| vx := if Qeq_bool (vx (direction e)) 0
                       then vx center else vx pixel;
                 vy := if Qeq_bool (vy (direction e)) 0
                       then vy center else vy pixel |} |}.

Definition set_mode (g : Ghost) (m : GhostMode) : Ghost :=
  {| mode := m;
     frightened_timer :=
       if decide (m = FRIGHTENED)
       then inject_Z settings.POWER_MODE_DURATION
       else frightened_timer g |}.

(** [Ghost.update], as far as [mode] and [frightened_timer] go.  The
    first statement of the method is the countdown.  The rest of it plans
    a path and moves the ghost: it never assigns [frightened_timer], and
    it assigns [mode] in one place only, at the head of [move_towards],
    which is called when the planned path has fewer than two cells.
    [path] is the planned path and [at_home] the value of
    [self.is_at_center() and self.grid_pos == Vector2(13, 11)]. *)
Definition Ghost_update (g : Ghost) (dt : Q) (path : list GridPos)
    (at_home : bool) : Ghost :=
  let g :=
    if decide (mode g = FRIGHTENED) then
      let timer := (frightened_timer g - dt)%Q in
      {| mode := if Qle_bool timer 0 then CHASE else FRIGHTENED;
         frightened_timer := timer |}
    else g in
  if decide (2 ≤ length path)%nat then g
  else if bool_decide (mode g = EATEN) && at_home
       then {| mode := CHASE; frightened_timer := frightened_timer g |}
       else g.

(** A sequence of calls of [Ghost.update], one per tick, each with its
    [dt], its planned path and its [at_home] flag. *)
Record Tick := mkTick {
  tick_dt : Q;
  tick_path : list GridPos;
  tick_at_home : bool
}.

Definition run_updates (g : Ghost) (ticks : list Tick) : Ghost :=
  foldl (λ g t, Ghost_update g (tick_dt t) (tick_path t) (tick_at_home t))
        g ticks.

(** What is left of a countdown started at [timer] after each tick. *)
Fixpoint countdown (timer : Q) (dts : list Q) : list Q :=
  match dts with
  | [] => []
  | dt :: dts' => (timer - dt)%Q :: countdown (timer - dt)%Q dts'
  end.

(** And after all of them. *)
Definition remaining (timer : Q) (dts : list Q) : Q := foldl Qminus timer dts.

(** ** game.py *)

(** The pellet block of [Game.update] ([if self.pacman.is_at_center(): ...]),
    on the parts of the game it reads and writes: the maze, the score and
    the ghosts.  (Its last statement re-plans the autopilot route and
    touches none of the three.) *)
Definition Game_update_pellets (maze : Maze) (pacman : Entity) (score : Z)
    (ghosts : list Ghost) : result (Maze * Z * list Ghost) :=
  if is_at_center pacman then
    consumed ← consume_tile maze (py_int (vx (grid_pos pacman)))
                                 (py_int (vy (grid_pos pacman))) ;;;
    let tile_value := consumed.1 in
    let maze := consumed.2 in
    if decide (tile_value = "."%char) then Ok (maze, score + 10, ghosts)
    else if decide (tile_value = "o"%char)
    then Ok (maze, score + 50, (λ ghost, set_mode ghost FRIGHTENED) <$> ghosts)
    else Ok (maze, score, ghosts)
  else Ok (maze, score, ghosts).

(** ** Vocabulary of the path-finder's specification *)

Definition in_grid (c : GridPos) : Prop :=
  0 ≤ c.1 < settings.GRID_WIDTH ∧ 0 ≤ c.2 < settings.GRID_HEIGHT.

(** The grid holds a marker at the cell and the marker is not a wall. *)
Definition wall_free (maze : Maze) (c : GridPos) : bool :=
  match grid_get maze c.2 c.1 with
  | Ok v => bool_decide (v ≠ "X"%char)
  | _ => false
  end.

Definition traversable (maze : Maze) (c : GridPos) : Prop :=
  in_grid c ∧ wall_free maze c = true.

(** One move of the search: [n] is among the cells [neighbours] yields
    at [c]. *)
Definition step (maze : Maze) (c n : GridPos) : Prop :=
  ∃ ns, neighbours c maze = Ok ns ∧ n ∈ ns.

Definition reachable (maze : Maze) (a b : GridPos) : Prop :=
  rtc (step maze) a b.

(** Four-adjacency with horizontal wraparound, stated without reference
    to the code: same row and a column one apart or at opposite edges, or
    same column and a row one apart. *)
Definition wrap_adjacent (a b : GridPos) : Prop :=
  (b.2 = a.2 ∧
   (b.1 = a.1 + 1 ∨ b.1 = a.1 - 1 ∨
    (a.1 = 0 ∧ b.1 = settings.GRID_WIDTH - 1) ∨
    (a.1 = settings.GRID_WIDTH - 1 ∧ b.1 = 0)))
  ∨ (b.1 = a.1 ∧ (b.2 = a.2 + 1 ∨ b.2 = a.2 - 1)).

(** The distance between two cells of an empty grid whose rows wrap
    around: a lower bound on the number of moves between them. *)
Definition wrap_distance (a b : GridPos) : Z :=
  Z.min (Z.abs (a.1 - b.1)) (settings.GRID_WIDTH - Z.abs (a.1 - b.1))
  + Z.abs (a.2 - b.2).

(** A walk [a = p0, p1, ..., pk = b] every move of which is a [step]. *)
Inductive walk (maze : Maze) (a : GridPos) : list GridPos → GridPos → Prop :=
  | walk_start : walk maze a [a] a
  | walk_snoc p b c :
      walk maze a p b → step maze b c → walk maze a (p ++ [c]) c.

(** Number of moves of the walk written as the list [p]. *)
Definition moves (p : list GridPos) : nat := pred (length p).

(** [neighbours] reads the grid only where it has a cell. *)
Definition lookups_in_range (maze : Maze) (c : GridPos) : Prop :=
  ∃ ns, neighbours c maze = Ok ns.

Definition lookups_in_rangeb (maze : Maze) (c : GridPos) : bool :=
  match neighbours c maze with
  | Ok _ => true
  | _ => false
  end.

(** Every cell an agent can stand on can be expanded by the search. *)
Definition maze_closed (maze : Maze) : Prop :=
  ∀ c, traversable maze c → lookups_in_range maze c.

Definition all_cells : list GridPos :=
  x ← seqZ 0 settings.GRID_WIDTH;
  y ← seqZ 0 settings.GRID_HEIGHT;
  [(x, y)].

Definition maze_closedb (maze : Maze) : bool :=
  forallb (λ c, implb (wall_free maze c) (lookups_in_rangeb maze c)) all_cells.

(** Enough turns of the [while] loops for any search on the grid. *)
Definition cell_bound : nat := S (length all_cells).
Definition astar_fuel : nat := 2 * cell_bound * cell_bound + 2.
Arguments all_cells : simpl never.
Arguments cell_bound : simpl never.
Arguments astar_fuel : simpl never.

(** *** The loop invariant of [astar_path] *)

Section Invariant.
Context (maze : Maze) (start : GridPos) (goals : gset GridPos).

Definition universe : list GridPos := start :: all_cells.

Definition discovered (st : astar_state) : nat :=
  length (filter (λ c, is_Some (g_scores st !! c)) universe).

Definition potential (st : astar_state) (c : GridPos) : nat :=
  match g_scores st !! c with
  | Some g => Z.to_nat g
  | None => cell_bound
  end.

Definition measure (st : astar_state) : nat :=
  (length (open_heap st) + 2 * sum_list (potential st <$> universe))%nat.

(** [current] is the cell being expanded and [pending] the neighbours of
    it that the [for] loop has still to relax; between two turns of the
    [while] loop [pending] is empty. *)
Record astar_inv (current : GridPos) (pending : list GridPos)
    (st : astar_state) : Prop := {
  inv_start : g_scores st !! start = Some 0;
  inv_start_root : came_from st !! start = None;
  inv_score : ∀ c g, g_scores st !! c = Some g →
      0 ≤ g < Z.of_nat (discovered st) ∧ reachable maze start c ∧
      (c = start ∨ traversable maze c);
  inv_heap : ∀ f g c, (f, g, c) ∈ open_heap st →
      0 ≤ g < Z.of_nat (discovered st) ∧
      ∃ g', g_scores st !! c = Some g' ∧ g' ≤ g;
  inv_parent : ∀ n c, came_from st !! n = Some c →
      step maze c n ∧
      ∃ gn gc, g_scores st !! n = Some gn ∧ g_scores st !! c = Some gc ∧
               gc + 1 ≤ gn;
  inv_has_parent : ∀ c, is_Some (g_scores st !! c) → c ≠ start →
      is_Some (came_from st !! c);
  inv_goal : ∀ c, c ∈ goals → is_Some (g_scores st !! c) →
      ∃ f g, (f, g, c) ∈ open_heap st;
  inv_frontier : ∀ c g, g_scores st !! c = Some g →
      (∃ f, (f, g, c) ∈ open_heap st) ∨
      (∀ n, step maze c n →
            is_Some (g_scores st !! n) ∨ (c = current ∧ n ∈ pending))
}.

(** The state after the three assignments of a successful relaxation. *)
Definition relaxed (current : GridPos) (g_cost : Z) (st : astar_state)
    (n : GridPos) : astar_state :=
  {| open_heap := heappush (open_heap st)
                    (g_cost + 1 + heuristic n goals, g_cost + 1, n);
     came_from := <[n := current]> (came_from st);
     g_scores := <[n := g_cost + 1]> (g_scores st) |}.

End Invariant.

(** ** maze.py: the scans of the grid *)

(** [enumerate(l)]. *)
Fixpoint enumerate_from {A} (i : nat) (l : list A) : list (nat * A) :=
  match l with
  | [] => []
  | a :: l' => (i, a) :: enumerate_from (S i) l'
  end.

Definition enumerate {A} (l : list A) : list (nat * A) := enumerate_from 0 l.

(** The contents of the row objects of [maze.grid], in order. *)
Definition maze_rows (maze : Maze) : result (list (list ascii)) :=
  rmapM (λ r, of_option (rows maze !! r)) (grid maze).

(** The two nested [for ... in enumerate(...)] loops of [pellets] and
    [walls], yielding [(x, y)] where the marker passes the test. *)
Definition scan (test : ascii → bool) (rws : list (list ascii))
    : list GridPos :=
  yrow ← enumerate rws;
  xvalue ← enumerate yrow.2;
  if test xvalue.2 then [(Z.of_nat xvalue.1, Z.of_nat yrow.1)] else [].

Definition is_pellet (value : ascii) : bool :=
  bool_decide (value = "."%char ∨ value = "o"%char).

Definition is_wall (value : ascii) : bool := bool_decide (value = "X"%char).

Definition pellets (maze : Maze) : result (list GridPos) :=
  rws ← maze_rows maze ;;; Ok (scan is_pellet rws).

Definition walls (maze : Maze) : result (list GridPos) :=
  rws ← maze_rows maze ;;; Ok (scan is_wall rws).

(** [tuple(self.pellets())]. *)
Definition remaining_pellets (maze : Maze) : result (list GridPos) :=
  pellets maze.


(** ** entities.py: the choice of directions *)

(** Every row object of the grid exists and all have the same length. *)
Definition rectangular (maze : Maze) : Prop :=
  ∃ width : nat,
    Forall (λ r, ∃ row, rows maze !! r = Some row ∧ length row = width)
           (grid maze).

Definition vsub (a b : Vector2) : Vector2 :=
  {| vx := (vx a - vx b)%Q; vy := (vy a - vy b)%Q |}.

(** [a == b] on vectors, the negation of [a != b]. *)
Definition vector_eq (a b : Vector2) : bool := negb (vector_ne a b).

(** One turn of the loop of [available_directions]: [Some vector] when
    the direction is appended to [choices]. *)
Definition direction_choice (maze : Maze) (e : Entity) (vector : Vector2)
    : result (option Vector2) :=
  let next_pos := portal_adjust (vadd (grid_pos e) vector) in
  valid ← valid_tile maze next_pos ;;;
  if (valid : bool) then
    if negb (Qeq_bool (length_squared (direction e)) 0) &&
       vector_eq next_pos (portal_adjust (vsub (grid_pos e) (direction e)))
    then Ok None
    else Ok (Some vector)
  else Ok None.

(** [DIRECTIONS] is a module-level dict whose values are objects shared
    with every agent that was given one of them as its direction;
    [directions] is what the dict holds when the method runs. *)
Definition available_directions (directions : list (string * Vector2))
    (maze : Maze) (e : Entity) : result (list Vector2) :=
  choices ← rmapM (direction_choice maze e) (directions.*2) ;;;
  Ok (omap id choices).

(** ** entities.py: Pacman *)

(** [settings.AMBER]. *)
Definition AMBER : Z * Z * Z := (255, 198, 46).

Definition colour_cycle : list (Z * Z * Z) :=
  [AMBER; (255, 210, 80); (255, 226, 130); (255, 200, 70)].

(** The fields of [Pacman] next to those of its [Entity]; [mouth_angle] is
    assigned once and never read. *)
Record Pacman := mkPacman {
  body : Entity;
  desired_direction : Vector2;
  animation_time : Q;
  colour_index : Z;
  autopilot_enabled : bool;
  auto_queue : list Vector2
}.

Definition set_direction (e : Entity) (d : Vector2) : Entity :=
  {| grid_pos := grid_pos e;
     speed := speed e;
     direction := d;
     pixel_pos := pixel_pos e |}.

Definition set_body (p : Pacman) (e : Entity) : Pacman :=
  {| body := e;
     desired_direction := desired_direction p;
     animation_time := animation_time p;
     colour_index := colour_index p;
     autopilot_enabled := autopilot_enabled p;
     auto_queue := auto_queue p |}.

Definition set_desired_direction (p : Pacman) (d : Vector2) : Pacman :=
  {| body := body p;
     desired_direction := d;
     animation_time := animation_time p;
     colour_index := colour_index p;
     autopilot_enabled := autopilot_enabled p;
     auto_queue := auto_queue p |}.

Definition set_autopilot_path (p : Pacman) (directions : list Vector2)
    : Pacman :=
  {| body := body p;
     desired_direction := desired_direction p;
     animation_time := animation_time p;
     colour_index := colour_index p;
     autopilot_enabled := autopilot_enabled p;
     auto_queue := directions |}.

Definition enable_autopilot (p : Pacman) (enabled : bool) : Pacman :=
  {| body := body p;
     desired_direction := desired_direction p;
     animation_time := animation_time p;
     colour_index := colour_index p;
     autopilot_enabled := enabled;
     auto_queue := if enabled then auto_queue p else [] |}.

Definition update_autopilot (maze : Maze) (p : Pacman) : result Pacman :=
  if negb (autopilot_enabled p) then Ok p
  else
    match auto_queue p with
    | [] => Ok (set_desired_direction p (Vector2_of 0 0))
    | next_direction :: rest =>
        if is_at_center (body p) then
          let next_pos :=
            portal_adjust (vadd (grid_pos (body p)) next_direction) in
          valid ← valid_tile maze next_pos ;;;
          if (valid : bool)
          then Ok (set_autopilot_path
                     (set_desired_direction p next_direction) rest)
          else Ok (set_autopilot_path p [])
        else Ok p
    end.

(** [Pacman.update].  The float [0.12] is the rational [12/100]. *)
Definition Pacman_update (maze : Maze) (p : Pacman) (dt : Q)
    : result Pacman :=
  p ← update_autopilot maze p ;;;
  p ← (if negb (Qeq_bool (length_squared (desired_direction p)) 0) &&
          is_at_center (body p)
       then
         let next_pos :=
           portal_adjust (vadd (grid_pos (body p)) (desired_direction p)) in
         valid ← valid_tile maze next_pos ;;;
         Ok (if (valid : bool)
             then set_body p (set_direction (body p) (desired_direction p))
             else p)
       else Ok p) ;;;
  if Qeq_bool (length_squared (direction (body p))) 0 then Ok p
  else
    blocked ← (if is_at_center (body p)
               then
                 let next_pos :=
                   portal_adjust
                     (vadd (grid_pos (body p)) (direction (body p))) in
                 valid ← valid_tile maze next_pos ;;; Ok (negb valid)
               else Ok false) ;;;
    if (blocked : bool)
    then Ok (set_body p (set_direction (body p) (Vector2_of 0 0)))
    else
      moved ← update_position maze (body p) dt ;;;
      let time := (animation_time p + dt)%Q in
      let cycled := Qltb (12 # 100) time in
      Ok {| body := moved;
            desired_direction := desired_direction p;
            animation_time := if cycled then 0%Q else time;
            colour_index :=
              if cycled
              then (colour_index p + 1) `mod` Z.of_nat (length colour_cycle)
              else colour_index p;
            autopilot_enabled := autopilot_enabled p;
            auto_queue := auto_queue p |}.

(** ** game.py: the autopilot route *)

(** The body of the loop over [zip(path, path[1:])] in
    [compute_autopilot_path]. *)
Definition step_direction (current nxt : GridPos) : Vector2 :=
  let dx := nxt.1 - current.1 in
  let dy := nxt.2 - current.2 in
  let dx := if decide (dx > 1) then -1
            else if decide (dx < -1) then 1 else dx in
  let dy := if decide (dy > 1) then -1
            else if decide (dy < -1) then 1 else dy in
  Vector2_of dx dy.

Definition path_directions (path : list GridPos) : list Vector2 :=
  zip_with step_direction path (drop 1 path).

(** [Game.compute_autopilot_path] on the parts of the game it reads and
    writes: the maze and Pac-Man.  [targets] is [None] or the set that
    [set(targets)] builds. *)
Definition compute_autopilot_path (fuel : nat) (maze : Maze)
    (pacman : Pacman) (targets : option (gset GridPos)) : result Pacman :=
  targets_set ← match targets with
                | None =>
                    cells ← remaining_pellets maze ;;;
                    Ok (list_to_set cells : gset GridPos)
                | Some targets => Ok targets
                end ;;;
  let start := (py_int (vx (grid_pos (body pacman))),
                py_int (vy (grid_pos (body pacman)))) in
  if decide (targets_set = ∅) then Ok (enable_autopilot pacman false)
  else
    path ← astar_path fuel maze start targets_set ;;;
    if decide (length path < 2)%nat then Ok (enable_autopilot pacman false)
    else Ok (set_autopilot_path (enable_autopilot pacman true)
                                (path_directions path)).

(** [Game.handle_mouse_click]: Pac-Man and [auto_replan] after it. *)
Definition handle_mouse_click (fuel : nat) (maze : Maze) (pacman : Pacman)
    (auto_replan : bool) (pos : Z * Z) : result (Pacman * bool) :=
  let tile_size := settings.TILE_SIZE in
  let grid_x := pos.1 `div` tile_size in
  let grid_y := pos.2 `div` tile_size in
  if negb (bool_decide (0 ≤ grid_x < settings.GRID_WIDTH ∧
                        0 ≤ grid_y < settings.GRID_HEIGHT))
  then Ok (pacman, auto_replan)
  else
    let target := Vector2_of grid_x grid_y in
    valid ← valid_tile maze target ;;;
    if negb valid then Ok (pacman, auto_replan)
    else
      pacman ← compute_autopilot_path fuel maze pacman
                 (Some {[ (grid_x, grid_y) ]}) ;;;
      Ok (pacman, false).


(** * Properties *)

(** ** Outcomes and the heap *)

Lemma elem_of_heappush (h : list entry) (e x : entry) :
  x ∈ heappush h e ↔ x = e ∨ x ∈ h.
Proof.
  induction h as [|e' h IH]; simpl.
  - rewrite list_elem_of_singleton. set_solver.
  - destruct (entry_ltb e' e); set_solver.
Qed.

Lemma lex_ltb_asym (a b : list Z) : lex_ltb a b = true → lex_ltb b a = false.
Proof.
  revert b. induction a as [|x a IH]; intros [|y b]; simpl; try done.
  intros H. apply orb_true_iff in H as [H|[H1 H2]%andb_true_iff].
  - apply Z.ltb_lt in H. apply orb_false_iff. split; [apply Z.ltb_ge; lia|].
    apply andb_false_iff. left. apply Z.eqb_neq. lia.
  - apply Z.eqb_eq in H1 as ->. rewrite Z.ltb_irrefl, Z.eqb_refl. simpl. auto.
Qed.

Lemma lex_ltb_false_trans (a b c : list Z) :
  lex_ltb b a = false → lex_ltb c b = false → lex_ltb c a = false.
Proof.
  revert b c. induction a as [|x a IH]; intros [|y b] [|z c]; simpl; try done.
  intros [H1 H2]%orb_false_iff [H3 H4]%orb_false_iff.
  apply Z.ltb_ge in H1, H3. apply orb_false_iff. split; [apply Z.ltb_ge; lia|].
  apply andb_false_iff in H2, H4. apply andb_false_iff.
  destruct (decide (z = x)) as [->|Hne]; [|left; by apply Z.eqb_neq].
  right. assert (y = x) as -> by lia.
  rewrite Z.eqb_refl in H2, H4. destruct H2 as [|H2], H4 as [|H4]; try done.
  by eapply IH.
Qed.

(** [heappush] keeps the order, so that the head [heappop] takes is a
    least entry of the heap. *)
Lemma heappush_ordered (h : list entry) (e : entry) :
  heap_ordered h → heap_ordered (heappush h e).
Proof.
  unfold heap_ordered. induction 1 as [|e' h Hh IH Hall]; simpl.
  - repeat constructor.
  - destruct (entry_ltb e' e) eqn:Hlt.
    + constructor; [done|]. apply Forall_forall. intros x Hx.
      apply elem_of_heappush in Hx as [->|Hx].
      * by apply lex_ltb_asym.
      * rewrite Forall_forall in Hall. auto.
    + constructor; [by constructor|]. constructor; [done|].
      apply Forall_forall. intros x Hx. rewrite Forall_forall in Hall.
      unfold entry_ltb in *. eapply lex_ltb_false_trans; [exact Hlt|auto].
Qed.

Lemma heappop_least (h h' : list entry) (e : entry) :
  heap_ordered h → heappop h = Some (e, h') →
  heap_ordered h' ∧ ∀ x, x ∈ h' → entry_ltb x e = false.
Proof.
  unfold heap_ordered. destruct 1 as [|e0 h0 Hh Hall]; [done|].
  intros [= -> ->]. split; [done|]. by apply Forall_forall.
Qed.

Lemma relax_heap_ordered goals current g_cost st n :
  heap_ordered (open_heap st) →
  heap_ordered (open_heap (relax goals current g_cost st n)).
Proof.
  intros H. unfold relax.
  destruct (match g_scores st !! n with
            | Some g => bool_decide (g_cost + 1 < g)
            | None => true
            end); [|done].
  by apply heappush_ordered.
Qed.

Lemma astar_init_heap_ordered start goals :
  heap_ordered (open_heap (astar_init start goals)).
Proof. apply heappush_ordered. constructor. Qed.

Lemma length_heappush (h : list entry) (e : entry) :
  length (heappush h e) = S (length h).
Proof.
  induction h as [|e' h IH]; simpl; [done|].
  destruct (entry_ltb e' e); simpl; congruence.
Qed.

Lemma rmapM_Ok_elem {A B} (f : A → result B) (l : list A) (ys : list B) (y : B) :
  rmapM f l = Ok ys → y ∈ ys → ∃ a, a ∈ l ∧ f a = Ok y.
Proof.
  revert ys. induction l as [|a l IH]; intros ys; simpl.
  - intros [= <-] Hy. by apply not_elem_of_nil in Hy.
  - destruct (f a) as [b| |] eqn:Hfa; simpl; try done.
    destruct (rmapM f l) as [bs| |]; simpl; try done.
    intros [= <-] Hy. apply elem_of_cons in Hy as [->|Hy].
    + exists a. split; [left|done].
    + destruct (IH bs eq_refl Hy) as (a' & Ha' & Hf). exists a'. split; [by right|done].
Qed.

(** ** What [neighbours] yields *)

Lemma neighbour_at_Some maze c d n :
  neighbour_at maze c d = Ok (Some n) →
  traversable maze n ∧ n.2 = c.2 + d.2 ∧
  n.1 = (if decide (c.1 + d.1 < 0) then settings.GRID_WIDTH - 1
         else if decide (c.1 + d.1 >= settings.GRID_WIDTH) then 0
         else c.1 + d.1).
Proof.
  unfold neighbour_at, traversable, in_grid, wall_free.
  destruct (decide (c.2 + d.2 < 0 ∨ c.2 + d.2 >= settings.GRID_HEIGHT)) as [|Hy];
    [done|].
  destruct (grid_get maze _ _) as [v| |] eqn:Hget; simpl; try done.
  destruct (decide (v ≠ "X"%char)) as [Hv|]; [|done].
  intros [= <-]. simpl. rewrite Hget. rewrite bool_decide_eq_true.
  repeat split; try done; try lia;
    unfold settings.GRID_WIDTH; repeat case_decide; lia.
Qed.

Lemma step_inv maze c n :
  step maze c n →
  ∃ d, d ∈ DELTAS ∧ neighbour_at maze c d = Ok (Some n).
Proof.
  intros (ns & Hns & Hn). unfold neighbours in Hns.
  destruct (rmapM _ _) as [ys| |] eqn:Hys; simpl in Hns; try done.
  injection Hns as <-. apply list_elem_of_omap in Hn as (o & Ho & Hid).
  simpl in Hid. subst o.
  destruct (rmapM_Ok_elem _ _ _ _ Hys Ho) as (d & Hd & Hf). eauto.
Qed.

Lemma step_traversable maze c n : step maze c n → traversable maze n.
Proof.
  intros (d & _ & Hd)%step_inv. by apply neighbour_at_Some in Hd as [? _].
Qed.

Lemma step_adjacent maze c n :
  in_grid c → step maze c n → wrap_adjacent c n.
Proof.
  intros [Hx Hy] (d & Hd & Hn)%step_inv.
  apply neighbour_at_Some in Hn as (_ & H2 & H1).
  unfold wrap_adjacent, settings.GRID_WIDTH in *.
  unfold DELTAS in Hd.
  repeat (apply elem_of_cons in Hd as [->|Hd]); [..|by apply not_elem_of_nil in Hd];
    simpl in *; repeat case_decide; lia.
Qed.

Lemma elem_of_all_cells c : in_grid c → c ∈ all_cells.
Proof.
  destruct c as [x y]. intros [Hx Hy]. simpl in *. unfold all_cells.
  apply list_elem_of_bind. exists x. split; [|apply elem_of_seqZ; lia].
  apply list_elem_of_bind. exists y. split; [|apply elem_of_seqZ; lia].
  by apply list_elem_of_singleton.
Qed.

Lemma maze_closedb_sound maze : maze_closedb maze = true → maze_closed maze.
Proof.
  unfold maze_closedb. rewrite forallb_forall.
  intros Hall c [Hin Hfree].
  specialize (Hall c). rewrite <- list_elem_of_In in Hall.
  specialize (Hall (elem_of_all_cells c Hin)).
  rewrite Hfree in Hall. simpl in Hall. unfold lookups_in_rangeb in Hall.
  unfold lookups_in_range. destruct (neighbours c maze); eauto; done.
Qed.

(** ** Walks *)

Lemma walk_reachable maze a p b : walk maze a p b → reachable maze a b.
Proof.
  induction 1 as [|p b c _ IH Hs]; [apply rtc_refl|].
  eapply rtc_r; eauto.
Qed.

Lemma reachable_walk maze a b :
  reachable maze a b → ∃ p, walk maze a p b.
Proof.
  intros H. apply rtc_nsteps in H as [k H].
  revert b H. induction k as [|k IH]; intros b H.
  - inversion H; subst. eexists. constructor.
  - apply nsteps_inv_r in H as (m & Hm & Hs).
    destruct (IH m Hm) as [p Hp]. exists (p ++ [b]). econstructor; eauto.
Qed.

Lemma walk_head maze a p b : walk maze a p b → head p = Some a.
Proof.
  induction 1 as [|p b c _ IH _]; [done|].
  destruct p; [done|]. simpl in *. done.
Qed.

Lemma walk_last maze a p b : walk maze a p b → last p = Some b.
Proof. destruct 1; [done|]. apply last_snoc. Qed.

Lemma walk_length maze a p b : walk maze a p b → (0 < length p)%nat.
Proof. destruct 1; simpl; [lia|]. rewrite length_app. simpl. lia. Qed.

Lemma walk_traversable maze a p b :
  traversable maze a → walk maze a p b → Forall (traversable maze) p.
Proof.
  intros Ha. induction 1 as [|p b c _ IH Hs].
  - constructor; [done|constructor].
  - apply Forall_app. split; [done|].
    constructor; [|constructor]. by eapply step_traversable.
Qed.

Lemma walk_consecutive maze a p b i u v :
  walk maze a p b → p !! i = Some u → p !! S i = Some v → step maze u v.
Proof.
  intros Hw. revert i u v. induction Hw as [|p b c Hw IH Hs]; intros i u v Hu Hv.
  - by destruct i.
  - pose proof (walk_last _ _ _ _ Hw) as Hlast.
    pose proof (walk_length _ _ _ _ Hw) as Hlen.
    destruct (decide (S i < length p)%nat) as [Hlt|Hge].
    + rewrite lookup_app_l in Hu by lia. rewrite lookup_app_l in Hv by lia. eauto.
    + assert (S i = length p) as Hi.
      { apply lookup_lt_Some in Hv. rewrite length_app in Hv. simpl in Hv. lia. }
      rewrite lookup_app_l in Hu by lia.
      rewrite Hi in Hv. rewrite lookup_app_r in Hv by lia.
      rewrite Nat.sub_diag in Hv. simpl in Hv. injection Hv as <-.
      rewrite last_lookup in Hlast.
      replace (pred (length p)) with i in Hlast by lia.
      rewrite Hu in Hlast. injection Hlast as ->. done.
Qed.

(** ** Counting arguments for the termination measure *)

Lemma filter_length_mono {A} (P Q : A → Prop)
    `{!∀ x, Decision (P x)} `{!∀ x, Decision (Q x)} (l : list A) :
  (∀ x, P x → Q x) → (length (filter P l) ≤ length (filter Q l))%nat.
Proof.
  intros HPQ. induction l as [|x l IH]; [done|].
  rewrite !filter_cons. destruct (decide (P x)) as [HP|HP].
  - rewrite decide_True by auto. simpl. lia.
  - destruct (decide (Q x)); simpl; lia.
Qed.

Lemma filter_length_lt {A} (P Q : A → Prop)
    `{!∀ x, Decision (P x)} `{!∀ x, Decision (Q x)} (l : list A) (n : A) :
  (∀ x, P x → Q x) → n ∈ l → ¬ P n → Q n →
  (length (filter P l) < length (filter Q l))%nat.
Proof.
  intros HPQ Hn HnP HnQ. induction l as [|x l IH]; [by apply not_elem_of_nil in Hn|].
  rewrite !filter_cons. apply elem_of_cons in Hn as [<-|Hn].
  - rewrite decide_False by done. rewrite decide_True by done. simpl.
    pose proof (filter_length_mono P Q l HPQ). lia.
  - specialize (IH Hn). destruct (decide (P x)) as [HP|HP].
    + rewrite decide_True by auto. simpl. lia.
    + destruct (decide (Q x)); simpl; lia.
Qed.

Lemma sum_list_fmap_le {A} (f g : A → nat) (l : list A) :
  (∀ x, (f x ≤ g x)%nat) → (sum_list (f <$> l) ≤ sum_list (g <$> l))%nat.
Proof.
  intros Hfg. induction l as [|x l IH]; csimpl; [done|].
  specialize (Hfg x). lia.
Qed.

Lemma sum_list_fmap_lt {A} (f g : A → nat) (l : list A) (n : A) :
  (∀ x, (f x ≤ g x)%nat) → n ∈ l → (f n < g n)%nat →
  (sum_list (f <$> l) < sum_list (g <$> l))%nat.
Proof.
  intros Hfg Hn Hlt. induction l as [|x l IH]; [by apply not_elem_of_nil in Hn|].
  csimpl. apply elem_of_cons in Hn as [<-|Hn].
  - pose proof (sum_list_fmap_le f g l Hfg). lia.
  - specialize (IH Hn). specialize (Hfg x). lia.
Qed.

Lemma sum_list_fmap_bound {A} (f : A → nat) (l : list A) (k : nat) :
  (∀ x, (f x ≤ k)%nat) → (sum_list (f <$> l) ≤ length l * k)%nat.
Proof.
  intros Hf. induction l as [|x l IH]; csimpl; [done|].
  specialize (Hf x). lia.
Qed.

Section AstarInvariant.
Context (maze : Maze) (start : GridPos) (goals : gset GridPos).

Lemma length_universe : length (universe start) = cell_bound.
Proof. done. Qed.

Lemma discovered_le st : (discovered start st ≤ cell_bound)%nat.
Proof.
  unfold discovered. rewrite <- length_universe. apply length_filter.
Qed.

Lemma discovered_mono st st' :
  (∀ c, is_Some (g_scores st !! c) → is_Some (g_scores st' !! c)) →
  (discovered start st ≤ discovered start st')%nat.
Proof. intros H. unfold discovered. by apply filter_length_mono. Qed.

Lemma discovered_lt st st' n :
  (∀ c, is_Some (g_scores st !! c) → is_Some (g_scores st' !! c)) →
  n ∈ universe start → g_scores st !! n = None →
  is_Some (g_scores st' !! n) →
  (discovered start st < discovered start st')%nat.
Proof.
  intros H Hn Hnone Hsome. unfold discovered.
  apply filter_length_lt with (n := n); try done.
  rewrite Hnone. by intros [? ?].
Qed.

Lemma traversable_universe c : traversable maze c → c ∈ universe start.
Proof. intros [Hin _]. right. by apply elem_of_all_cells. Qed.

Lemma relax_cases current g_cost st n :
  (relax goals current g_cost st n = relaxed goals current g_cost st n ∧
   ∀ g, g_scores st !! n = Some g → g_cost + 1 < g) ∨
  (relax goals current g_cost st n = st ∧
   ∃ g, g_scores st !! n = Some g ∧ g ≤ g_cost + 1).
Proof.
  unfold relax, relaxed. destruct (g_scores st !! n) as [g|] eqn:Hg.
  - destruct (bool_decide (g_cost + 1 < g)) eqn:Hb.
    + left. apply bool_decide_eq_true in Hb. split; [done|].
      by intros ? [= <-].
    + right. apply bool_decide_eq_false in Hb. split; [done|].
      exists g. split; [done|lia].
  - left. split; [done|]. by intros.
Qed.

Lemma relaxed_inv current g_cost n rest st :
  astar_inv maze start goals current (n :: rest) st →
  step maze current n →
  0 ≤ g_cost < Z.of_nat (discovered start st) →
  (∃ g', g_scores st !! current = Some g' ∧ g' ≤ g_cost) →
  reachable maze start current →
  (∀ g, g_scores st !! n = Some g → g_cost + 1 < g) →
  astar_inv maze start goals current rest (relaxed goals current g_cost st n) ∧
  (measure start (relaxed goals current g_cost st n) < measure start st)%nat ∧
  (discovered start st ≤ discovered start (relaxed goals current g_cost st n))%nat.
Proof.
  intros Inv Hstep Hgc (g' & Hcur & Hg') Hreach Hlt.
  set (st' := relaxed goals current g_cost st n).
  pose proof (step_traversable _ _ _ Hstep) as Htrav.
  pose proof (traversable_universe _ Htrav) as Huniv.
  assert (n ≠ start) as Hns.
  { intros ->. specialize (Hlt _ (inv_start _ _ _ _ _ _ Inv)). lia. }
  assert (n ≠ current) as Hnc.
  { intros ->. specialize (Hlt _ Hcur). lia. }
  assert (∀ c, is_Some (g_scores st !! c) → is_Some (g_scores st' !! c)) as Hdom.
  { intros c Hc. simpl. destruct (decide (n = c)) as [->|?].
    - rewrite lookup_insert_eq. eauto.
    - by rewrite lookup_insert_ne. }
  pose proof (discovered_mono _ _ Hdom) as Hmono.
  assert (g_cost + 1 < Z.of_nat (discovered start st')) as Hnew.
  { destruct (g_scores st !! n) as [g|] eqn:Hn.
    - specialize (Hlt _ eq_refl).
      destruct (inv_score _ _ _ _ _ _ Inv n g Hn) as [? _]. lia.
    - assert (discovered start st < discovered start st')%nat; [|lia].
      apply discovered_lt with (n := n); try done.
      simpl. rewrite lookup_insert_eq. eauto. }
  split; [|split; [|done]].
  - split.
    + simpl. rewrite lookup_insert_ne by done. apply Inv.
    + simpl. rewrite lookup_insert_ne by done. apply Inv.
    + intros c g. simpl. destruct (decide (n = c)) as [<-|Hne].
      * rewrite lookup_insert_eq. intros [= <-]. split; [lia|]. split; [|by right].
        eapply rtc_r; eauto.
      * rewrite lookup_insert_ne by done. intros Hc.
        destruct (inv_score _ _ _ _ _ _ Inv c g Hc) as (? & ? & ?).
        split; [lia|done].
    + intros f g c. simpl. rewrite elem_of_heappush. intros [[= -> -> ->]|Hin].
      * split; [lia|]. exists (g_cost + 1). by rewrite lookup_insert_eq.
      * destruct (inv_heap _ _ _ _ _ _ Inv f g c Hin) as (? & gc' & Hgc' & ?).
        split; [lia|]. destruct (decide (n = c)) as [<-|Hne].
        -- exists (g_cost + 1). rewrite lookup_insert_eq. split; [done|].
           specialize (Hlt _ Hgc'). lia.
        -- exists gc'. by rewrite lookup_insert_ne.
    + intros m c. simpl. destruct (decide (n = m)) as [<-|Hne].
      * rewrite lookup_insert_eq. intros [= <-]. split; [done|].
        exists (g_cost + 1), g'. rewrite lookup_insert_eq.
        rewrite lookup_insert_ne by done. split; [done|]. split; [done|lia].
      * rewrite lookup_insert_ne by done. intros Hm.
        destruct (inv_parent _ _ _ _ _ _ Inv m c Hm) as (? & gn & gc' & Hgn & Hgc' & ?).
        split; [done|]. rewrite (lookup_insert_ne _ n m) by done.
        destruct (decide (n = c)) as [<-|Hne'].
        -- exists gn, (g_cost + 1). rewrite lookup_insert_eq.
           specialize (Hlt _ Hgc'). split; [done|]. split; [done|lia].
        -- exists gn, gc'. by rewrite lookup_insert_ne.
    + intros c Hc Hcs. simpl. destruct (decide (n = c)) as [<-|Hne].
      * rewrite lookup_insert_eq. eauto.
      * rewrite lookup_insert_ne by done. simpl in Hc.
        rewrite lookup_insert_ne in Hc by done.
        by apply (inv_has_parent _ _ _ _ _ _ Inv).
    + intros c Hc. simpl. rewrite lookup_insert_is_Some.
      intros [<-|[Hne Hsome]].
      * do 2 eexists. apply elem_of_heappush. by left.
      * destruct (inv_goal _ _ _ _ _ _ Inv c Hc Hsome) as (f & g & Hin).
        exists f, g. apply elem_of_heappush. by right.
    + intros c g. simpl. destruct (decide (n = c)) as [<-|Hne].
      * rewrite lookup_insert_eq. intros [= <-]. left.
        eexists. apply elem_of_heappush. by left.
      * rewrite lookup_insert_ne by done. intros Hc.
        destruct (inv_frontier _ _ _ _ _ _ Inv c g Hc) as [[f Hf]|Hclosed].
        -- left. exists f. apply elem_of_heappush. by right.
        -- right. intros m Hm. destruct (Hclosed m Hm) as [Hsome|[-> Hpend]].
           ++ left. by apply Hdom.
           ++ apply elem_of_cons in Hpend as [->|Hpend].
              ** left. rewrite lookup_insert_eq. eauto.
              ** by right.
  - assert (length (open_heap st') = S (length (open_heap st))) as Hlen
      by apply length_heappush.
    assert (sum_list (potential st' <$> universe start)
            < sum_list (potential st <$> universe start))%nat;
      [|unfold measure; fold st'; lia].
    apply sum_list_fmap_lt with (n := n); [|done|].
    + intros c. unfold potential. simpl. destruct (decide (n = c)) as [<-|Hne].
      * rewrite lookup_insert_eq. destruct (g_scores st !! n) as [g|] eqn:Hn.
        -- specialize (Hlt _ eq_refl). lia.
        -- pose proof (discovered_le st'). lia.
      * by rewrite lookup_insert_ne.
    + unfold potential. simpl. rewrite lookup_insert_eq.
      destruct (g_scores st !! n) as [g|] eqn:Hn.
      * specialize (Hlt _ eq_refl). lia.
      * pose proof (discovered_le st'). lia.
Qed.

Lemma relax_inv current g_cost n rest st :
  astar_inv maze start goals current (n :: rest) st →
  step maze current n →
  0 ≤ g_cost < Z.of_nat (discovered start st) →
  (∃ g', g_scores st !! current = Some g' ∧ g' ≤ g_cost) →
  reachable maze start current →
  astar_inv maze start goals current rest (relax goals current g_cost st n) ∧
  (measure start (relax goals current g_cost st n) ≤ measure start st)%nat ∧
  (discovered start st ≤ discovered start (relax goals current g_cost st n))%nat ∧
  g_scores (relax goals current g_cost st n) !! current = g_scores st !! current.
Proof.
  intros Inv Hstep Hgc Hcur Hreach.
  destruct (relax_cases current g_cost st n) as [[-> Hlt]|[-> (g & Hn & Hle)]].
  - destruct (relaxed_inv _ _ _ _ _ Inv Hstep Hgc Hcur Hreach Hlt) as (? & ? & ?).
    split; [done|]. split; [lia|]. split; [done|].
    simpl. apply lookup_insert_ne. intros ->.
    destruct Hcur as (g' & Hg' & ?). specialize (Hlt _ Hg'). lia.
  - split; [|done]. split; try apply Inv.
    intros c gc' Hc.
    destruct (inv_frontier _ _ _ _ _ _ Inv c gc' Hc) as [?|Hclosed]; [by left|].
    right. intros m Hm. destruct (Hclosed m Hm) as [?|[-> Hpend]]; [by left|].
    apply elem_of_cons in Hpend as [->|?]; [left; eauto|by right].
Qed.

Lemma relax_all_inv current g_cost ns st :
  astar_inv maze start goals current ns st →
  Forall (step maze current) ns →
  0 ≤ g_cost < Z.of_nat (discovered start st) →
  (∃ g', g_scores st !! current = Some g' ∧ g' ≤ g_cost) →
  reachable maze start current →
  astar_inv maze start goals current []
    (foldl (relax goals current g_cost) st ns) ∧
  (measure start (foldl (relax goals current g_cost) st ns)
   ≤ measure start st)%nat.
Proof.
  revert st. induction ns as [|n ns IH]; intros st Inv Hsteps Hgc Hcur Hreach.
  - done.
  - apply Forall_cons in Hsteps as [Hstep Hsteps]. simpl.
    destruct (relax_inv _ _ _ _ _ Inv Hstep Hgc Hcur Hreach)
      as (Inv' & Hm & Hd & Hsame).
    destruct (IH _ Inv' Hsteps) as [Inv'' Hm']; [lia|by rewrite Hsame|done|].
    split; [done|lia].
Qed.

Lemma pop_inv x st f g_cost current heap' ns :
  astar_inv maze start goals x [] st →
  open_heap st = (f, g_cost, current) :: heap' →
  current ∉ goals →
  neighbours current maze = Ok ns →
  let st0 := {| open_heap := heap'; came_from := came_from st;
                g_scores := g_scores st |} in
  astar_inv maze start goals current ns st0 ∧
  measure start st = S (measure start st0) ∧
  discovered start st0 = discovered start st.
Proof.
  intros Inv Hheap Hgoal Hns st0.
  split; [|split; [|done]].
  - split; try apply Inv.
    + intros f' g c Hin. apply (inv_heap _ _ _ _ _ _ Inv f').
      rewrite Hheap. by right.
    + intros c Hc Hsome.
      destruct (inv_goal _ _ _ _ _ _ Inv c Hc Hsome) as (f' & g & Hin).
      rewrite Hheap in Hin. apply elem_of_cons in Hin as [[= _ _ ->]|Hin]; [done|].
      by exists f', g.
    + intros c g Hc. destruct (decide (c = current)) as [->|Hne].
      * right. intros n (ns' & Hns' & Hn). right. split; [done|]. congruence.
      * destruct (inv_frontier _ _ _ _ _ _ Inv c g Hc) as [[f' Hin]|Hclosed].
        -- left. exists f'. rewrite Hheap in Hin.
           apply elem_of_cons in Hin as [[= _ _ ->]|Hin]; done.
        -- right. intros n Hn. destruct (Hclosed n Hn) as [?|[_ Hnil]]; [by left|].
           by apply not_elem_of_nil in Hnil.
  - unfold measure. rewrite Hheap. simpl. done.
Qed.

Lemma reconstruct_loop_walk x pending st fuel c g path :
  astar_inv maze start goals x pending st →
  g_scores st !! c = Some g → (Z.to_nat g ≤ fuel)%nat →
  ∃ q, reconstruct_loop fuel (came_from st) c path = Ok (path ++ reverse q) ∧
       walk maze start (q ++ [c]) c.
Proof.
  intros Inv. revert c g path.
  induction fuel as [|fuel IH]; intros c g path Hc Hfuel;
    destruct (came_from st !! c) as [prev|] eqn:Hprev.
  - destruct (inv_parent _ _ _ _ _ _ Inv c prev Hprev)
      as (_ & gn & gp & Hgn & Hgp & Hle).
    destruct (inv_score _ _ _ _ _ _ Inv prev gp Hgp) as [? _].
    assert (gn = g) by congruence. lia.
  - assert (c = start) as ->.
    { destruct (decide (c = start)) as [|Hne]; [done|].
      destruct (inv_has_parent _ _ _ _ _ _ Inv c) as [? ?]; eauto; congruence. }
    exists []. simpl. rewrite Hprev, app_nil_r. split; [done|constructor].
  - destruct (inv_parent _ _ _ _ _ _ Inv c prev Hprev)
      as (Hstep & gn & gp & Hgn & Hgp & Hle).
    destruct (inv_score _ _ _ _ _ _ Inv prev gp Hgp) as [? _].
    assert (gn = g) by congruence. subst gn.
    destruct (IH prev gp (path ++ [prev]) Hgp) as (q & Hq & Hw); [lia|].
    exists (q ++ [prev]). simpl. rewrite Hprev, Hq, reverse_snoc, <- app_assoc.
    split; [done|]. by econstructor.
  - assert (c = start) as ->.
    { destruct (decide (c = start)) as [|Hne]; [done|].
      destruct (inv_has_parent _ _ _ _ _ _ Inv c) as [? ?]; eauto; congruence. }
    exists []. simpl. rewrite Hprev, app_nil_r. split; [done|constructor].
Qed.

Lemma reconstruct_path_walk x pending st fuel c g :
  astar_inv maze start goals x pending st →
  g_scores st !! c = Some g → (Z.to_nat g ≤ fuel)%nat →
  ∃ p, reconstruct_path fuel (came_from st) c = Ok p ∧ walk maze start p c.
Proof.
  intros Inv Hc Hfuel.
  destruct (reconstruct_loop_walk x pending st fuel c g [c] Inv Hc Hfuel)
    as (q & Hq & Hw).
  exists (q ++ [c]). unfold reconstruct_path. rewrite Hq. simpl.
  split; [|done]. f_equal.
  by rewrite reverse_cons, reverse_involutive.
Qed.

Lemma exhausted_unreachable x st :
  astar_inv maze start goals x [] st → open_heap st = [] →
  ∀ c, reachable maze start c → c ∉ goals.
Proof.
  intros Inv Hheap.
  assert (∀ c, reachable maze start c → is_Some (g_scores st !! c)) as Hall.
  { apply (rtc_ind_r (λ c, is_Some (g_scores st !! c))).
    - rewrite (inv_start _ _ _ _ _ _ Inv). eauto.
    - intros b c _ Hbc [g Hg].
      destruct (inv_frontier _ _ _ _ _ _ Inv b g Hg) as [[f Hin]|Hclosed].
      + rewrite Hheap in Hin. by apply not_elem_of_nil in Hin.
      + destruct (Hclosed c Hbc) as [?|[_ Hnil]]; [done|].
        by apply not_elem_of_nil in Hnil. }
  intros c Hc Hgoal.
  destruct (inv_goal _ _ _ _ _ _ Inv c Hgoal (Hall c Hc)) as (f & g & Hin).
  rewrite Hheap in Hin. by apply not_elem_of_nil in Hin.
Qed.

(** The [while] loop returns, and returns either the empty list when no
    goal can be reached or a walk from [start] to a goal. *)
Lemma astar_loop_spec fuel rfuel x st :
  lookups_in_range maze start → maze_closed maze →
  astar_inv maze start goals x [] st →
  (measure start st < fuel)%nat → (cell_bound ≤ rfuel)%nat →
  ∃ path, astar_loop fuel rfuel maze goals st = Ok path ∧
    ((path = [] ∧ ∀ c, reachable maze start c → c ∉ goals) ∨
     (∃ goal, goal ∈ goals ∧ walk maze start path goal)).
Proof.
  intros Hstart Hclosed. revert x st.
  induction fuel as [|fuel IH]; intros x st Inv Hfuel Hrfuel; [lia|].
  simpl. destruct (open_heap st) as [|[[f g_cost] current] heap'] eqn:Hheap; simpl.
  - exists []. split; [done|]. left. split; [done|].
    by eapply exhausted_unreachable.
  - destruct (inv_heap _ _ _ _ _ _ Inv f g_cost current) as (Hg & g' & Hg' & Hle).
    { rewrite Hheap. by left. }
    destruct (inv_score _ _ _ _ _ _ Inv current g' Hg') as (Hg'' & Hreach & Hwhere).
    destruct (decide (current ∈ goals)) as [Hgoal|Hgoal].
    + pose proof (discovered_le st).
      destruct (reconstruct_path_walk x [] st rfuel current g' Inv Hg')
        as (p & Hp & Hw); [lia|].
      exists p. split; [done|]. right. eauto.
    + assert (lookups_in_range maze current) as [ns Hns].
      { destruct Hwhere as [->|?]; auto. }
      rewrite Hns. simpl.
      destruct (pop_inv _ _ _ _ _ _ _ Inv Hheap Hgoal Hns) as (Inv0 & Hm0 & Hd0).
      destruct (relax_all_inv current g_cost ns _ Inv0) as [Inv1 Hm1].
      { apply Forall_forall. intros n Hn. by exists ns. }
      { rewrite Hd0. done. }
      { by exists g'. }
      { done. }
      apply (IH current); [done|lia|done].
Qed.

Lemma astar_init_inv : start ∉ goals →
  astar_inv maze start goals start [] (astar_init start goals).
Proof.
  intros Hgoal.
  assert (0 < discovered start (astar_init start goals))%nat as Hpos.
  { unfold discovered, universe. rewrite filter_cons_True; [simpl; lia|].
    simpl. rewrite lookup_singleton_eq. eauto. }
  split; simpl.
  - apply lookup_singleton_eq.
  - apply lookup_empty.
  - intros c g [<- <-]%lookup_singleton_Some.
    split; [lia|]. split; [apply rtc_refl|by left].
  - intros f g c [= -> -> ->]%list_elem_of_singleton.
    split; [lia|]. exists 0. by rewrite lookup_singleton_eq.
  - intros n c. by rewrite lookup_empty.
  - intros c [g [<- _]%lookup_singleton_Some]. done.
  - intros c Hc [g [<- _]%lookup_singleton_Some]. done.
  - intros c g [<- <-]%lookup_singleton_Some. left. eexists. by left.
Qed.

Lemma astar_init_measure : (measure start (astar_init start goals) < astar_fuel)%nat.
Proof.
  assert (length (open_heap (astar_init start goals)) = 1%nat) as Hlen by done.
  assert (sum_list (potential (astar_init start goals) <$> universe start)
          ≤ length (universe start) * cell_bound)%nat as Hsum.
  { apply sum_list_fmap_bound. intros c. unfold potential.
    cbn [astar_init g_scores].
    destruct (decide (c = start)) as [->|Hne].
    - rewrite lookup_singleton_eq. change (Z.to_nat 0) with 0%nat. lia.
    - by rewrite lookup_singleton_ne. }
  rewrite length_universe in Hsum. unfold measure, astar_fuel.
  rewrite Hlen. lia.
Qed.

(** [astar_path] returns on every input whose grid look-ups are in
    range: the empty list exactly when it exhausted the frontier without
    meeting a goal, otherwise a walk from [start] to a goal. *)
Lemma astar_path_spec fuel :
  lookups_in_range maze start → maze_closed maze → (astar_fuel ≤ fuel)%nat →
  ∃ path, astar_path fuel maze start goals = Ok path ∧
    ((path = [] ∧ ∀ c, reachable maze start c → c ∉ goals) ∨
     (∃ goal, goal ∈ goals ∧ walk maze start path goal)).
Proof.
  intros Hstart Hclosed Hfuel. unfold astar_path.
  destruct (decide (start ∈ goals)) as [Hgoal|Hgoal].
  - exists [start]. split; [done|]. right. exists start. split; [done|constructor].
  - pose proof astar_init_measure.
    apply (astar_loop_spec fuel fuel start); try done; try lia.
    + by apply astar_init_inv.
    + unfold astar_fuel in *. nia.
Qed.

End AstarInvariant.

(** ** More fuel never changes an outcome *)

Lemma reconstruct_loop_more_fuel fuel fuel' cf c path p :
  reconstruct_loop fuel cf c path = Ok p → (fuel ≤ fuel')%nat →
  reconstruct_loop fuel' cf c path = Ok p.
Proof.
  revert fuel' c path. induction fuel as [|fuel IH]; intros fuel' c path H Hle.
  - destruct fuel'; simpl in *; destruct (cf !! c); done.
  - destruct fuel' as [|fuel']; [lia|]. simpl in *.
    destruct (cf !! c); [|done]. apply IH; [done|lia].
Qed.

Lemma reconstruct_loop_no_error fuel cf c path :
  reconstruct_loop fuel cf c path ≠ IndexError.
Proof.
  revert c path. induction fuel as [|fuel IH]; intros c path; simpl;
    destruct (cf !! c); try done.
Qed.

Lemma reconstruct_path_more_fuel fuel fuel' cf c r :
  reconstruct_path fuel cf c = r → r ≠ OutOfFuel → (fuel ≤ fuel')%nat →
  reconstruct_path fuel' cf c = r.
Proof.
  unfold reconstruct_path. intros H Hr Hle.
  destruct (reconstruct_loop fuel cf c [c]) as [p| |] eqn:Hloop; simpl in H.
  - by rewrite (reconstruct_loop_more_fuel _ _ _ _ _ _ Hloop Hle).
  - by apply reconstruct_loop_no_error in Hloop.
  - congruence.
Qed.

Lemma astar_loop_more_fuel fuel rfuel fuel' rfuel' maze goals st r :
  astar_loop fuel rfuel maze goals st = r → r ≠ OutOfFuel →
  (fuel ≤ fuel')%nat → (rfuel ≤ rfuel')%nat →
  astar_loop fuel' rfuel' maze goals st = r.
Proof.
  revert fuel' st. induction fuel as [|fuel IH]; intros fuel' st H Hr Hle Hle'.
  - simpl in H. congruence.
  - destruct fuel' as [|fuel']; [lia|]. simpl in *.
    destruct (heappop (open_heap st)) as [[[[f g] current] heap']|]; [|done].
    destruct (decide (current ∈ goals)).
    + by eapply reconstruct_path_more_fuel.
    + destruct (neighbours current maze) as [ns| |]; simpl in *; try done.
      apply IH; [done|done|lia|done].
Qed.

Lemma astar_path_more_fuel fuel fuel' maze start goals r :
  astar_path fuel maze start goals = r → r ≠ OutOfFuel →
  (fuel ≤ fuel')%nat → astar_path fuel' maze start goals = r.
Proof.
  unfold astar_path. destruct (decide (start ∈ goals)); [done|].
  intros. by eapply astar_loop_more_fuel.
Qed.

(** ** The path-finder on the maze of the game *)

Lemma walk_cons maze a b p c :
  step maze a b → walk maze b p c → walk maze a (a :: p) c.
Proof.
  intros Hab. induction 1 as [|p c d _ IH Hcd].
  - apply (walk_snoc maze a [a] a b); [constructor|done].
  - apply (walk_snoc maze a (a :: p) c d); done.
Qed.

Lemma walk_cons2 maze a b p c :
  step maze a b → walk maze b (b :: p) c → walk maze a (a :: b :: p) c.
Proof. apply walk_cons. Qed.

Lemma walk_end_traversable maze a p b :
  traversable maze a → walk maze a p b → traversable maze b.
Proof. intros Ha. destruct 1; [done|]. by eapply step_traversable. Qed.

Lemma step_wrap_distance maze a b goal :
  in_grid a → in_grid goal → step maze a b →
  wrap_distance a goal ≤ wrap_distance b goal + 1.
Proof.
  intros Ha Hgoal Hstep.
  pose proof (step_adjacent _ _ _ Ha Hstep) as Hadj.
  destruct (step_traversable _ _ _ Hstep) as [Hb _].
  unfold wrap_distance, wrap_adjacent, in_grid, settings.GRID_WIDTH,
    settings.GRID_HEIGHT in *.
  lia.
Qed.

(** No walk is shorter than the wrap-aware distance of its ends. *)
Lemma walk_wrap_distance maze a p b goal :
  traversable maze a → in_grid goal → walk maze a p b →
  wrap_distance a goal ≤ wrap_distance b goal + Z.of_nat (moves p).
Proof.
  intros Ha Hgoal. induction 1 as [|p b c Hw IH Hs].
  - unfold moves. simpl. lia.
  - destruct (walk_end_traversable _ _ _ _ Ha Hw) as [Hb _].
    pose proof (step_wrap_distance _ _ _ goal Hb Hgoal Hs).
    pose proof (walk_length _ _ _ _ Hw).
    unfold moves in *. rewrite length_app. simpl. lia.
Qed.

Lemma the_maze_closed : maze_closed the_maze.
Proof. apply maze_closedb_sound. vm_compute. reflexivity. Qed.

Ltac solve_step :=
  eexists; split; [vm_compute; reflexivity | repeat constructor].

Ltac solve_walk :=
  repeat (apply walk_cons2; [solve_step|]); apply walk_start.

(** C2 (path validity).  On every maze whose traversable cells can all be
    expanded, for every traversable start cell and every goal set with a
    goal reachable from it, [astar_path] returns a path that begins with
    the start cell, ends with a member of the goal set, moves between
    4-adjacent cells only (with horizontal wraparound, never a vertical
    one) and visits traversable cells only. *)
Theorem astar_path_valid (maze : Maze) (start : GridPos)
    (goals : gset GridPos) (fuel : nat) :
  maze_closed maze →
  traversable maze start →
  (∃ goal, goal ∈ goals ∧ reachable maze start goal) →
  (astar_fuel ≤ fuel)%nat →
  ∃ path goal,
    astar_path fuel maze start goals = Ok path ∧
    head path = Some start ∧
    last path = Some goal ∧ goal ∈ goals ∧
    (∀ i a b, path !! i = Some a → path !! S i = Some b → wrap_adjacent a b) ∧
    Forall (traversable maze) path.
Proof.
  intros Hclosed Hstart (goal & Hgoal & Hreach) Hfuel.
  destruct (astar_path_spec maze start goals fuel) as (path & Hpath & Hcases);
    [by apply Hclosed|done|done|].
  destruct Hcases as [[_ Hnone]|(goal' & Hgoal' & Hwalk)].
  { by destruct (Hnone goal Hreach). }
  exists path, goal'.
  pose proof (walk_traversable _ _ _ _ Hstart Hwalk) as Hall.
  split; [done|]. split; [by eapply walk_head|].
  split; [by eapply walk_last|]. split; [done|]. split; [|done].
  intros i a b Ha Hb. apply (step_adjacent maze).
  - rewrite Forall_lookup in Hall. by destruct (Hall i a Ha).
  - by eapply walk_consecutive.
Qed.

Lemma astar_path_valid_witness :
  ∃ path goal,
    astar_path astar_fuel the_maze (0, 14) {[ (27, 14) ]} = Ok path ∧
    head path = Some (0, 14) ∧
    last path = Some goal ∧ goal ∈ ({[ (27, 14) ]} : gset GridPos) ∧
    (∀ i a b, path !! i = Some a → path !! S i = Some b → wrap_adjacent a b) ∧
    Forall (traversable the_maze) path.
Proof.
  apply (astar_path_valid the_maze (0, 14) {[ (27, 14) ]} astar_fuel).
  - apply the_maze_closed.
  - split; [unfold in_grid; simpl; unfold settings.GRID_WIDTH, settings.GRID_HEIGHT; lia|].
    vm_compute. reflexivity.
  - exists (27, 14). split; [by apply elem_of_singleton|].
    apply rtc_once. solve_step.
  - apply le_n.
Defined.

(** When no goal can be reached from the start cell, the empty goal set
    included, [astar_path] exhausts its frontier and returns the empty
    path, provided the grid look-ups made at the start cell and at the
    traversable cells are in range. *)
Theorem astar_path_unreachable (maze : Maze) (start : GridPos)
    (goals : gset GridPos) (fuel : nat) :
  maze_closed maze →
  lookups_in_range maze start →
  (∀ goal, goal ∈ goals → ¬ reachable maze start goal) →
  (astar_fuel ≤ fuel)%nat →
  astar_path fuel maze start goals = Ok [].
Proof.
  intros Hclosed Hstart Hnone Hfuel.
  destruct (astar_path_spec maze start goals fuel) as (path & Hpath & Hcases);
    [done..|].
  destruct Hcases as [[-> _]|(goal & Hgoal & Hwalk)]; [done|].
  destruct (Hnone goal Hgoal). by eapply walk_reachable.
Qed.

Lemma astar_path_unreachable_witness :
  astar_path astar_fuel the_maze (13, 23) ∅ = Ok [].
Proof.
  apply astar_path_unreachable.
  - apply the_maze_closed.
  - eexists. vm_compute. reflexivity.
  - intros goal Hgoal. by apply not_elem_of_empty in Hgoal.
  - apply le_n.
Defined.

Lemma astar_path_first_expansion_raises maze start goals fuel :
  start ∉ goals → neighbours start maze = IndexError →
  astar_path (S fuel) maze start goals = IndexError.
Proof.
  intros Hgoal Hraise. unfold astar_path, astar_init.
  rewrite decide_False by done. simpl.
  rewrite decide_False by done. by rewrite Hraise.
Qed.

(** The search cannot be started on the bottom wall row.
    [MAZE_BLUEPRINT] has 30 rows and [settings.GRID_HEIGHT] is 31, so
    [neighbours] takes row 30 for a row of the grid: expanding (0, 29)
    reads [maze.grid[30]] and [astar_path] raises [IndexError].  No agent
    stands on that row, which is all walls, and [valid_tile] bounds the
    row by [len(maze.grid)]. *)
Theorem astar_path_bottom_row_raises :
  length MAZE_BLUEPRINT = 30%nat ∧
  settings.GRID_HEIGHT = 31 ∧
  grid_get the_maze 29 0 = Ok "X"%char ∧
  valid_tile the_maze (Vector2_of 0 30) = Ok false ∧
  (∀ c, ¬ step the_maze (0, 29) c) ∧
  ∀ fuel, astar_path (S fuel) the_maze (0, 29) ∅ = IndexError.
Proof.
  split; [done|]. split; [done|]. split; [by vm_compute|].
  split; [by vm_compute|]. split.
  - intros c (ns & Hns & _). vm_compute in Hns. done.
  - intros fuel. apply astar_path_first_expansion_raises.
    + apply not_elem_of_empty.
    + vm_compute. reflexivity.
Qed.

(** C1 (optimality).  The heuristic ignores the wraparound that
    [neighbours] offers, so it overestimates across the tunnel of row 14
    and the search settles for a detour: from (3, 14) to the goal
    (24, 14) [astar_path] returns 25 moves around the ghost house, while
    the walk through the tunnel has 7, which no walk beats; and the
    heuristic of (0, 14) for the goal (27, 14) is 27 although the goal is
    one move away. *)
Theorem astar_path_not_shortest :
  (∀ fuel, ∃ path,
     astar_path (60 + fuel) the_maze (3, 14) {[ (24, 14) ]} = Ok path ∧
     moves path = 25%nat) ∧
  walk the_maze (3, 14)
    [(3, 14); (2, 14); (1, 14); (0, 14); (27, 14); (26, 14); (25, 14); (24, 14)]
    (24, 14) ∧
  moves [(3, 14); (2, 14); (1, 14); (0, 14);
         (27, 14); (26, 14); (25, 14); (24, 14)] = 7%nat ∧
  (∀ p, walk the_maze (3, 14) p (24, 14) → (7 ≤ moves p)%nat) ∧
  heuristic (0, 14) {[ (27, 14) ]} = 27 ∧
  step the_maze (0, 14) (27, 14).
Proof.
  split; [|split; [|split; [|split; [|split]]]].
  - intros fuel. eexists. split.
    + apply astar_path_more_fuel with (fuel := 60%nat); [|done|lia].
      vm_compute. reflexivity.
    + reflexivity.
  - solve_walk.
  - reflexivity.
  - intros p Hp.
    assert (traversable the_maze (3, 14)) as Hstart.
    { split; [|by vm_compute].
      unfold in_grid, settings.GRID_WIDTH, settings.GRID_HEIGHT. simpl. lia. }
    assert (in_grid (24, 14)) as Hgoal.
    { unfold in_grid, settings.GRID_WIDTH, settings.GRID_HEIGHT. simpl. lia. }
    pose proof (walk_wrap_distance _ _ _ _ _ Hstart Hgoal Hp) as Hd.
    change (wrap_distance (3, 14) (24, 14)) with 7 in Hd.
    change (wrap_distance (24, 14) (24, 14)) with 0 in Hd. lia.
  - vm_compute. reflexivity.
  - solve_step.
Qed.

(** ** Movement *)

Lemma floordiv_tile_center (x : Z) :
  floordiv (inject_Z x * inject_Z settings.TILE_SIZE
            + inject_Z settings.TILE_SIZE / 2) settings.TILE_SIZE = x.
Proof.
  unfold floordiv, settings.TILE_SIZE, Qdiv, Qmult, Qplus, Qinv, inject_Z.
  cbn [Qnum Qden Qfloor]. simpl.
  symmetry. apply Z.div_unique with (r := 24); lia.
Qed.

(** C10 (tile-centre round trip).  For every cell with integer
    coordinates, converting the cell to its tile centre and flooring back
    by the tile size gives the cell again. *)
Theorem pixel_to_grid_grid_to_pixel (x y : Z) :
  pixel_to_grid (grid_to_pixel (Vector2_of x y)) = Vector2_of x y.
Proof.
  unfold pixel_to_grid, grid_to_pixel, vadd, vscale, Vector2_of.
  cbn [vx vy]. by rewrite !floordiv_tile_center.
Qed.

Lemma Qltb_lt (a b : Q) : Qltb a b = true ↔ (a < b)%Q.
Proof.
  unfold Qltb. rewrite negb_true_iff, <- not_true_iff_false, Qle_bool_iff.
  split; [apply Qnot_le_lt|apply Qlt_not_le].
Qed.

Lemma Qltb_ge (a b : Q) : Qltb a b = false ↔ (b <= a)%Q.
Proof. unfold Qltb. by rewrite negb_false_iff, Qle_bool_iff. Qed.

Lemma length_squared_zero (v : Vector2) :
  (length_squared v == 0)%Q → (vx v == 0)%Q ∧ (vy v == 0)%Q.
Proof. unfold length_squared. intros H. split; nra. Qed.

Lemma screen_wrap_inside (p : Vector2) :
  (inject_Z (- settings.TILE_SIZE) <= vx p)%Q →
  (vx p <= inject_Z (settings.SCREEN_WIDTH + settings.TILE_SIZE))%Q →
  screen_wrap p = (p, false).
Proof.
  intros Hl Hr. unfold screen_wrap.
  apply Qltb_ge in Hl as ->. by apply Qltb_ge in Hr as ->.
Qed.

(** C6 (wall rejection).  For every agent whose direction is not the zero
    vector and every [dt]: if the integrated position stays within one
    tile of the left and right world bounds (the update is not a wrap) and
    the cell derived from it is not traversable, then [update_position]
    returns without raising, with the pixel position and the grid cell it
    had before the move and with the zero direction. *)
Theorem update_position_wall_rejection (maze : Maze) (e : Entity) (dt : Q) :
  ¬ ((vx (direction e) == 0)%Q ∧ (vy (direction e) == 0)%Q) →
  (inject_Z (- settings.TILE_SIZE) <= vx (integrate e dt))%Q →
  (vx (integrate e dt)
   <= inject_Z (settings.SCREEN_WIDTH + settings.TILE_SIZE))%Q →
  valid_tile maze (portal_adjust (pixel_to_grid (integrate e dt))) = Ok false →
  update_position maze e dt =
    Ok {| grid_pos := grid_pos e;
          speed := speed e;
          direction := Vector2_of 0 0;
          pixel_pos := pixel_pos e |}.
Proof.
  intros Hdir Hl Hr Hwall. unfold update_position.
  destruct (Qeq_bool (length_squared (direction e)) 0) eqn:Hzero.
  { apply Qeq_bool_iff, length_squared_zero in Hzero. done. }
  rewrite (screen_wrap_inside _ Hl Hr), Hwall. done.
Qed.

Lemma update_position_wall_rejection_witness :
  let e := {| grid_pos := Vector2_of 1 1;
              speed := 120;
              direction := Vector2_of 0 (-1);
              pixel_pos := grid_to_pixel (Vector2_of 1 1) |} in
  grid_get the_maze 0 1 = Ok "X"%char ∧
  update_position the_maze e (1 # 4) =
    Ok {| grid_pos := Vector2_of 1 1;
          speed := 120;
          direction := Vector2_of 0 0;
          pixel_pos := grid_to_pixel (Vector2_of 1 1) |}.
Proof.
  intros e. split; [by vm_compute|].
  apply (update_position_wall_rejection the_maze e (1 # 4)).
  - intros [_ H]. vm_compute in H. done.
  - vm_compute. discriminate.
  - vm_compute. discriminate.
  - vm_compute. reflexivity.
Defined.

(** Whatever the agent, a position more than a tile beyond the left
    bound is teleported to a pixel of column 29, which [portal_adjust]
    takes for an exit to the right: the agent ends in column 0. *)
Lemma wrap_left_lands_on_column_0 (p : Vector2) :
  (vx p < inject_Z (- settings.TILE_SIZE))%Q →
  snd (screen_wrap p) = true ∧
  vx (portal_adjust (pixel_to_grid (fst (screen_wrap p)))) = inject_Z 0.
Proof.
  intros H. unfold screen_wrap. apply Qltb_lt in H as ->. done.
Qed.

(** And one more than a tile beyond the right bound ends in the last
    column. *)
Lemma wrap_right_lands_on_last_column (p : Vector2) :
  (inject_Z (settings.SCREEN_WIDTH + settings.TILE_SIZE) < vx p)%Q →
  snd (screen_wrap p) = true ∧
  vx (portal_adjust (pixel_to_grid (fst (screen_wrap p))))
  = inject_Z (settings.GRID_WIDTH - 1).
Proof.
  intros H. unfold screen_wrap.
  assert (Qltb (vx p) (inject_Z (- settings.TILE_SIZE)) = false) as ->.
  { apply Qltb_ge. apply Qlt_le_weak. eapply Qlt_trans; [|exact H]. done. }
  apply Qltb_lt in H as ->. done.
Qed.

(** C4 (wrap consistency), at an agent that leaves the tunnel row by the
    left edge in one long step ([dt] of half a second at speed 120): the
    teleport puts it at pixel 696, a pixel of column 29, and
    [portal_adjust] folds that onto column 0, the column it left, whereas
    the path-finder's wraparound gives column 27; a short step over the
    same edge does land on column 27.  The mirror image holds at the right
    edge. *)
Theorem update_position_wrap_wrong_column :
  let at_left := {| grid_pos := Vector2_of 0 14;
                    speed := 120;
                    direction := Vector2_of (-1) 0;
                    pixel_pos := grid_to_pixel (Vector2_of 0 14) |} in
  let at_right := {| grid_pos := Vector2_of 27 14;
                     speed := 120;
                     direction := Vector2_of 1 0;
                     pixel_pos := grid_to_pixel (Vector2_of 27 14) |} in
  snd (screen_wrap (integrate at_left (1 # 2))) = true ∧
  update_position the_maze at_left (1 # 2) = Ok at_left ∧
  neighbour_at the_maze (0, 14) (-1, 0) = Ok (Some (27, 14)) ∧
  update_position the_maze at_left (1 # 8) =
    Ok {| grid_pos := Vector2_of 27 14;
          speed := 120;
          direction := Vector2_of (-1) 0;
          pixel_pos := grid_to_pixel (Vector2_of 27 14) |} ∧
  snd (screen_wrap (integrate at_right (1 # 2))) = true ∧
  update_position the_maze at_right (1 # 2) = Ok at_right ∧
  neighbour_at the_maze (27, 14) (1, 0) = Ok (Some (0, 14)).
Proof.
  repeat split; vm_compute; reflexivity.
Qed.

(** ** The behaviour engine *)

Lemma manhattan_cells (a b : GridPos) :
  manhattan (Vector2_of a.1 a.2) (Vector2_of b.1 b.2) = manhattan_to a b.
Proof.
  unfold manhattan, manhattan_to, Vector2_of, py_int, Qabs, Qminus, Qplus,
    Qopp, inject_Z.
  cbn [vx vy Qnum Qden]. simpl. rewrite Z.quot_1_r. lia.
Qed.

(** C5 (decision rule).  [decide_mode] is a function of the snapshot
    alone and, for a pursuer cell and a player cell, returns: the flee
    label with the home cell when the frightened flag is set; else the
    attack label with the player cell when the Manhattan distance of the
    two cells is at most the threshold; else the patrol label with the
    home cell.  The threshold of a snapshot taken by
    [observe_ghost_state] is 6. *)
Theorem decide_mode_rules (maze : Maze) (pacman ghost home : GridPos)
    (frightened : bool) (threshold : Z) (ghosts : list Ghost) :
  let cell (c : GridPos) := Vector2_of c.1 c.2 in
  decide_mode {| pacman_pos := cell pacman;
                 ghost_pos := cell ghost;
                 scatter_corner := cell home;
                 ctx_maze := maze;
                 power_mode_active := frightened;
                 distance_threshold := threshold |}
  = (if frightened then ("fuite"%string, cell home)
     else if decide (manhattan_to ghost pacman ≤ threshold)
          then ("attaque"%string, cell pacman)
          else ("patrouille"%string, cell home))
  ∧ distance_threshold
      (observe_ghost_state maze (cell pacman) (cell ghost) (cell home) ghosts)
    = 6.
Proof.
  intros cell. split; [|done].
  unfold decide_mode. cbn [power_mode_active ghost_pos pacman_pos
    scatter_corner distance_threshold].
  unfold cell. by rewrite manhattan_cells.
Qed.

(** ** The pursuer state machine *)

Lemma Ghost_update_frightened (timer dt : Q) (path : list GridPos)
    (at_home : bool) :
  Ghost_update {| mode := FRIGHTENED; frightened_timer := timer |}
               dt path at_home
  = {| mode := if Qle_bool (timer - dt) 0 then CHASE else FRIGHTENED;
       frightened_timer := (timer - dt)%Q |}.
Proof.
  unfold Ghost_update. cbn [mode frightened_timer].
  destruct (decide (FRIGHTENED = FRIGHTENED)); [|done].
  destruct (decide (2 ≤ length path)%nat); [done|].
  destruct (Qle_bool _ 0); cbn [mode];
    rewrite bool_decide_eq_false_2 by done; done.
Qed.

Lemma run_updates_frightened (timer : Q) (ticks : list Tick) :
  Forall (Qlt 0) (countdown timer (tick_dt <$> ticks)) →
  run_updates {| mode := FRIGHTENED; frightened_timer := timer |} ticks
  = {| mode := FRIGHTENED;
       frightened_timer := remaining timer (tick_dt <$> ticks) |}.
Proof.
  revert timer. induction ticks as [|[dt path at_home] ticks IH]; intros timer Hpos.
  - done.
  - csimpl in Hpos. apply Forall_cons in Hpos as [Hdt Hpos].
    change (run_updates ?g (mkTick dt path at_home :: ticks))
      with (run_updates (Ghost_update g dt path at_home) ticks).
    rewrite Ghost_update_frightened.
    assert (Qle_bool (timer - dt) 0 = false) as ->.
    { apply not_true_iff_false. rewrite Qle_bool_iff. by apply Qlt_not_le. }
    by rewrite (IH _ Hpos).
Qed.

(** C8 (frightened transition).  A pursuer put into Frightened mode gets
    the full duration on its timer.  Over any sequence of updates after
    each of which the countdown is still positive it stays Frightened,
    its timer holding what is left of the countdown; and the update that
    follows takes it to Chase exactly if it brings the countdown to zero
    or below, and leaves it Frightened otherwise. *)
Theorem frightened_until_countdown_expires (g0 : Ghost) (ticks : list Tick)
    (dt : Q) (path : list GridPos) (at_home : bool) :
  let full := inject_Z settings.POWER_MODE_DURATION in
  Forall (Qlt 0) (countdown full (tick_dt <$> ticks)) →
  let g := run_updates (set_mode g0 FRIGHTENED) ticks in
  frightened_timer (set_mode g0 FRIGHTENED) = full ∧
  mode g = FRIGHTENED ∧
  frightened_timer g = remaining full (tick_dt <$> ticks) ∧
  mode (Ghost_update g dt path at_home)
  = (if Qle_bool (remaining full ((tick_dt <$> ticks) ++ [dt])) 0
     then CHASE else FRIGHTENED).
Proof.
  intros full Hpos g. split; [done|].
  assert (g = {| mode := FRIGHTENED;
                 frightened_timer := remaining full (tick_dt <$> ticks) |})
    as ->.
  { unfold g, set_mode. rewrite decide_True by done.
    by apply run_updates_frightened. }
  split; [done|]. split; [done|].
  rewrite Ghost_update_frightened. unfold remaining.
  by rewrite foldl_snoc.
Qed.

Lemma frightened_until_countdown_expires_witness :
  let ticks := [ mkTick 3 [(13, 11); (12, 11)] false;
                 mkTick (9 # 2) [] true ] in
  let g := run_updates (set_mode {| mode := CHASE; frightened_timer := 0 |}
                                 FRIGHTENED) ticks in
  mode g = FRIGHTENED ∧
  mode (Ghost_update g (1 # 4) [] true) = FRIGHTENED ∧
  mode (Ghost_update g (1 # 2) [] true) = CHASE.
Proof.
  intros ticks g.
  assert (Forall (Qlt 0)
            (countdown (inject_Z settings.POWER_MODE_DURATION)
                       (tick_dt <$> ticks))) as Hpos.
  { repeat constructor. }
  split; [|split].
  - apply (frightened_until_countdown_expires
             {| mode := CHASE; frightened_timer := 0 |} ticks 0 [] false Hpos).
  - apply (frightened_until_countdown_expires
             {| mode := CHASE; frightened_timer := 0 |} ticks (1 # 4) [] true
             Hpos).
  - apply (frightened_until_countdown_expires
             {| mode := CHASE; frightened_timer := 0 |} ticks (1 # 2) [] true
             Hpos).
Defined.

(** ** Power pellets *)

(** C3 (power activated), as the code has it.  When the player rests on
    a power pellet, the pellet block of [Game.update] sets every pursuer,
    whatever its mode, the Eaten ones included, to Frightened with the
    full duration on its timer. *)
Theorem power_pellet_frightens_every_ghost (maze maze' : Maze)
    (pacman : Entity) (score : Z) (ghosts : list Ghost) :
  is_at_center pacman = true →
  consume_tile maze (py_int (vx (grid_pos pacman)))
                    (py_int (vy (grid_pos pacman))) = Ok ("o"%char, maze') →
  Game_update_pellets maze pacman score ghosts =
    Ok (maze', score + 50,
        (λ _, {| mode := FRIGHTENED;
                 frightened_timer := inject_Z settings.POWER_MODE_DURATION |})
          <$> ghosts).
Proof.
  intros Hcenter Hconsume. unfold Game_update_pellets.
  rewrite Hcenter, Hconsume. reflexivity.
Qed.

Lemma power_pellet_frightens_every_ghost_witness :
  let pacman := {| grid_pos := Vector2_of 1 3;
                   speed := 120;
                   direction := Vector2_of 0 1;
                   pixel_pos := grid_to_pixel (Vector2_of 1 3) |} in
  let ghosts := [ {| mode := CHASE; frightened_timer := 0%Q |};
                  {| mode := EATEN; frightened_timer := 0%Q |} ] in
  ∃ maze',
    grid_get the_maze 3 1 = Ok "o"%char ∧
    grid_get maze' 3 1 = Ok " "%char ∧
    Game_update_pellets the_maze pacman 0 ghosts =
      Ok (maze', 50,
          [ {| mode := FRIGHTENED; frightened_timer := 8%Q |};
            {| mode := FRIGHTENED; frightened_timer := 8%Q |} ]).
Proof.
  intros pacman ghosts.
  destruct (consume_tile the_maze 1 3) as [[v maze']| |] eqn:Hconsume;
    [|vm_compute in Hconsume; discriminate..].
  assert (v = "o"%char) as ->.
  { vm_compute in Hconsume. by injection Hconsume as <- _. }
  exists maze'. split; [by vm_compute|]. split.
  { vm_compute in Hconsume. injection Hconsume as <-. by vm_compute. }
  apply (power_pellet_frightens_every_ghost the_maze maze' pacman 0 ghosts).
  - by vm_compute.
  - exact Hconsume.
Defined.

(** C3 as stated fails: with the player at rest on the power pellet of
    cell (1, 3), the pellet is consumed (the score grows by 50) and the
    pursuer that was in Eaten mode is Frightened afterwards; it does not
    keep its Eaten mode. *)
Lemma power_pellet_eaten_ghost_not_kept :
  let pacman := {| grid_pos := Vector2_of 1 3;
                   speed := 120;
                   direction := Vector2_of 0 1;
                   pixel_pos := grid_to_pixel (Vector2_of 1 3) |} in
  let eaten := {| mode := EATEN; frightened_timer := 0%Q |} in
  (∃ maze',
     Game_update_pellets the_maze pacman 0 [eaten] =
       Ok (maze', 50, [ {| mode := FRIGHTENED; frightened_timer := 8%Q |} ]))
  ∧ ¬ ∃ maze' score' ghost',
        Game_update_pellets the_maze pacman 0 [eaten]
        = Ok (maze', score', [ghost'])
        ∧ mode ghost' = mode eaten.
Proof.
  intros pacman eaten. split.
  - eexists. vm_compute. reflexivity.
  - intros (maze' & score' & ghost' & Hrun & Hmode).
    vm_compute in Hrun. injection Hrun as _ _ <-. discriminate Hmode.
Qed.

(** ** The grid *)

Lemma py_norm_index_nonneg {A} (l : list A) (i : Z) :
  0 ≤ i →
  py_norm_index l i =
    if decide (i < Z.of_nat (length l)) then Some (Z.to_nat i) else None.
Proof.
  intros Hi. unfold py_norm_index. repeat case_decide; try done; lia.
Qed.

Lemma py_index_nonneg {A} (l : list A) (i : Z) :
  0 ≤ i → py_index l i = of_option (l !! Z.to_nat i).
Proof.
  intros Hi. unfold py_index. rewrite py_norm_index_nonneg by done.
  case_decide; [done|]. simpl. rewrite lookup_ge_None_2 by lia. done.
Qed.

Lemma grid_get_nonneg (maze : Maze) (y x : Z) :
  0 ≤ y → 0 ≤ x →
  grid_get maze y x =
    of_option (r ← grid maze !! Z.to_nat y;
               row ← rows maze !! r;
               row !! Z.to_nat x).
Proof.
  intros Hy Hx. unfold grid_get, grid_row. rewrite py_index_nonneg by done.
  destruct (grid maze !! Z.to_nat y) as [r|]; simpl; [|done].
  destruct (rows maze !! r) as [row|]; simpl; [|done].
  by apply py_index_nonneg.
Qed.

(** [from_blueprint] allocates its rows one by one. *)
Lemma from_blueprint_rows_distinct (blueprint : list string) :
  NoDup (grid (from_blueprint blueprint)).
Proof. apply NoDup_seq. Qed.

(** C9 (consumption).  On a maze whose rows are distinct objects, for
    every in-bounds cell [(x, y)], [consume_tile] returns the marker the
    cell held; if that was a pellet or a power pellet the cell is open
    afterwards, and otherwise the maze is as it was; every other cell
    keeps its marker; so the wall cells before and after are the same. *)
Theorem consume_tile_effect (maze : Maze) (x y : Z) (v : ascii) :
  NoDup (grid maze) →
  0 ≤ x → 0 ≤ y →
  grid_get maze y x = Ok v →
  ∃ maze',
    consume_tile maze x y = Ok (v, maze') ∧
    (if decide (v = "."%char ∨ v = "o"%char)
     then grid_get maze' y x = Ok " "%char
     else maze' = maze) ∧
    (∀ x' y', 0 ≤ x' → 0 ≤ y' → (x', y') ≠ (x, y) →
       grid_get maze' y' x' = grid_get maze y' x') ∧
    (∀ x' y', 0 ≤ x' → 0 ≤ y' →
       grid_get maze' y' x' = Ok "X"%char ↔ grid_get maze y' x' = Ok "X"%char).
Proof.
  intros Hdistinct Hx Hy Hget.
  rewrite grid_get_nonneg in Hget by done.
  destruct (grid maze !! Z.to_nat y) as [r|] eqn:Hr; simpl in Hget; [|done].
  destruct (rows maze !! r) as [row|] eqn:Hrow; simpl in Hget; [|done].
  destruct (row !! Z.to_nat x) as [v'|] eqn:Hv; simpl in Hget; [|done].
  injection Hget as ->.
  assert (x < Z.of_nat (length row)) as Hlen.
  { apply lookup_lt_Some in Hv. lia. }
  assert (consume_tile maze x y =
          if decide (v = "."%char ∨ v = "o"%char)
          then Ok (v, {| grid := grid maze;
                         rows := <[r := <[Z.to_nat x := " "%char]> row]>
                                   (rows maze) |})
          else Ok (v, maze)) as Hconsume.
  { unfold consume_tile. rewrite py_index_nonneg, Hr by done. simpl.
    rewrite Hrow. simpl. rewrite py_norm_index_nonneg by done.
    rewrite decide_True by done. simpl. rewrite Hv. done. }
  destruct (decide (v = "."%char ∨ v = "o"%char)) as [Hpellet|Hother].
  - set (maze' := {| grid := grid maze;
                     rows := <[r := <[Z.to_nat x := " "%char]> row]>
                               (rows maze) |}).
    assert (grid_get maze' y x = Ok " "%char) as Hnew.
    { rewrite grid_get_nonneg by done. simpl. rewrite Hr. simpl.
      rewrite lookup_insert_eq. simpl.
      rewrite list_lookup_insert_eq; [done|]. by eapply lookup_lt_Some. }
    assert (∀ x' y', 0 ≤ x' → 0 ≤ y' → (x', y') ≠ (x, y) →
              grid_get maze' y' x' = grid_get maze y' x') as Hframe.
    { intros x' y' Hx' Hy' Hne. rewrite !grid_get_nonneg by done. simpl.
      destruct (grid maze !! Z.to_nat y') as [r'|] eqn:Hr'; simpl; [|done].
      destruct (decide (r' = r)) as [->|Hrne].
      - rewrite lookup_insert_eq, Hrow. simpl.
        assert (Z.to_nat y' = Z.to_nat y) by (by eapply NoDup_lookup).
        rewrite list_lookup_insert_ne; [done|].
        intros Heq. apply Hne. f_equal; lia.
      - by rewrite lookup_insert_ne. }
    exists maze'. split; [done|]. split; [done|]. split; [done|].
    intros x' y' Hx' Hy'. destruct (decide ((x', y') = (x, y))) as [[= -> ->]|Hne].
    + rewrite Hnew. rewrite grid_get_nonneg by done. rewrite Hr. simpl.
      rewrite Hrow. simpl. rewrite Hv. simpl.
      split; [intros [=]|intros [= ->]; by destruct Hpellet].
    + by rewrite Hframe.
  - exists maze. done.
Qed.

Lemma consume_tile_effect_witness :
  ∃ maze',
    consume_tile the_maze 1 1 = Ok ("."%char, maze') ∧
    grid_get maze' 1 1 = Ok " "%char ∧
    (∀ x' y', 0 ≤ x' → 0 ≤ y' → (x', y') ≠ (1, 1) →
       grid_get maze' y' x' = grid_get the_maze y' x') ∧
    (∀ x' y', 0 ≤ x' → 0 ≤ y' →
       grid_get maze' y' x' = Ok "X"%char ↔
       grid_get the_maze y' x' = Ok "X"%char).
Proof.
  destruct (consume_tile_effect the_maze 1 1 "."%char)
    as (maze' & Hconsume & Hcell & Hframe & Hwalls).
  - apply from_blueprint_rows_distinct.
  - lia.
  - lia.
  - vm_compute. reflexivity.
  - exists maze'. rewrite decide_True in Hcell by (by left). done.
Defined.

(** * Further properties of the code *)

(** ** The heuristic and the neighbours *)

Lemma foldl_min_le_init (d : Z) (ds : list Z) : foldl Z.min d ds ≤ d.
Proof.
  revert d. induction ds as [|e ds IH]; intros d; simpl; [done|].
  etrans; [apply IH|]. lia.
Qed.

Lemma foldl_min_le (d : Z) (ds : list Z) (x : Z) :
  x ∈ d :: ds → foldl Z.min d ds ≤ x.
Proof.
  revert d. induction ds as [|e ds IH]; intros d Hx.
  - apply list_elem_of_singleton in Hx as ->. done.
  - apply elem_of_cons in Hx as [->|Hx]; [apply foldl_min_le_init|].
    simpl. apply elem_of_cons in Hx as [->|Hx].
    + etrans; [apply foldl_min_le_init|]. lia.
    + apply IH. by right.
Qed.

Lemma foldl_min_elem (d : Z) (ds : list Z) : foldl Z.min d ds ∈ d :: ds.
Proof.
  revert d. induction ds as [|e ds IH]; intros d; simpl; [left|].
  specialize (IH (Z.min d e)). apply elem_of_cons in IH as [->|IH].
  - destruct (Z.min_spec d e) as [[_ ->]|[_ ->]]; [left|right; left].
  - by do 2 right.
Qed.

(** [heuristic] is 0 for the empty goal set; otherwise it is the distance
    to some goal, and no goal is nearer in Manhattan distance.  It is 0
    exactly at the goals. *)
Theorem heuristic_least (c : GridPos) (goals : gset GridPos) :
  (goals = ∅ → heuristic c goals = 0) ∧
  (∀ g, g ∈ goals → 0 ≤ heuristic c goals ≤ manhattan_to c g) ∧
  (goals ≠ ∅ → ∃ g, g ∈ goals ∧ heuristic c goals = manhattan_to c g) ∧
  (goals ≠ ∅ → (heuristic c goals = 0 ↔ c ∈ goals)).
Proof.
  assert (∀ g, 0 ≤ manhattan_to c g) as Hpos by (intros g; unfold manhattan_to; lia).
  assert (goals ≠ ∅ →
          ∃ g, g ∈ goals ∧ heuristic c goals = manhattan_to c g) as Hattained.
  { intros Hne. unfold heuristic.
    destruct (manhattan_to c <$> elements goals) as [|d ds] eqn:Hl.
    - apply fmap_nil_inv in Hl. by apply elements_empty_inv, leibniz_equiv in Hl.
    - pose proof (foldl_min_elem d ds) as Hin. rewrite <- Hl in Hin.
      apply list_elem_of_fmap in Hin as (g & Hg & Hgin).
      exists g. split; [by apply elem_of_elements|done]. }
  assert (∀ g, g ∈ goals → heuristic c goals ≤ manhattan_to c g) as Hle.
  { intros g Hg. unfold heuristic.
    assert (manhattan_to c g ∈ manhattan_to c <$> elements goals) as Hin.
    { apply list_elem_of_fmap. exists g. split; [done|by apply elem_of_elements]. }
    destruct (manhattan_to c <$> elements goals) as [|d ds]; [by apply not_elem_of_nil in Hin|].
    by apply foldl_min_le. }
  split; [|split; [|split]].
  - intros ->. unfold heuristic. by rewrite elements_empty.
  - intros g Hg. split; [|by apply Hle].
    destruct Hattained as (g' & _ & ->); [set_solver|done].
  - done.
  - intros Hne. split.
    + intros H0. destruct (Hattained Hne) as (g & Hg & Heq).
      rewrite H0 in Heq. unfold manhattan_to in Heq.
      assert (c = g) as ->; [|done].
      destruct c, g; simpl in *. f_equal; lia.
    + intros Hc. specialize (Hle c Hc).
      assert (manhattan_to c c = 0) as Hz by (unfold manhattan_to; lia).
      destruct (Hattained Hne) as (g & _ & Heq). specialize (Hpos g). lia.
Qed.

Lemma rmapM_Ok_elem_of {A B} (f : A → result B) (l : list A) (ys : list B) (a : A) :
  rmapM f l = Ok ys → a ∈ l → ∃ y, y ∈ ys ∧ f a = Ok y.
Proof.
  revert ys. induction l as [|a' l IH]; intros ys; simpl.
  - intros _ Ha. by apply not_elem_of_nil in Ha.
  - destruct (f a') as [b| |] eqn:Hfa; simpl; try done.
    destruct (rmapM f l) as [bs| |]; simpl; try done.
    intros [= <-] Ha. apply elem_of_cons in Ha as [->|Ha].
    + exists b. split; [left|done].
    + destruct (IH bs eq_refl Ha) as (y & Hy & Hf). exists y. split; [by right|done].
Qed.

Lemma rmapM_Ok_length {A B} (f : A → result B) (l : list A) (ys : list B) :
  rmapM f l = Ok ys → length ys = length l.
Proof.
  revert ys. induction l as [|a l IH]; intros ys; simpl.
  - by intros [= <-].
  - destruct (f a) as [b| |]; simpl; try done.
    destruct (rmapM f l) as [bs| |]; simpl; try done.
    intros [= <-]. simpl. f_equal. by apply IH.
Qed.

Lemma omap_length_le {A B} (f : A → option B) (l : list A) :
  (length (omap f l) ≤ length l)%nat.
Proof.
  induction l as [|a l IH]; csimpl; [done|].
  destruct (f a); simpl; lia.
Qed.

Lemma neighbours_membership (maze : Maze) (c : GridPos)
    (ns : list GridPos) :
  in_grid c →
  neighbours c maze = Ok ns →
  (length ns ≤ 4)%nat ∧
  ∀ n, n ∈ ns ↔ traversable maze n ∧ wrap_adjacent c n.
Proof.
  intros Hc Hns. split.
  - unfold neighbours in Hns.
    destruct (rmapM _ _) as [ys| |] eqn:Hys; simpl in Hns; try done.
    injection Hns as <-. apply rmapM_Ok_length in Hys.
    etrans; [apply omap_length_le|]. rewrite Hys. done.
  - intros n. split.
    + intros Hn. assert (step maze c n) as Hstep by (by exists ns).
      split; [by eapply step_traversable|by eapply step_adjacent].
    + intros [[Hin Hfree] Hadj].
      unfold neighbours in Hns.
      destruct (rmapM _ _) as [ys| |] eqn:Hys; simpl in Hns; try done.
      injection Hns as <-. apply list_elem_of_omap.
      exists (Some n). split; [|done].
      assert (∃ d, d ∈ DELTAS ∧
                n = ((if decide (c.1 + d.1 < 0) then settings.GRID_WIDTH - 1
                      else if decide (c.1 + d.1 >= settings.GRID_WIDTH) then 0
                      else c.1 + d.1), c.2 + d.2)) as (d & Hd & Hnd).
      { destruct c as [x y], n as [nx ny].
        unfold wrap_adjacent, in_grid, settings.GRID_WIDTH,
          settings.GRID_HEIGHT, DELTAS in *. simpl in *.
        destruct Hadj as [[-> [-> | [-> | [[-> ->] | [-> ->]]]]] | [-> [-> | ->]]].
        - exists (1, 0). split; [set_solver|]. simpl.
          repeat case_decide; f_equal; lia.
        - exists (-1, 0). split; [set_solver|]. simpl.
          repeat case_decide; f_equal; lia.
        - exists (-1, 0). split; [set_solver|]. simpl. f_equal; lia.
        - exists (1, 0). split; [set_solver|]. simpl. f_equal; lia.
        - exists (0, 1). split; [set_solver|]. simpl.
          repeat case_decide; f_equal; lia.
        - exists (0, -1). split; [set_solver|]. simpl.
          repeat case_decide; f_equal; lia. }
      destruct (rmapM_Ok_elem_of _ _ _ d Hys Hd) as (o & Ho & Hat).
      assert (o = Some n) as ->; [|done].
      unfold neighbour_at in Hat. unfold wall_free in Hfree.
      destruct Hin as [_ Hrow]. rewrite Hnd in Hfree, Hrow. simpl in Hfree, Hrow.
      rewrite decide_False in Hat by (unfold settings.GRID_HEIGHT in *; lia).
      destruct (grid_get maze _ _) as [v| |]; simpl in Hat; try done.
      apply bool_decide_eq_true in Hfree.
      rewrite decide_True in Hat by done. injection Hat as <-. by rewrite Hnd.
Qed.

(** [neighbours] at a cell of the grid yields at most four cells, and
    they are exactly the traversable cells that are 4-adjacent to it, the
    wraparound between the first and the last column included. *)
Theorem neighbours_exactly_adjacent (maze : Maze) (c : GridPos)
    (ns : list GridPos) :
  in_grid c →
  neighbours c maze = Ok ns →
  (length ns ≤ 4)%nat ∧
  ∀ n, n ∈ ns ↔ traversable maze n ∧ wrap_adjacent c n.
Proof. apply neighbours_membership. Qed.

Lemma neighbours_exactly_adjacent_witness :
  neighbours (0, 14) the_maze = Ok [(27, 14); (1, 14)] ∧
  ∀ n, n ∈ [(27, 14); (1, 14)] ↔ traversable the_maze n ∧ wrap_adjacent (0, 14) n.
Proof.
  split; [by vm_compute|].
  apply (neighbours_exactly_adjacent the_maze (0, 14)).
  - unfold in_grid, settings.GRID_WIDTH, settings.GRID_HEIGHT. simpl. lia.
  - vm_compute. reflexivity.
Defined.

Lemma wrap_adjacent_sym (a b : GridPos) :
  in_grid a → in_grid b → wrap_adjacent a b → wrap_adjacent b a.
Proof.
  unfold wrap_adjacent, in_grid, settings.GRID_WIDTH, settings.GRID_HEIGHT.
  lia.
Qed.

(** The moves of the search can be taken back: on a maze whose
    traversable cells can all be expanded, a traversable cell is among the
    neighbours of each of its neighbours. *)
Theorem step_symmetric (maze : Maze) (a b : GridPos) :
  maze_closed maze → traversable maze a → step maze a b → step maze b a.
Proof.
  intros Hclosed Ha Hab.
  pose proof (step_traversable _ _ _ Hab) as Hb.
  destruct (Hclosed b Hb) as [ns Hns]. exists ns. split; [done|].
  apply (neighbours_membership maze b ns); [apply Hb|done|].
  split; [done|]. apply wrap_adjacent_sym; [apply Ha|apply Hb|].
  eapply step_adjacent; [apply Ha|done].
Qed.

Lemma step_symmetric_witness :
  step the_maze (0, 14) (27, 14) ∧ step the_maze (27, 14) (0, 14).
Proof.
  assert (step the_maze (0, 14) (27, 14)) as H by solve_step.
  split; [done|].
  apply step_symmetric; [apply the_maze_closed| |done].
  split; [|by vm_compute].
  unfold in_grid, settings.GRID_WIDTH, settings.GRID_HEIGHT. simpl. lia.
Defined.

(** ** What [astar_path] returns, on any maze *)

Section AstarSoundness.
Context (maze : Maze) (start : GridPos) (goals : gset GridPos).

(** Along the parent links the scores fall, so the path rebuilt from
    them has no cell twice and is no longer than the score of its end. *)
Lemma reconstruct_loop_simple x pending st fuel c g path :
  astar_inv maze start goals x pending st →
  g_scores st !! c = Some g → (Z.to_nat g ≤ fuel)%nat →
  ∃ q, reconstruct_loop fuel (came_from st) c path = Ok (path ++ reverse q) ∧
       walk maze start (q ++ [c]) c ∧
       NoDup (q ++ [c]) ∧
       (length q ≤ Z.to_nat g)%nat ∧
       Forall (λ a, ∃ ga, g_scores st !! a = Some ga ∧ ga < g) q.
Proof.
  intros Inv. revert c g path.
  induction fuel as [|fuel IH]; intros c g path Hc Hfuel;
    destruct (came_from st !! c) as [prev|] eqn:Hprev.
  - destruct (inv_parent _ _ _ _ _ _ Inv c prev Hprev)
      as (_ & gn & gp & Hgn & Hgp & Hle).
    destruct (inv_score _ _ _ _ _ _ Inv prev gp Hgp) as [? _].
    assert (gn = g) by congruence. lia.
  - assert (c = start) as ->.
    { destruct (decide (c = start)) as [|Hne]; [done|].
      destruct (inv_has_parent _ _ _ _ _ _ Inv c) as [? ?]; eauto; congruence. }
    exists []. simpl. rewrite Hprev, app_nil_r.
    split; [done|]. split; [constructor|]. split; [apply NoDup_singleton|].
    split; [lia|constructor].
  - destruct (inv_parent _ _ _ _ _ _ Inv c prev Hprev)
      as (Hstep & gn & gp & Hgn & Hgp & Hle).
    destruct (inv_score _ _ _ _ _ _ Inv prev gp Hgp) as [? _].
    assert (gn = g) by congruence. subst gn.
    destruct (IH prev gp (path ++ [prev]) Hgp) as (q & Hq & Hw & Hnd & Hlen & Hall);
      [lia|].
    assert (Forall (λ a, ∃ ga, g_scores st !! a = Some ga ∧ ga < g) (q ++ [prev]))
      as Hall'.
    { apply Forall_app. split.
      - eapply Forall_impl; [exact Hall|]. intros a (ga & Ha & ?).
        exists ga. split; [done|lia].
      - constructor; [|constructor]. exists gp. split; [done|lia]. }
    exists (q ++ [prev]). simpl. rewrite Hprev, Hq, reverse_snoc, <- app_assoc.
    split; [done|]. split; [by econstructor|]. split; [|split; [|done]].
    + apply NoDup_app. split; [done|]. split; [|apply NoDup_singleton].
      intros a Ha Hac. apply list_elem_of_singleton in Hac as ->.
      rewrite Forall_forall in Hall'. destruct (Hall' c Ha) as (ga & Hga & ?).
      assert (ga = g) by congruence. lia.
    + rewrite length_app. simpl. lia.
  - assert (c = start) as ->.
    { destruct (decide (c = start)) as [|Hne]; [done|].
      destruct (inv_has_parent _ _ _ _ _ _ Inv c) as [? ?]; eauto; congruence. }
    exists []. simpl. rewrite Hprev, app_nil_r.
    split; [done|]. split; [constructor|]. split; [apply NoDup_singleton|].
    split; [lia|constructor].
Qed.

Lemma reconstruct_path_simple x pending st fuel c g p :
  astar_inv maze start goals x pending st →
  g_scores st !! c = Some g →
  reconstruct_path fuel (came_from st) c = Ok p →
  walk maze start p c ∧ NoDup p ∧ (length p ≤ S (Z.to_nat g))%nat.
Proof.
  intros Inv Hc Hp.
  apply reconstruct_path_more_fuel with (fuel' := (fuel + Z.to_nat g)%nat) in Hp;
    [|done|lia].
  destruct (reconstruct_loop_simple x pending st (fuel + Z.to_nat g) c g [c]
              Inv Hc) as (q & Hq & Hw & Hnd & Hlen & _); [lia|].
  unfold reconstruct_path in Hp. rewrite Hq in Hp. simpl in Hp.
  injection Hp as <-. rewrite reverse_cons, reverse_involutive.
  split; [done|]. split; [done|]. rewrite length_app. simpl. lia.
Qed.

Lemma astar_loop_sound fuel rfuel x st path :
  astar_inv maze start goals x [] st →
  astar_loop fuel rfuel maze goals st = Ok path →
  (path = [] ∧ ∀ c, reachable maze start c → c ∉ goals) ∨
  (∃ goal, goal ∈ goals ∧ walk maze start path goal ∧ NoDup path ∧
           (length path ≤ cell_bound)%nat).
Proof.
  revert x st. induction fuel as [|fuel IH]; intros x st Inv Hrun; [done|].
  simpl in Hrun.
  destruct (open_heap st) as [|[[f g_cost] current] heap'] eqn:Hheap;
    simpl in Hrun.
  - injection Hrun as <-. left. split; [done|]. by eapply exhausted_unreachable.
  - destruct (inv_heap _ _ _ _ _ _ Inv f g_cost current) as (Hg & g' & Hg' & Hle).
    { rewrite Hheap. by left. }
    destruct (inv_score _ _ _ _ _ _ Inv current g' Hg') as (Hg'' & Hreach & _).
    destruct (decide (current ∈ goals)) as [Hgoal|Hgoal].
    + right. exists current. split; [done|].
      destruct (reconstruct_path_simple x [] st rfuel current g' path Inv Hg' Hrun)
        as (Hw & Hnd & Hlen).
      split; [done|]. split; [done|].
      pose proof (discovered_le start st). lia.
    + destruct (neighbours current maze) as [ns| |] eqn:Hns; simpl in Hrun;
        try done.
      destruct (pop_inv _ _ _ _ _ _ _ _ _ _ Inv Hheap Hgoal Hns)
        as (Inv0 & Hm0 & Hd0).
      destruct (relax_all_inv maze start goals current g_cost ns _ Inv0)
        as [Inv1 _].
      { apply Forall_forall. intros n Hn. by exists ns. }
      { rewrite Hd0. done. }
      { by exists g'. }
      { done. }
      by apply (IH current _ Inv1).
Qed.

End AstarSoundness.

Lemma astar_path_outcome (fuel : nat) (maze : Maze) (start : GridPos)
    (goals : gset GridPos) (path : list GridPos) :
  astar_path fuel maze start goals = Ok path →
  (path = [] ∧ ∀ c, reachable maze start c → c ∉ goals) ∨
  (∃ goal, goal ∈ goals ∧ walk maze start path goal ∧ NoDup path ∧
           (length path ≤ cell_bound)%nat).
Proof.
  unfold astar_path. destruct (decide (start ∈ goals)) as [Hgoal|Hgoal].
  - intros [= <-]. right. exists start. split; [done|].
    split; [constructor|]. split; [apply NoDup_singleton|].
    unfold cell_bound. cbn [length]. lia.
  - intros Hrun. eapply astar_loop_sound; [|exact Hrun].
    by apply astar_init_inv.
Qed.

(** Whatever the maze, a path that [astar_path] returns is either empty,
    and then no goal can be reached from the start cell, or a walk from
    the start cell to a goal that visits no cell twice and has at most as
    many cells as the grid has, plus one. *)
Theorem astar_path_sound (fuel : nat) (maze : Maze) (start : GridPos)
    (goals : gset GridPos) (path : list GridPos) :
  astar_path fuel maze start goals = Ok path →
  (path = [] ∧ ∀ c, reachable maze start c → c ∉ goals) ∨
  (∃ goal, goal ∈ goals ∧ walk maze start path goal ∧ NoDup path ∧
           (length path ≤ cell_bound)%nat).
Proof. apply astar_path_outcome. Qed.

Lemma astar_path_sound_witness :
  ∃ path,
    astar_path 60 the_maze (3, 14) {[ (24, 14) ]} = Ok path ∧
    walk the_maze (3, 14) path (24, 14) ∧ NoDup path ∧
    (length path ≤ cell_bound)%nat.
Proof.
  destruct (astar_path 60 the_maze (3, 14) {[ (24, 14) ]}) as [path| |] eqn:Hrun;
    [|vm_compute in Hrun; discriminate..].
  exists path. split; [reflexivity|].
  destruct (astar_path_sound 60 the_maze (3, 14) {[ (24, 14) ]} path Hrun)
    as [[-> Hnone]|(goal & Hgoal & Hw & Hnd & Hlen)].
  - vm_compute in Hrun. discriminate.
  - apply elem_of_singleton in Hgoal as ->. exact (conj Hw (conj Hnd Hlen)).
Defined.

(** ** The grid: building, scanning, consuming and resetting *)

Lemma py_index_elem_of {A} (l : list A) (i : Z) (a : A) :
  py_index l i = Ok a → a ∈ l.
Proof.
  unfold py_index. destruct (py_norm_index l i) as [k|]; simpl; [|done].
  destruct (l !! k) as [b|] eqn:Hk; simpl; [|done].
  intros [= <-]. by eapply list_elem_of_lookup_2.
Qed.

Lemma grid_get_outcome (maze : Maze) (y x : Z) (v : ascii) :
  grid_get maze y x = Ok v ↔
  ∃ r row k,
    py_index (grid maze) y = Ok r ∧ rows maze !! r = Some row ∧
    py_norm_index row x = Some k ∧ row !! k = Some v.
Proof.
  unfold grid_get, grid_row, py_index at 2. split.
  - destruct (py_index (grid maze) y) as [r| |]; cbn [rbind]; try done.
    destruct (rows maze !! r) as [row|] eqn:Hrow; cbn [rbind of_option]; [|done].
    destruct (py_norm_index row x) as [k|] eqn:Hx;
      cbn [mbind option_bind of_option]; [|done].
    destruct (row !! k) as [v'|] eqn:Hk; cbn [of_option]; [|done].
    intros [= ->]. by exists r, row, k.
  - intros (r & row & k & -> & Hrow & Hk & Hv). cbn [rbind].
    rewrite Hrow. cbn [rbind of_option]. rewrite Hk.
    cbn [mbind option_bind]. by rewrite Hv.
Qed.

Lemma from_blueprint_get (blueprint : list string) (y x : Z) :
  0 ≤ y → 0 ≤ x →
  grid_get (from_blueprint blueprint) y x =
    of_option (row ← blueprint !! Z.to_nat y;
               c ← list_ascii_of_string row !! Z.to_nat x;
               Some (replace_G c)).
Proof.
  intros Hy Hx. rewrite grid_get_nonneg by done. unfold from_blueprint. simpl.
  destruct (decide (Z.to_nat y < length blueprint)%nat) as [Hlt|Hge].
  - rewrite lookup_seq_lt by done. simpl. rewrite lookup_map_seq_0.
    rewrite list_lookup_fmap.
    destruct (blueprint !! Z.to_nat y) as [row|]; simpl; [|done].
    unfold blueprint_row. rewrite list_lookup_fmap.
    by destruct (list_ascii_of_string row !! Z.to_nat x).
  - rewrite lookup_seq_ge by lia. simpl.
    rewrite lookup_ge_None_2 by lia. done.
Qed.

(** A maze built by [from_blueprint] has the markers of the blueprint at
    the same places, except that it has no ["G"]: the ghost-house markers
    read as open cells.  This holds through every index Python accepts,
    the negative ones included. *)
Theorem from_blueprint_markers (blueprint : list string) :
  (∀ y x, 0 ≤ y → 0 ≤ x →
     grid_get (from_blueprint blueprint) y x =
       of_option (row ← blueprint !! Z.to_nat y;
                  c ← list_ascii_of_string row !! Z.to_nat x;
                  Some (if decide (c = "G"%char) then " "%char else c))) ∧
  (∀ y x v, grid_get (from_blueprint blueprint) y x = Ok v → v ≠ "G"%char).
Proof.
  split; [apply from_blueprint_get|].
  intros y x v (r & row & k & _ & Hrow & _ & Hv)%grid_get_outcome.
  apply list_elem_of_lookup_2 in Hv.
  unfold from_blueprint in Hrow. cbn [rows] in Hrow.
  rewrite lookup_map_seq_0 in Hrow.
  apply list_lookup_fmap_Some in Hrow as (s & -> & _).
  unfold blueprint_row in Hv. apply list_elem_of_fmap in Hv as (c & -> & _).
  unfold replace_G. by case_decide.
Qed.

(** What [consume_tile] does, cell by cell; the rows may be aliased. *)
Lemma consume_tile_outcome (maze maze' : Maze) (x y : Z) (v : ascii) :
  consume_tile maze x y = Ok (v, maze') →
  ∃ r row k,
    py_index (grid maze) y = Ok r ∧ rows maze !! r = Some row ∧
    py_norm_index row x = Some k ∧ row !! k = Some v ∧
    maze' = (if is_pellet v
             then {| grid := grid maze;
                     rows := <[r := <[k := " "%char]> row]> (rows maze) |}
             else maze).
Proof.
  unfold consume_tile, is_pellet.
  destruct (py_index (grid maze) y) as [r| |]; simpl; try done.
  destruct (rows maze !! r) as [row|] eqn:Hrow; simpl; [|done].
  destruct (py_norm_index row x) as [k|] eqn:Hk; simpl; [|done].
  destruct (row !! k) as [v'|] eqn:Hv; simpl; [|done].
  intros H. exists r, row, k.
  destruct (decide (v' = "."%char ∨ v' = "o"%char)) as [Hp|Hp];
    injection H as -> <-.
  - rewrite bool_decide_eq_true_2 by done. done.
  - rewrite bool_decide_eq_false_2 by done. done.
Qed.

Lemma reset_pellet_outcome (maze maze' : Maze) (x y : Z) :
  reset_pellet maze x y = Ok maze' →
  ∃ r row k v,
    py_index (grid maze) y = Ok r ∧ rows maze !! r = Some row ∧
    py_norm_index row x = Some k ∧ row !! k = Some v ∧
    maze' = (if decide (v = " "%char)
             then {| grid := grid maze;
                     rows := <[r := <[k := "."%char]> row]> (rows maze) |}
             else maze).
Proof.
  unfold reset_pellet.
  destruct (py_index (grid maze) y) as [r| |]; simpl; try done.
  destruct (rows maze !! r) as [row|] eqn:Hrow; simpl; [|done].
  destruct (py_norm_index row x) as [k|] eqn:Hk; simpl; [|done].
  destruct (row !! k) as [v'|] eqn:Hv; simpl; [|done].
  intros H. exists r, row, k, v'.
  destruct (decide (v' = " "%char)); injection H as <-; done.
Qed.

(** A second [consume_tile] at the same indices finds the cell empty of
    pellets: it returns what the first call left there and changes
    nothing. *)
Theorem consume_tile_twice (maze maze' : Maze) (x y : Z) (v : ascii) :
  consume_tile maze x y = Ok (v, maze') →
  consume_tile maze' x y =
    Ok (if is_pellet v then " "%char else v, maze').
Proof.
  intros (r & row & k & Hr & Hrow & Hk & Hv & ->)%consume_tile_outcome.
  destruct (is_pellet v) eqn:Hp.
  - unfold consume_tile. cbn [grid rows]. rewrite Hr. cbn [rbind].
    rewrite lookup_insert_eq. cbn [rbind of_option].
    assert (py_norm_index (<[k := " "%char]> row) x = Some k) as ->.
    { unfold py_norm_index in *. by rewrite length_insert. }
    cbn [rbind of_option].
    rewrite list_lookup_insert_eq by (by eapply lookup_lt_Some).
    cbn [rbind of_option].
    destruct (decide (" "%char = "."%char ∨ " "%char = "o"%char)) as [[|]|];
      done.
  - unfold consume_tile. rewrite Hr. cbn [rbind]. rewrite Hrow.
    cbn [rbind of_option]. rewrite Hk. cbn [rbind of_option]. rewrite Hv.
    cbn [rbind of_option].
    unfold is_pellet in Hp. apply bool_decide_eq_false in Hp.
    by rewrite decide_False.
Qed.

Lemma consume_tile_twice_witness :
  ∃ maze',
    consume_tile the_maze 1 3 = Ok ("o"%char, maze') ∧
    consume_tile maze' 1 3 = Ok (" "%char, maze').
Proof.
  destruct (consume_tile the_maze 1 3) as [[v maze']| |] eqn:Hfirst;
    [|vm_compute in Hfirst; discriminate..].
  assert (v = "o"%char) as ->.
  { vm_compute in Hfirst. by injection Hfirst as <- _. }
  exists maze'. split; [reflexivity|].
  apply (consume_tile_twice the_maze maze' 1 3 "o"%char Hfirst).
Defined.

(** [reset_pellet] and [consume_tile] undo each other on an open cell:
    putting a pellet on it and consuming the pellet returns ["."] and
    gives the maze back as it was. *)
Theorem reset_then_consume (maze maze1 : Maze) (x y : Z) :
  grid_get maze y x = Ok " "%char →
  reset_pellet maze x y = Ok maze1 →
  consume_tile maze1 x y = Ok ("."%char, maze).
Proof.
  intros (r & row & k & Hr & Hrow & Hk & Hv)%grid_get_outcome Hreset.
  apply reset_pellet_outcome in Hreset
    as (r' & row' & k' & v' & Hr' & Hrow' & Hk' & Hv' & ->).
  assert (r' = r) as -> by congruence.
  assert (row' = row) as -> by congruence.
  assert (k' = k) as -> by congruence.
  assert (v' = " "%char) as -> by congruence.
  rewrite decide_True by done.
  unfold consume_tile. cbn [grid rows]. rewrite Hr. cbn [rbind].
  rewrite lookup_insert_eq. cbn [rbind of_option].
  assert (py_norm_index (<[k := "."%char]> row) x = Some k) as ->.
  { unfold py_norm_index in *. by rewrite length_insert. }
  cbn [rbind of_option].
  rewrite list_lookup_insert_eq by (by eapply lookup_lt_Some).
  cbn [rbind of_option].
  rewrite decide_True by (by left). do 2 f_equal.
  destruct maze as [g rs]. cbn [grid rows] in *. f_equal.
  rewrite insert_insert_eq, list_insert_insert_eq.
  rewrite (list_insert_id row k " "%char) by done.
  by apply insert_id.
Qed.

Lemma reset_then_consume_witness :
  ∃ maze1,
    reset_pellet the_maze 13 23 = Ok maze1 ∧
    grid_get maze1 23 13 = Ok "."%char ∧
    consume_tile maze1 13 23 = Ok ("."%char, the_maze).
Proof.
  destruct (reset_pellet the_maze 13 23) as [maze1| |] eqn:Hreset;
    [|vm_compute in Hreset; discriminate..].
  exists maze1. split; [reflexivity|]. split.
  { vm_compute in Hreset. injection Hreset as <-. by vm_compute. }
  apply (reset_then_consume the_maze maze1 13 23).
  - vm_compute. reflexivity.
  - exact Hreset.
Defined.

(** *** Scanning the grid *)

Lemma elem_of_enumerate_from {A} (i : nat) (l : list A) (j : nat) (a : A) :
  (j, a) ∈ enumerate_from i l ↔ (i ≤ j)%nat ∧ l !! (j - i)%nat = Some a.
Proof.
  revert i. induction l as [|b l IH]; intros i; simpl.
  - split; [by intros ?%not_elem_of_nil|by intros [_ ?]].
  - rewrite elem_of_cons, IH. split.
    + intros [[= -> ->]|[Hle Hl]].
      * split; [lia|]. by rewrite Nat.sub_diag.
      * split; [lia|]. by replace (j - i)%nat with (S (j - S i)) by lia.
    + intros [Hle Hl]. destruct (decide (j = i)) as [->|Hne].
      * left. rewrite Nat.sub_diag in Hl. simpl in Hl. congruence.
      * right. split; [lia|].
        by replace (j - i)%nat with (S (j - S i)) in Hl by lia.
Qed.

Lemma elem_of_enumerate {A} (l : list A) (j : nat) (a : A) :
  (j, a) ∈ enumerate l ↔ l !! j = Some a.
Proof.
  unfold enumerate. rewrite elem_of_enumerate_from, Nat.sub_0_r.
  split; [by intros [_ ?]|]. intros ?. split; [lia|done].
Qed.

Lemma NoDup_enumerate_from {A} (i : nat) (l : list A) :
  NoDup (enumerate_from i l).
Proof.
  revert i. induction l as [|b l IH]; intros i; simpl; constructor; [|done].
  rewrite elem_of_enumerate_from. lia.
Qed.

Lemma elem_of_scan (test : ascii → bool) (rws : list (list ascii)) (c : GridPos) :
  c ∈ scan test rws ↔
  ∃ nx ny row v,
    c = (Z.of_nat nx, Z.of_nat ny) ∧ rws !! ny = Some row ∧
    row !! nx = Some v ∧ test v = true.
Proof.
  unfold scan. rewrite list_elem_of_bind. split.
  - intros ([ny row] & Hin & Hrow%elem_of_enumerate).
    apply list_elem_of_bind in Hin as ([nx v] & Hin & Hv%elem_of_enumerate).
    simpl in *. destruct (test v) eqn:Htest; [|by apply not_elem_of_nil in Hin].
    apply list_elem_of_singleton in Hin as ->. by exists nx, ny, row, v.
  - intros (nx & ny & row & v & -> & Hrow & Hv & Htest).
    exists (ny, row). split; [|by apply elem_of_enumerate].
    apply list_elem_of_bind. exists (nx, v).
    split; [|by apply elem_of_enumerate]. simpl. rewrite Htest.
    by apply list_elem_of_singleton.
Qed.

Lemma NoDup_scan (test : ascii → bool) (rws : list (list ascii)) :
  NoDup (scan test rws).
Proof.
  unfold scan. apply NoDup_bind; [| |apply NoDup_enumerate_from].
  - intros [y1 row1] [y2 row2] c Hr1%elem_of_enumerate Hr2%elem_of_enumerate H1 H2.
    apply list_elem_of_bind in H1 as ([x1 v1] & H1 & _).
    apply list_elem_of_bind in H2 as ([x2 v2] & H2 & _).
    simpl in *.
    destruct (test v1); [|by apply not_elem_of_nil in H1].
    destruct (test v2); [|by apply not_elem_of_nil in H2].
    apply list_elem_of_singleton in H1 as ->.
    apply list_elem_of_singleton in H2 as [= _ Hy%Nat2Z.inj]. subst y2.
    congruence.
  - intros [y row] _. simpl.
    apply NoDup_bind; [| |apply NoDup_enumerate_from].
    + intros [x1 v1] [x2 v2] c Hv1%elem_of_enumerate Hv2%elem_of_enumerate H1 H2.
      simpl in *.
      destruct (test v1); [|by apply not_elem_of_nil in H1].
      destruct (test v2); [|by apply not_elem_of_nil in H2].
      apply list_elem_of_singleton in H1 as ->.
      apply list_elem_of_singleton in H2 as [= Hx%Nat2Z.inj]. subst x2.
      congruence.
    + intros [x v] _. simpl. destruct (test v); [apply NoDup_singleton|constructor].
Qed.

Lemma rmapM_of_option_Ok {A B} (g : A → option B) (l : list A) (ys : list B) :
  rmapM (λ a, of_option (g a)) l = Ok ys → Some <$> ys = g <$> l.
Proof.
  revert ys. induction l as [|a l IH]; intros ys; simpl.
  - by intros [= <-].
  - destruct (g a) as [b|] eqn:Hga; simpl; [|done].
    destruct (rmapM _ l) as [bs| |]; simpl; try done.
    intros [= <-]. rewrite !fmap_cons, (IH bs eq_refl). reflexivity.
Qed.

Lemma rmapM_of_option_is_Some {A B} (g : A → option B) (l : list A) :
  Forall (λ a, is_Some (g a)) l → ∃ ys, rmapM (λ a, of_option (g a)) l = Ok ys.
Proof.
  induction 1 as [|a l [b Hb] _ [bs IH]]; simpl; [by eexists|].
  rewrite Hb. simpl. rewrite IH. simpl. by eexists.
Qed.

Lemma rmapM_of_option_Forall {A B} (g : A → option B) (l : list A) (ys : list B) :
  rmapM (λ a, of_option (g a)) l = Ok ys → Forall (λ a, is_Some (g a)) l.
Proof.
  revert ys. induction l as [|a l IH]; intros ys; simpl; [constructor|].
  destruct (g a) as [b|] eqn:Hga; simpl; [|done].
  destruct (rmapM _ l) as [bs| |]; simpl; try done.
  intros _. constructor; [by rewrite Hga|by eapply IH].
Qed.

Lemma maze_rows_lookup (maze : Maze) (rws : list (list ascii)) (i : nat) :
  maze_rows maze = Ok rws →
  rws !! i = (r ← grid maze !! i; rows maze !! r).
Proof.
  intros H%rmapM_of_option_Ok.
  assert ((Some <$> rws) !! i = ((λ r, rows maze !! r) <$> grid maze) !! i) as Hi
    by (by rewrite H).
  rewrite !list_lookup_fmap in Hi.
  destruct (grid maze !! i) as [r|]; simpl in *.
  - destruct (rws !! i); simpl in *; congruence.
  - by destruct (rws !! i).
Qed.

Lemma maze_rows_get (maze : Maze) (rws : list (list ascii)) (y x : Z) :
  maze_rows maze = Ok rws → 0 ≤ y → 0 ≤ x →
  grid_get maze y x =
    of_option (row ← rws !! Z.to_nat y; row !! Z.to_nat x).
Proof.
  intros Hrows Hy Hx. rewrite grid_get_nonneg by done.
  rewrite (maze_rows_lookup maze rws _ Hrows).
  by destruct (grid maze !! Z.to_nat y).
Qed.

Lemma elem_of_maze_scan (test : ascii → bool) (maze : Maze)
    (rws : list (list ascii)) (x y : Z) :
  maze_rows maze = Ok rws →
  (x, y) ∈ scan test rws ↔
  0 ≤ x ∧ 0 ≤ y ∧ ∃ v, grid_get maze y x = Ok v ∧ test v = true.
Proof.
  intros Hrows. rewrite elem_of_scan. split.
  - intros (nx & ny & row & v & [= -> ->] & Hrow & Hv & Htest).
    split; [lia|]. split; [lia|]. exists v. split; [|done].
    rewrite (maze_rows_get maze rws) by (done || lia).
    rewrite !Nat2Z.id, Hrow. simpl. by rewrite Hv.
  - intros (Hx & Hy & v & Hget & Htest).
    rewrite (maze_rows_get maze rws) in Hget by done.
    destruct (rws !! Z.to_nat y) as [row|] eqn:Hrow; simpl in Hget; [|done].
    destruct (row !! Z.to_nat x) as [v'|] eqn:Hv; simpl in Hget; [|done].
    injection Hget as ->.
    exists (Z.to_nat x), (Z.to_nat y), row, v.
    split; [f_equal; lia|done].
Qed.

(** [pellets] (and so [remaining_pellets]) yields every cell that holds a
    pellet or a power pellet, and [walls] every wall cell, each cell
    once and no other cell. *)
Theorem pellets_and_walls_cells (maze : Maze) :
  (∀ l, pellets maze = Ok l →
     NoDup l ∧
     ∀ x y, (x, y) ∈ l ↔
            0 ≤ x ∧ 0 ≤ y ∧
            (grid_get maze y x = Ok "."%char ∨ grid_get maze y x = Ok "o"%char)) ∧
  (∀ l, walls maze = Ok l →
     NoDup l ∧
     ∀ x y, (x, y) ∈ l ↔ 0 ≤ x ∧ 0 ≤ y ∧ grid_get maze y x = Ok "X"%char).
Proof.
  split; intros l; unfold pellets, walls;
    destruct (maze_rows maze) as [rws| |] eqn:Hrows; simpl; try done;
    intros [= <-]; (split; [apply NoDup_scan|]); intros x y;
    rewrite (elem_of_maze_scan _ maze rws x y Hrows); unfold is_pellet, is_wall.
  - split; intros (Hx & Hy & H); (split; [done|]); (split; [done|]).
    + destruct H as (v & Hv & [->| ->]%bool_decide_eq_true); auto.
    + destruct H as [H|H]; eexists; (split; [exact H|]);
        apply bool_decide_eq_true; auto.
  - split; intros (Hx & Hy & H); (split; [done|]); (split; [done|]).
    + by destruct H as (v & Hv & ->%bool_decide_eq_true).
    + eexists. split; [exact H|]. by apply bool_decide_eq_true.
Qed.

Lemma rmapM_of_option_default {A B} (g : A → option B) (l : list A)
    (ys : list B) (d : B) :
  rmapM (λ a, of_option (g a)) l = Ok ys → ys = (λ a, default d (g a)) <$> l.
Proof.
  revert ys. induction l as [|a l IH]; intros ys; simpl.
  - by intros [= <-].
  - destruct (g a) as [b|] eqn:Hga; simpl; [|done].
    destruct (rmapM _ l) as [bs| |]; simpl; try done.
    intros [= <-]. f_equal. by apply IH.
Qed.

(** The rows of a maze after one of its row objects has been rewritten. *)
Lemma maze_rows_rewritten (maze : Maze) (r : nat) (row' : list ascii)
    (rws : list (list ascii)) :
  is_Some (rows maze !! r) →
  maze_rows maze = Ok rws →
  rws = (λ r', default [] (rows maze !! r')) <$> grid maze ∧
  maze_rows {| grid := grid maze; rows := <[r := row']> (rows maze) |}
  = Ok ((λ r', if decide (r' = r) then row'
               else default [] (rows maze !! r')) <$> grid maze).
Proof.
  intros Hr Hrows. split; [by apply rmapM_of_option_default|].
  unfold maze_rows in *. cbn [grid rows].
  destruct (rmapM_of_option_is_Some (λ r', <[r := row']> (rows maze) !! r')
              (grid maze)) as [rws' Hrws'].
  { apply rmapM_of_option_Forall in Hrows.
    eapply Forall_impl; [exact Hrows|]. intros r' Hr'.
    apply lookup_insert_is_Some. destruct (decide (r = r')); auto. }
  rewrite Hrws'. f_equal.
  rewrite (rmapM_of_option_default _ _ _ [] Hrws').
  apply list_fmap_ext. intros _ r' _. destruct (decide (r' = r)) as [->|Hne].
  - by rewrite lookup_insert_eq.
  - by rewrite lookup_insert_ne.
Qed.

Lemma row_scan_ext (test : ascii → bool) (row row' : list ascii) (j : nat)
    (y : Z) :
  test <$> row = test <$> row' →
  (xvalue ← enumerate_from j row;
   if test xvalue.2 then [(Z.of_nat xvalue.1, y)] else [])
  = (xvalue ← enumerate_from j row';
     if test xvalue.2 then [(Z.of_nat xvalue.1, y)] else []).
Proof.
  revert row' j. induction row as [|v row IH]; intros [|v' row'] j H;
    try done.
  rewrite !fmap_cons in H. injection H as Hv H. cbn [enumerate_from].
  rewrite !bind_cons. cbn [fst snd]. rewrite Hv. f_equal. by apply IH.
Qed.

Lemma scan_ext_from (test : ascii → bool) (rws rws' : list (list ascii))
    (i : nat) :
  Forall2 (λ row row', test <$> row = test <$> row') rws rws' →
  (yrow ← enumerate_from i rws;
   xvalue ← enumerate yrow.2;
   if test xvalue.2 then [(Z.of_nat xvalue.1, Z.of_nat yrow.1)] else [])
  = (yrow ← enumerate_from i rws';
     xvalue ← enumerate yrow.2;
     if test xvalue.2 then [(Z.of_nat xvalue.1, Z.of_nat yrow.1)] else []).
Proof.
  intros H. revert i. induction H as [|row row' rws rws' Hrow _ IH]; intros i.
  - done.
  - cbn [enumerate_from]. rewrite !bind_cons. cbn [fst snd].
    f_equal; [|apply IH]. by apply row_scan_ext.
Qed.

Lemma scan_ext (test : ascii → bool) (rws rws' : list (list ascii)) :
  Forall2 (λ row row', test <$> row = test <$> row') rws rws' →
  scan test rws = scan test rws'.
Proof. apply scan_ext_from. Qed.

Lemma scan_rewritten (test : ascii → bool) (maze : Maze) (r : nat)
    (row row' : list ascii) :
  rows maze !! r = Some row →
  test <$> row' = test <$> row →
  scan test ((λ r', if decide (r' = r) then row'
                    else default [] (rows maze !! r')) <$> grid maze)
  = scan test ((λ r', default [] (rows maze !! r')) <$> grid maze).
Proof.
  intros Hrow Htest. apply scan_ext. apply Forall2_fmap, Forall_Forall2_diag.
  apply Forall_forall. intros r' _. destruct (decide (r' = r)) as [->|]; [|done].
  by rewrite Hrow.
Qed.

(** Neither [consume_tile] nor [reset_pellet] changes what [walls]
    yields, whichever indices they are given and even when rows of the
    grid are aliased. *)
Theorem walls_unchanged (maze maze' : Maze) (x y : Z) (ws : list GridPos) :
  walls maze = Ok ws →
  (∃ v, consume_tile maze x y = Ok (v, maze')) ∨ reset_pellet maze x y = Ok maze' →
  walls maze' = Ok ws.
Proof.
  intros Hws H.
  assert (maze' = maze ∨
          ∃ r row k v c,
            rows maze !! r = Some row ∧ row !! k = Some v ∧
            is_wall v = false ∧ is_wall c = false ∧
            maze' = {| grid := grid maze;
                       rows := <[r := <[k := c]> row]> (rows maze) |})
    as [->|(r & row & k & v & c & Hrow & Hv & Hnw & Hcw & ->)].
  { destruct H as [[v H]|H].
    - apply consume_tile_outcome in H as (r & row & k & _ & Hrow & _ & Hv & ->).
      destruct (is_pellet v) eqn:Hp; [|by left].
      right. exists r, row, k, v, " "%char. split; [done|]. split; [done|].
      split; [|done].
      unfold is_pellet in Hp. apply bool_decide_eq_true in Hp.
      unfold is_wall. apply bool_decide_eq_false. by destruct Hp as [->| ->].
    - apply reset_pellet_outcome in H as (r & row & k & v & _ & Hrow & _ & Hv & ->).
      destruct (decide (v = " "%char)) as [->|Hne]; [|by left].
      right. by exists r, row, k, " "%char, "."%char. }
  { done. }
  unfold walls in *.
  destruct (maze_rows maze) as [rws| |] eqn:Hrows; simpl in Hws; try done.
  injection Hws as <-.
  destruct (maze_rows_rewritten maze r (<[k := c]> row) rws) as [-> ->];
    [by eexists|done|].
  simpl. f_equal. apply (scan_rewritten is_wall maze r row); [done|].
  rewrite list_fmap_insert, Hcw, <- Hnw. apply list_insert_id.
  by rewrite list_lookup_fmap, Hv.
Qed.

Lemma walls_unchanged_witness :
  ∃ maze' ws,
    consume_tile the_maze 1 1 = Ok ("."%char, maze') ∧
    walls the_maze = Ok ws ∧ walls maze' = Ok ws.
Proof.
  destruct (consume_tile the_maze 1 1) as [[v maze']| |] eqn:Hc;
    [|vm_compute in Hc; discriminate..].
  assert (v = "."%char) as ->.
  { vm_compute in Hc. by injection Hc as <- _. }
  destruct (walls the_maze) as [ws| |] eqn:Hws;
    [|vm_compute in Hws; discriminate..].
  exists maze', ws. split; [reflexivity|]. split; [reflexivity|].
  apply (walls_unchanged the_maze maze' 1 1 ws Hws). left. by exists "."%char.
Defined.

Lemma consume_tile_removes_pellet (maze maze' : Maze) (x y : Z)
    (v : ascii) (before : list GridPos) :
  NoDup (grid maze) →
  0 ≤ x → 0 ≤ y →
  consume_tile maze x y = Ok (v, maze') →
  is_pellet v = true →
  remaining_pellets maze = Ok before →
  ∃ after,
    remaining_pellets maze' = Ok after ∧
    before ≡ₚ (x, y) :: after ∧
    length after = pred (length before).
Proof.
  intros Hdistinct Hx Hy Hconsume Hp Hbefore.
  apply consume_tile_outcome in Hconsume
    as (r & row & k & Hr & Hrow & Hk & Hv & ->).
  rewrite Hp. rewrite py_index_nonneg in Hr by done.
  destruct (grid maze !! Z.to_nat y) as [r0|] eqn:HY; simpl in Hr; [|done].
  injection Hr as ->.
  rewrite py_norm_index_nonneg in Hk by done.
  destruct (decide (x < Z.of_nat (length row))); [|done]. injection Hk as <-.
  unfold remaining_pellets, pellets in *.
  destruct (maze_rows maze) as [rws| |] eqn:Hrows; simpl in Hbefore; try done.
  injection Hbefore as <-.
  destruct (maze_rows_rewritten maze r (<[Z.to_nat x := " "%char]> row) rws)
    as [Hrws ->]; [by eexists|done|].
  simpl. eexists. split; [done|].
  set (rws' := (λ r', if decide (r' = r) then <[Z.to_nat x := " "%char]> row
                      else default [] (rows maze !! r')) <$> grid maze).
  assert (∀ c, c ∈ scan is_pellet rws ↔
               c = (x, y) ∨ c ∈ scan is_pellet rws') as Hmem.
  { intros c. rewrite !elem_of_scan. split.
    - intros (nx & ny & row1 & v1 & -> & Hrow1 & Hv1 & Ht1).
      destruct (decide (ny = Z.to_nat y ∧ nx = Z.to_nat x)) as [[-> ->]|Hne].
      + left. f_equal; lia.
      + right. rewrite Hrws, list_lookup_fmap in Hrow1.
        destruct (grid maze !! ny) as [r1|] eqn:Hny; simpl in Hrow1; [|done].
        injection Hrow1 as <-.
        destruct (decide (r1 = r)) as [->|Hr1].
        * assert (ny = Z.to_nat y) as -> by (by eapply NoDup_lookup).
          rewrite Hrow in Hv1. simpl in Hv1.
          exists nx, (Z.to_nat y), (<[Z.to_nat x := " "%char]> row), v1.
          split; [done|]. split.
          { unfold rws'. rewrite list_lookup_fmap, HY. simpl.
            by rewrite decide_True. }
          split; [|done]. rewrite list_lookup_insert_ne; [done|].
          intros Heq. apply Hne. split; [done|lia].
        * exists nx, ny, (default [] (rows maze !! r1)), v1.
          split; [done|]. split; [|done].
          unfold rws'. rewrite list_lookup_fmap, Hny. simpl.
          by rewrite decide_False.
    - intros [->|(nx & ny & row1 & v1 & -> & Hrow1 & Hv1 & Ht1)].
      + exists (Z.to_nat x), (Z.to_nat y), row, v.
        split; [f_equal; lia|]. split; [|done].
        by rewrite Hrws, list_lookup_fmap, HY; simpl; rewrite Hrow.
      + unfold rws' in Hrow1. rewrite list_lookup_fmap in Hrow1.
        destruct (grid maze !! ny) as [r1|] eqn:Hny; simpl in Hrow1; [|done].
        injection Hrow1 as <-.
        destruct (decide (r1 = r)) as [->|Hr1].
        * destruct (decide (nx = Z.to_nat x)) as [->|Hnx].
          { rewrite list_lookup_insert_eq in Hv1 by (by eapply lookup_lt_Some).
            injection Hv1 as <-. done. }
          rewrite list_lookup_insert_ne in Hv1 by done.
          exists nx, ny, row, v1. split; [done|]. split; [|done].
          by rewrite Hrws, list_lookup_fmap, Hny; simpl; rewrite Hrow.
        * exists nx, ny, (default [] (rows maze !! r1)), v1.
          split; [done|]. split; [|done].
          by rewrite Hrws, list_lookup_fmap, Hny. }
  assert ((x, y) ∉ scan is_pellet rws') as Hnot.
  { rewrite elem_of_scan.
    intros (nx & ny & row1 & v1 & [= Hnx Hny] & Hrow1 & Hv1 & Ht1).
    assert (nx = Z.to_nat x) as -> by lia.
    assert (ny = Z.to_nat y) as -> by lia.
    unfold rws' in Hrow1. rewrite list_lookup_fmap, HY in Hrow1.
    simpl in Hrow1. rewrite decide_True in Hrow1 by done.
    injection Hrow1 as <-.
    rewrite list_lookup_insert_eq in Hv1 by (by eapply lookup_lt_Some).
    injection Hv1 as <-. done. }
  assert (scan is_pellet rws ≡ₚ (x, y) :: scan is_pellet rws') as Hperm.
  { apply NoDup_Permutation; [apply NoDup_scan| |].
    - constructor; [done|apply NoDup_scan].
    - intros c. rewrite Hmem, elem_of_cons. done. }
  split; [done|]. by rewrite Hperm.
Qed.

(** On a maze whose rows are distinct objects, consuming the pellet or
    power pellet of an in-bounds cell removes that cell, and only that
    cell, from [remaining_pellets]. *)
Theorem consume_tile_remaining_pellets (maze maze' : Maze) (x y : Z)
    (v : ascii) (before : list GridPos) :
  NoDup (grid maze) →
  0 ≤ x → 0 ≤ y →
  consume_tile maze x y = Ok (v, maze') →
  is_pellet v = true →
  remaining_pellets maze = Ok before →
  ∃ after,
    remaining_pellets maze' = Ok after ∧
    before ≡ₚ (x, y) :: after ∧
    length after = pred (length before).
Proof. apply consume_tile_removes_pellet. Qed.

Lemma consume_tile_remaining_pellets_witness :
  ∃ maze' before after,
    consume_tile the_maze 1 1 = Ok ("."%char, maze') ∧
    remaining_pellets the_maze = Ok before ∧
    remaining_pellets maze' = Ok after ∧
    before ≡ₚ (1, 1) :: after ∧
    length after = pred (length before).
Proof.
  destruct (consume_tile the_maze 1 1) as [[v maze']| |] eqn:Hc;
    [|vm_compute in Hc; discriminate..].
  assert (v = "."%char) as ->.
  { vm_compute in Hc. by injection Hc as <- _. }
  destruct (remaining_pellets the_maze) as [before| |] eqn:Hb;
    [|vm_compute in Hb; discriminate..].
  destruct (consume_tile_remaining_pellets the_maze maze' 1 1 "."%char before)
    as (after & Ha & Hperm & Hlen);
    [apply from_blueprint_rows_distinct|lia|lia|exact Hc|reflexivity|exact Hb|].
  exists maze', before, after.
  exact (conj eq_refl (conj eq_refl (conj Ha (conj Hperm Hlen)))).
Defined.

(** ** Tiles, cells and pixels *)

Lemma py_int_inject_Z (z : Z) : py_int (inject_Z z) = z.
Proof. unfold py_int, inject_Z. simpl. apply Z.quot_1_r. Qed.

Lemma from_blueprint_rectangular (blueprint : list string) (width : nat) :
  Forall (λ row, String.length row = width) blueprint →
  rectangular (from_blueprint blueprint).
Proof.
  intros Hall. exists width. unfold from_blueprint. cbn [grid rows].
  apply Forall_forall. intros r [i [Hi Hr]%lookup_seq]%list_elem_of_lookup_1.
  simpl in Hi. subst i.
  destruct (lookup_lt_is_Some_2 blueprint r Hr) as [s Hs].
  exists (blueprint_row s). split.
  - rewrite lookup_map_seq_0, list_lookup_fmap. by rewrite Hs.
  - rewrite Forall_forall in Hall. unfold blueprint_row.
    rewrite length_fmap. rewrite <- (Hall s) by (by eapply list_elem_of_lookup_2).
    clear. induction s as [|c s IH]; simpl; congruence.
Qed.

Lemma the_maze_rectangular : rectangular the_maze.
Proof.
  apply (from_blueprint_rectangular MAZE_BLUEPRINT 28).
  unfold MAZE_BLUEPRINT. repeat (constructor; [reflexivity|]). constructor.
Qed.

Lemma valid_tile_integer (maze : Maze) (x y : Z) :
  rectangular maze →
  valid_tile maze (Vector2_of x y)
  = Ok (bool_decide (0 ≤ x ∧ 0 ≤ y) && wall_free maze (x, y)).
Proof.
  intros [width Hrect]. unfold valid_tile, Vector2_of. cbn [vx vy].
  rewrite !py_int_inject_Z. unfold wall_free. cbn [fst snd].
  destruct (decide (x < 0 ∨ y < 0 ∨ y >= Z.of_nat (length (grid maze))))
    as [Hout|Hin].
  - destruct (decide (0 ≤ x ∧ 0 ≤ y)) as [[Hx Hy]|Hneg].
    + rewrite bool_decide_eq_true_2 by done. simpl.
      rewrite grid_get_nonneg by done.
      rewrite lookup_ge_None_2 by lia. done.
    + by rewrite bool_decide_eq_false_2.
  - assert (0 ≤ x ∧ 0 ≤ y ∧ y < Z.of_nat (length (grid maze))) as (Hx & Hy & Hlen)
      by lia.
    rewrite bool_decide_eq_true_2 by done. simpl.
    rewrite Forall_forall in Hrect.
    destruct (lookup_lt_is_Some_2 (grid maze) 0) as [r0 Hr0]; [lia|].
    destruct (lookup_lt_is_Some_2 (grid maze) (Z.to_nat y)) as [r Hr]; [lia|].
    destruct (Hrect r0) as (row0 & Hrow0 & Hlen0);
      [by eapply list_elem_of_lookup_2|].
    destruct (Hrect r) as (row & Hrow & Hlenr);
      [by eapply list_elem_of_lookup_2|].
    unfold grid_row. rewrite py_index_nonneg by done.
    change (Z.to_nat 0) with 0%nat. rewrite Hr0. cbn [of_option rbind].
    rewrite Hrow0. cbn [of_option rbind].
    rewrite grid_get_nonneg by done. rewrite Hr. simpl. rewrite Hrow. simpl.
    destruct (decide (x >= Z.of_nat (length row0))) as [Hwide|Hnarrow].
    + rewrite lookup_ge_None_2 by lia. done.
    + destruct (lookup_lt_is_Some_2 row (Z.to_nat x)) as [v Hv]; [lia|].
      rewrite Hv. done.
Qed.

(** On a maze all of whose rows have the same length, [valid_tile] never
    raises: at a cell with integer coordinates it is [True] exactly when
    both coordinates are non-negative and the grid holds a marker other
    than a wall there, and [False] for every cell off the grid. *)
Theorem valid_tile_cells (maze : Maze) (x y : Z) :
  rectangular maze →
  valid_tile maze (Vector2_of x y)
  = Ok (bool_decide (0 ≤ x ∧ 0 ≤ y) && wall_free maze (x, y)).
Proof. apply valid_tile_integer. Qed.

Lemma valid_tile_cells_witness :
  valid_tile the_maze (Vector2_of 0 14) = Ok true ∧
  valid_tile the_maze (Vector2_of 0 0) = Ok false ∧
  valid_tile the_maze (Vector2_of 28 14) = Ok false ∧
  valid_tile the_maze (Vector2_of 0 30) = Ok false ∧
  valid_tile the_maze (Vector2_of (-1) 14) = Ok false.
Proof.
  split; [|split; [|split; [|split]]];
    (etrans; [apply (valid_tile_cells the_maze _ _ the_maze_rectangular)|]);
    by vm_compute.
Defined.

Lemma Qltb_inject_Z (a b : Z) : Qltb (inject_Z a) (inject_Z b) = bool_decide (a < b).
Proof.
  destruct (decide (a < b)) as [H|H].
  - rewrite bool_decide_eq_true_2 by done. apply Qltb_lt. by rewrite <- Zlt_Qlt.
  - rewrite bool_decide_eq_false_2 by done. apply Qltb_ge.
    rewrite <- Zle_Qle. lia.
Qed.

Lemma Qle_bool_inject_Z (a b : Z) :
  Qle_bool (inject_Z a) (inject_Z b) = bool_decide (a ≤ b).
Proof.
  destruct (decide (a ≤ b)) as [H|H].
  - rewrite bool_decide_eq_true_2 by done. apply Qle_bool_iff. by rewrite <- Zle_Qle.
  - rewrite bool_decide_eq_false_2 by done. apply not_true_iff_false.
    rewrite Qle_bool_iff, <- Zle_Qle. lia.
Qed.

Lemma portal_adjust_cell (x y : Z) :
  portal_adjust (Vector2_of x y)
  = Vector2_of (if decide (x < 0) then settings.GRID_WIDTH - 1
                else if decide (x >= settings.GRID_WIDTH) then 0 else x) y.
Proof.
  unfold portal_adjust, Vector2_of. cbn [vx vy].
  change (0%Q) with (inject_Z 0).
  rewrite Qltb_inject_Z, Qle_bool_inject_Z.
  destruct (decide (x < 0)).
  - by rewrite bool_decide_eq_true_2.
  - rewrite bool_decide_eq_false_2 by done.
    destruct (decide (x >= settings.GRID_WIDTH)).
    + rewrite bool_decide_eq_true_2 by lia. done.
    + rewrite bool_decide_eq_false_2 by lia. done.
Qed.

Lemma vadd_cells (a b c d : Z) :
  vadd (Vector2_of a b) (Vector2_of c d) = Vector2_of (a + c) (b + d).
Proof.
  unfold vadd, Vector2_of, Qplus, inject_Z. cbn [vx vy Qnum Qden].
  simpl. by rewrite !Z.mul_1_r.
Qed.

Lemma neighbour_at_valid_move (maze : Maze) (c n : GridPos) (d : Z * Z) :
  rectangular maze →
  neighbour_at maze c d = Ok (Some n) →
  portal_adjust (vadd (Vector2_of c.1 c.2) (Vector2_of d.1 d.2))
  = Vector2_of n.1 n.2 ∧
  valid_tile maze (Vector2_of n.1 n.2) = Ok true.
Proof.
  intros Hrect Hn.
  destruct (neighbour_at_Some _ _ _ _ Hn) as ([[Hx Hy] Hfree] & H2 & H1).
  split.
  - rewrite vadd_cells, portal_adjust_cell. by rewrite H1, H2.
  - rewrite (valid_tile_integer maze _ _ Hrect).
    rewrite bool_decide_eq_true_2 by lia.
    destruct n as [nx ny]. cbn [fst snd] in *. by rewrite Hfree.
Qed.

(** The movement model and the path-finder wrap single steps alike, and
    accept the same cells: where [neighbours] yields a cell for one of
    its four moves, [portal_adjust] takes the moved position to that cell
    and, on a maze all of whose rows have the same length, [valid_tile]
    accepts it. *)
Theorem neighbour_is_valid_move (maze : Maze) (c n : GridPos) (d : Z * Z) :
  rectangular maze →
  neighbour_at maze c d = Ok (Some n) →
  portal_adjust (vadd (Vector2_of c.1 c.2) (Vector2_of d.1 d.2))
  = Vector2_of n.1 n.2 ∧
  valid_tile maze (Vector2_of n.1 n.2) = Ok true.
Proof. apply neighbour_at_valid_move. Qed.

Lemma neighbour_is_valid_move_witness :
  portal_adjust (vadd (Vector2_of 0 14) (Vector2_of (-1) 0)) = Vector2_of 27 14 ∧
  valid_tile the_maze (Vector2_of 27 14) = Ok true.
Proof.
  apply (neighbour_is_valid_move the_maze (0, 14) (27, 14) (-1, 0)).
  - apply the_maze_rectangular.
  - by vm_compute.
Defined.

(** [pixel_to_grid] gives the cell whose tile holds the pixel. *)
Theorem pixel_to_grid_contains (p : Vector2) :
  ∃ x y : Z,
    pixel_to_grid p = Vector2_of x y ∧
    (inject_Z (settings.TILE_SIZE * x) <= vx p
     < inject_Z (settings.TILE_SIZE * (x + 1)))%Q ∧
    (inject_Z (settings.TILE_SIZE * y) <= vy p
     < inject_Z (settings.TILE_SIZE * (y + 1)))%Q.
Proof.
  assert (∀ q : Q,
            (inject_Z (settings.TILE_SIZE * floordiv q settings.TILE_SIZE) <= q
             < inject_Z (settings.TILE_SIZE
                         * (floordiv q settings.TILE_SIZE + 1)))%Q) as Hfloor.
  { intros q. unfold floordiv, settings.TILE_SIZE.
    pose proof (Qfloor_le (q / inject_Z 24)) as Hle.
    pose proof (Qlt_floor (q / inject_Z 24)) as Hlt.
    assert (q == (q / inject_Z 24) * inject_Z 24)%Q as Hq by (field; done).
    revert Hle Hlt Hq.
    generalize (q / inject_Z 24)%Q. intros t.
    generalize (Qfloor t). intros k.
    rewrite !inject_Z_mult, !inject_Z_plus.
    change (inject_Z 24) with (24 # 1). change (inject_Z 1) with 1%Q.
    generalize (inject_Z k). intros qk Hle Hlt Hq.
    split; lra. }
  exists (floordiv (vx p) settings.TILE_SIZE), (floordiv (vy p) settings.TILE_SIZE).
  split; [done|]. split; apply Hfloor.
Qed.

(** ** More on [update_position] *)

Lemma update_position_inside (maze : Maze) (e e' : Entity) (dt : Q) :
  valid_tile maze (grid_pos e) = Ok true →
  (inject_Z (- settings.TILE_SIZE) <= vx (integrate e dt))%Q →
  (vx (integrate e dt)
   <= inject_Z (settings.SCREEN_WIDTH + settings.TILE_SIZE))%Q →
  update_position maze e dt = Ok e' →
  valid_tile maze (grid_pos e') = Ok true.
Proof.
  intros Hvalid Hl Hr. unfold update_position.
  destruct (Qeq_bool (length_squared (direction e)) 0); [by intros [= <-]|].
  rewrite (screen_wrap_inside _ Hl Hr). cbn [orb].
  destruct (valid_tile maze (portal_adjust (pixel_to_grid (integrate e dt))))
    as [[|]| |] eqn:Hnew; cbn [rbind negb]; try done.
  - destruct (vector_ne _ _); by intros [= <-].
  - by intros [= <-].
Qed.

(** Without a wrap, an agent that stands on a valid tile stands on a
    valid tile after [update_position]: it never enters a wall and never
    leaves the grid. *)
Theorem update_position_stays_valid (maze : Maze) (e e' : Entity) (dt : Q) :
  valid_tile maze (grid_pos e) = Ok true →
  (inject_Z (- settings.TILE_SIZE) <= vx (integrate e dt))%Q →
  (vx (integrate e dt)
   <= inject_Z (settings.SCREEN_WIDTH + settings.TILE_SIZE))%Q →
  update_position maze e dt = Ok e' →
  valid_tile maze (grid_pos e') = Ok true.
Proof. apply update_position_inside. Qed.

Lemma update_position_stays_valid_witness :
  let e := {| grid_pos := Vector2_of 1 1;
              speed := 120;
              direction := Vector2_of 1 0;
              pixel_pos := grid_to_pixel (Vector2_of 1 1) |} in
  ∃ e', update_position the_maze e (1 # 8) = Ok e' ∧
        grid_pos e' = Vector2_of 2 1 ∧
        valid_tile the_maze (grid_pos e') = Ok true.
Proof.
  intros e.
  destruct (update_position the_maze e (1 # 8)) as [e'| |] eqn:Hrun;
    [|vm_compute in Hrun; discriminate..].
  exists e'. split; [reflexivity|]. split.
  { vm_compute in Hrun. injection Hrun as <-. reflexivity. }
  apply (update_position_stays_valid the_maze e e' (1 # 8)).
  - by vm_compute.
  - vm_compute. discriminate.
  - vm_compute. discriminate.
  - exact Hrun.
Defined.

(** A wrap is never checked against the maze: an agent whose step takes
    it more than a tile beyond the left bound is put on column 0 of the
    row its pixel is in, and one beyond the right bound on the last
    column, at the tile centre, whatever the grid holds there and without
    a look-up that could raise. *)
Theorem update_position_wrap_unchecked (maze : Maze) (e : Entity) (dt : Q) :
  ¬ ((vx (direction e) == 0)%Q ∧ (vy (direction e) == 0)%Q) →
  let row := floordiv (vy (integrate e dt)) settings.TILE_SIZE in
  let landed column :=
    Ok {| grid_pos := Vector2_of column row;
          speed := speed e;
          direction := direction e;
          pixel_pos := grid_to_pixel (Vector2_of column row) |} in
  ((vx (integrate e dt) < inject_Z (- settings.TILE_SIZE))%Q →
   update_position maze e dt = landed 0) ∧
  ((inject_Z (settings.SCREEN_WIDTH + settings.TILE_SIZE)
    < vx (integrate e dt))%Q →
   update_position maze e dt = landed (settings.GRID_WIDTH - 1)).
Proof.
  intros Hdir row landed.
  assert (Qeq_bool (length_squared (direction e)) 0 = false) as Hmoving.
  { apply not_true_iff_false. intros H.
    by apply Qeq_bool_iff, length_squared_zero in H. }
  split; intros Hout; unfold update_position, screen_wrap; rewrite Hmoving.
  - apply Qltb_lt in Hout as ->. reflexivity.
  - assert (Qltb (vx (integrate e dt)) (inject_Z (- settings.TILE_SIZE)) = false)
      as ->.
    { apply Qltb_ge. apply Qlt_le_weak. eapply Qlt_trans; [|exact Hout]. done. }
    apply Qltb_lt in Hout as ->. reflexivity.
Qed.

Lemma update_position_wrap_unchecked_witness :
  let e := {| grid_pos := Vector2_of 2 1;
              speed := 120;
              direction := Vector2_of (-1) 0;
              pixel_pos := grid_to_pixel (Vector2_of 2 1) |} in
  valid_tile the_maze (grid_pos e) = Ok true ∧
  update_position the_maze e 1 =
    Ok {| grid_pos := Vector2_of 0 1;
          speed := 120;
          direction := Vector2_of (-1) 0;
          pixel_pos := grid_to_pixel (Vector2_of 0 1) |} ∧
  valid_tile the_maze (Vector2_of 0 1) = Ok false.
Proof.
  intros e. split; [by vm_compute|]. split; [|by vm_compute].
  apply (update_position_wrap_unchecked the_maze e 1).
  - intros [H _]. vm_compute in H. done.
  - by vm_compute.
Defined.

Lemma vector_ne_refl (a : Vector2) : vector_ne a a = false.
Proof.
  assert (∀ q : Q, Qle_bool VECTOR_EPSILON (Qabs (q - q)) = false) as H.
  { intros q. apply not_true_iff_false. rewrite Qle_bool_iff.
    assert (q - q == 0)%Q as -> by ring. by vm_compute. }
  unfold vector_ne. by rewrite !H.
Qed.

Lemma centre_is_at_center (e : Entity) :
  pixel_pos e = grid_to_pixel (grid_pos e) → is_at_center e = true.
Proof.
  intros H. unfold is_at_center. rewrite H.
  assert (∀ q : Q, Qltb (Qabs (q - q)) (1 # 2) = true) as Hq.
  { intros q. apply Qltb_lt. assert (q - q == 0)%Q as -> by ring. by vm_compute. }
  by rewrite !Hq.
Qed.

(** Whenever [update_position] changes the cell of the agent, it leaves
    the agent exactly on the centre of the new tile, where
    [is_at_center] holds. *)
Theorem update_position_snaps (maze : Maze) (e e' : Entity) (dt : Q) :
  update_position maze e dt = Ok e' →
  vector_ne (grid_pos e') (grid_pos e) = true →
  pixel_pos e' = grid_to_pixel (grid_pos e') ∧ is_at_center e' = true.
Proof.
  intros Hrun Hmoved.
  assert (pixel_pos e' = grid_to_pixel (grid_pos e')) as Hsnap;
    [|split; [done|by apply centre_is_at_center]].
  revert Hrun. unfold update_position.
  destruct (Qeq_bool (length_squared (direction e)) 0).
  { intros [= <-]. by rewrite vector_ne_refl in Hmoved. }
  destruct (screen_wrap (integrate e dt)) as [pixel wrapped].
  destruct (if wrapped then Ok false
            else valid ← valid_tile maze (portal_adjust (pixel_to_grid pixel)) ;;;
                 Ok (negb valid)) as [[|]| |]; cbn [rbind]; try done.
  { intros [= <-]. cbn [grid_pos] in Hmoved.
    by rewrite vector_ne_refl in Hmoved. }
  destruct (wrapped || vector_ne (portal_adjust (pixel_to_grid pixel)) (grid_pos e))
    eqn:Hcond; intros [= <-]; [done|].
  cbn [grid_pos] in Hmoved. apply orb_false_iff in Hcond as [_ Hcond]. congruence.
Qed.

Lemma update_position_snaps_witness :
  let e := {| grid_pos := Vector2_of 1 1;
              speed := 120;
              direction := Vector2_of 1 0;
              pixel_pos := {| vx := 47; vy := 36 |} |} in
  ∃ e', update_position the_maze e (1 # 60) = Ok e' ∧
        grid_pos e' = Vector2_of 2 1 ∧
        pixel_pos e' = grid_to_pixel (Vector2_of 2 1) ∧
        is_at_center e' = true.
Proof.
  intros e.
  destruct (update_position the_maze e (1 # 60)) as [e'| |] eqn:Hrun;
    [|vm_compute in Hrun; discriminate..].
  assert (grid_pos e' = Vector2_of 2 1) as Hcell.
  { vm_compute in Hrun. injection Hrun as <-. reflexivity. }
  destruct (update_position_snaps the_maze e e' (1 # 60) Hrun) as [Hsnap Hcentre].
  { rewrite Hcell. by vm_compute. }
  exists e'. rewrite Hcell in Hsnap.
  exact (conj eq_refl (conj Hcell (conj Hsnap Hcentre))).
Defined.

(** An agent that moves along a row and whose move is accepted is on the
    centre line of its row afterwards; likewise for a column. *)
Theorem update_position_keeps_lane (maze : Maze) (e e' : Entity) (dt : Q) :
  update_position maze e dt = Ok e' →
  ¬ ((vx (direction e) == 0)%Q ∧ (vy (direction e) == 0)%Q) →
  direction e' = direction e →
  ((vy (direction e) == 0)%Q →
   vy (pixel_pos e') = vy (grid_to_pixel (grid_pos e'))) ∧
  ((vx (direction e) == 0)%Q →
   vx (pixel_pos e') = vx (grid_to_pixel (grid_pos e'))).
Proof.
  intros Hrun Hdir Hkept.
  assert (Qeq_bool (length_squared (direction e)) 0 = false) as Hmoving.
  { apply not_true_iff_false. intros H.
    by apply Qeq_bool_iff, length_squared_zero in H. }
  revert Hrun. unfold update_position. rewrite Hmoving.
  destruct (screen_wrap (integrate e dt)) as [pixel wrapped].
  destruct (if wrapped then Ok false
            else valid ← valid_tile maze (portal_adjust (pixel_to_grid pixel)) ;;;
                 Ok (negb valid)) as [[|]| |]; cbn [rbind]; try done.
  { intros [= <-]. cbn [direction] in Hkept. destruct Hdir.
    rewrite <- Hkept. by vm_compute. }
  destruct (wrapped || vector_ne (portal_adjust (pixel_to_grid pixel)) (grid_pos e));
    intros [= <-]; [done|].
  cbn [pixel_pos grid_pos vx vy]. split; intros Hzero%Qeq_bool_iff.
  - by rewrite Hzero.
  - by rewrite Hzero.
Qed.

Lemma update_position_keeps_lane_witness :
  let e := {| grid_pos := Vector2_of 1 1;
              speed := 120;
              direction := Vector2_of 1 0;
              pixel_pos := {| vx := 36; vy := 30 |} |} in
  ∃ e', update_position the_maze e (1 # 60) = Ok e' ∧
        (vx (pixel_pos e') == 38)%Q ∧
        vy (pixel_pos e') = vy (grid_to_pixel (Vector2_of 1 1)).
Proof.
  intros e.
  destruct (update_position the_maze e (1 # 60)) as [e'| |] eqn:Hrun;
    [|vm_compute in Hrun; discriminate..].
  assert (grid_pos e' = Vector2_of 1 1 ∧ direction e' = direction e ∧
          (vx (pixel_pos e') == 38)%Q) as (Hcell & Hkept & Hx).
  { vm_compute in Hrun. injection Hrun as <-. by repeat split. }
  destruct (update_position_keeps_lane the_maze e e' (1 # 60) Hrun) as [Hlane _].
  { intros [H _]. vm_compute in H. done. }
  { exact Hkept. }
  exists e'. rewrite Hcell in Hlane.
  refine (conj eq_refl (conj Hx (Hlane _))). by vm_compute.
Defined.

Lemma Qfloor_unique (t : Q) (k : Z) :
  (inject_Z k <= t)%Q → (t < inject_Z (k + 1))%Q → Qfloor t = k.
Proof.
  intros Hle Hlt.
  pose proof (Qfloor_resp_le _ _ Hle) as H1. rewrite Qfloor_Z in H1.
  pose proof (Qfloor_le t) as H2.
  assert (inject_Z (Qfloor t) < inject_Z (k + 1))%Q as H3
    by (eapply Qle_lt_trans; eauto).
  rewrite <- Zlt_Qlt in H3. lia.
Qed.

(** An agent for which [is_at_center] holds is inside the tile of its
    cell: [pixel_to_grid] of its position is its cell. *)
Theorem at_center_in_own_cell (e : Entity) (x y : Z) :
  grid_pos e = Vector2_of x y →
  is_at_center e = true →
  pixel_to_grid (pixel_pos e) = Vector2_of x y.
Proof.
  intros Hcell. unfold is_at_center. rewrite Hcell.
  intros [Hx%Qltb_lt Hy%Qltb_lt]%andb_true_iff.
  assert (∀ (p : Q) (z : Z),
            (Qabs (p - (inject_Z z * inject_Z settings.TILE_SIZE
                        + inject_Z settings.TILE_SIZE / 2)) < 1 # 2)%Q →
            floordiv p settings.TILE_SIZE = z) as Hfloor.
  { intros p z Hp. apply Qabs_Qlt_condition in Hp as [Hlo Hhi].
    unfold floordiv, settings.TILE_SIZE in *.
    change (inject_Z 24) with (24 # 1) in *.
    assert ((24 # 1) / 2 == 12)%Q as Heq by reflexivity.
    rewrite Heq in Hlo, Hhi.
    apply Qfloor_unique.
    - apply Qle_shift_div_l; [reflexivity|].
      generalize dependent (inject_Z z). intros; lra.
    - apply Qlt_shift_div_r; [reflexivity|]. rewrite inject_Z_plus.
      change (inject_Z 1) with 1%Q.
      generalize dependent (inject_Z z). intros; lra. }
  unfold pixel_to_grid. f_equal; apply Hfloor; assumption.
Qed.

Lemma at_center_in_own_cell_witness :
  let e := {| grid_pos := Vector2_of 13 23;
              speed := 120;
              direction := Vector2_of 0 0;
              pixel_pos := {| vx := 1297 # 4; vy := 2255 # 4 |} |} in
  is_at_center e = true ∧ pixel_to_grid (pixel_pos e) = Vector2_of 13 23.
Proof.
  intros e. split; [by vm_compute|].
  apply (at_center_in_own_cell e 13 23); by vm_compute.
Defined.

(** ** The choice of directions *)

Lemma direction_choice_Some maze e vector v :
  direction_choice maze e vector = Ok (Some v) →
  v = vector ∧
  valid_tile maze (portal_adjust (vadd (grid_pos e) vector)) = Ok true ∧
  negb (Qeq_bool (length_squared (direction e)) 0) &&
  vector_eq (portal_adjust (vadd (grid_pos e) vector))
            (portal_adjust (vsub (grid_pos e) (direction e))) = false.
Proof.
  unfold direction_choice.
  destruct (valid_tile maze _) as [[|]| |]; cbn [rbind]; try done.
  destruct (_ && _) eqn:H; [done|]. by intros [= <-].
Qed.

Lemma rmapM_choice_sublist {A} (f : A → result (option A)) (l : list A)
    (ys : list (option A)) :
  (∀ a b, f a = Ok (Some b) → b = a) →
  rmapM f l = Ok ys → sublist (omap id ys) l.
Proof.
  intros Hf. revert ys. induction l as [|a l IH]; intros ys; simpl.
  - intros [= <-]. constructor.
  - destruct (f a) as [o| |] eqn:Hfa; simpl; try done.
    destruct (rmapM f l) as [os| |]; simpl; try done.
    intros [= <-]. destruct o as [b|]; simpl.
    + rewrite (Hf a b Hfa). apply sublist_skip. eauto.
    + apply sublist_cons. eauto.
Qed.

Lemma length_squared_cell_nonzero (dx dy : Z) :
  dx ≠ 0 ∨ dy ≠ 0 → Qeq_bool (length_squared (Vector2_of dx dy)) 0 = false.
Proof.
  intros Hd. apply not_true_iff_false.
  intros [Hx Hy]%Qeq_bool_iff%length_squared_zero.
  unfold Vector2_of, Qeq in *. simpl in *. lia.
Qed.

(** [available_directions] offers directions of [DIRECTIONS], in the
    order of the dict and each at most once per entry; every direction it
    offers leads to a valid tile; it never offers the reverse of the
    direction in which the agent moves; and for an agent at rest it offers
    every direction that leads to a valid tile. *)
Theorem available_directions_sound (directions : list (string * Vector2))
    (maze : Maze) (e : Entity) (choices : list Vector2) :
  available_directions directions maze e = Ok choices →
  sublist choices (directions.*2) ∧
  (∀ v, v ∈ choices →
        valid_tile maze (portal_adjust (vadd (grid_pos e) v)) = Ok true) ∧
  (∀ dx dy, direction e = Vector2_of dx dy → dx ≠ 0 ∨ dy ≠ 0 →
            Vector2_of (- dx) (- dy) ∉ choices) ∧
  (direction e = Vector2_of 0 0 →
   ∀ v, v ∈ directions.*2 →
        valid_tile maze (portal_adjust (vadd (grid_pos e) v)) = Ok true →
        v ∈ choices).
Proof.
  unfold available_directions.
  destruct (rmapM _ _) as [ys| |] eqn:Hys; cbn [rbind]; try done.
  intros [= <-].
  assert (∀ v, v ∈ omap id ys → direction_choice maze e v = Ok (Some v))
    as Hsome.
  { intros v (o & Ho & Hid)%list_elem_of_omap. simpl in Hid. subst o.
    destruct (rmapM_Ok_elem _ _ _ _ Hys Ho) as (a & _ & Ha).
    by destruct (direction_choice_Some _ _ _ _ Ha) as (-> & _). }
  split; [|split; [|split]].
  - apply (rmapM_choice_sublist _ _ _) in Hys; [done|].
    intros a b Hab. by apply direction_choice_Some in Hab as [-> _].
  - intros v Hv%Hsome. by apply direction_choice_Some in Hv as (_ & Hv & _).
  - intros dx dy Hdir Hd Hv%Hsome.
    apply direction_choice_Some in Hv as (_ & _ & Hv).
    rewrite Hdir, (length_squared_cell_nonzero _ _ Hd) in Hv.
    change (vsub (grid_pos e) (Vector2_of dx dy))
      with (vadd (grid_pos e) (Vector2_of (- dx) (- dy))) in Hv.
    unfold vector_eq in Hv. by rewrite vector_ne_refl in Hv.
  - intros Hdir v Hv Hvalid.
    destruct (rmapM_Ok_elem_of _ _ _ _ Hys Hv) as (o & Ho & Hf).
    apply list_elem_of_omap. exists o. split; [done|].
    unfold direction_choice in Hf. rewrite Hvalid, Hdir in Hf.
    cbn [rbind] in Hf. by injection Hf as <-.
Qed.

Lemma available_directions_sound_witness :
  let e := {| grid_pos := Vector2_of 0 14;
              speed := 120;
              direction := Vector2_of (-1) 0;
              pixel_pos := grid_to_pixel (Vector2_of 0 14) |} in
  ∃ choices,
    available_directions DIRECTIONS the_maze e = Ok choices ∧
    sublist choices (DIRECTIONS.*2) ∧
    valid_tile the_maze (Vector2_of 1 14) = Ok true ∧
    Vector2_of 1 0 ∉ choices.
Proof.
  intros e.
  destruct (available_directions DIRECTIONS the_maze e) as [choices| |] eqn:Hrun;
    [|vm_compute in Hrun; discriminate..].
  destruct (available_directions_sound DIRECTIONS the_maze e choices Hrun)
    as (Hsub & _ & Hreverse & _).
  exists choices. split; [reflexivity|]. split; [exact Hsub|].
  split; [by vm_compute|].
  apply (Hreverse (-1) 0); [reflexivity|left; lia].
Defined.

(** ** The autopilot *)

Lemma walk_in_grid maze a p b :
  in_grid a → walk maze a p b → Forall in_grid p.
Proof.
  intros Ha. induction 1 as [|p b c _ IH Hs].
  - constructor; [done|constructor].
  - apply Forall_app. split; [done|].
    constructor; [|constructor]. by destruct (step_traversable _ _ _ Hs).
Qed.

Lemma walk_singleton maze a b c : walk maze a [c] b → a = c ∧ b = c.
Proof.
  intros Hw. pose proof (walk_head _ _ _ _ Hw). pose proof (walk_last _ _ _ _ Hw).
  simpl in *. split; congruence.
Qed.

Lemma step_direction_delta maze c n :
  in_grid c → step maze c n →
  ∃ d, d ∈ DELTAS ∧ neighbour_at maze c d = Ok (Some n) ∧
       step_direction c n = Vector2_of d.1 d.2.
Proof.
  intros [Hx Hy] (d & Hd & Hn)%step_inv. exists d. split; [done|]. split; [done|].
  apply neighbour_at_Some in Hn as (_ & H2 & H1).
  unfold DELTAS in Hd. unfold settings.GRID_WIDTH in *.
  repeat (apply elem_of_cons in Hd as [->|Hd]); [..|by apply not_elem_of_nil in Hd];
    cbn [fst snd] in *; repeat case_decide;
    unfold step_direction; rewrite H1, H2; repeat case_decide;
    first [lia | f_equal; lia].
Qed.

Lemma delta_in_DIRECTIONS (d : Z * Z) :
  d ∈ DELTAS → Vector2_of d.1 d.2 ∈ DIRECTIONS.*2.
Proof.
  unfold DELTAS, DIRECTIONS. intros Hd. cbn [fmap list_fmap snd].
  repeat (apply elem_of_cons in Hd as [->|Hd]); [..|by apply not_elem_of_nil in Hd];
    cbn [fst snd]; rewrite !elem_of_cons; auto 10.
Qed.

Lemma path_directions_lookup (path : list GridPos) (i : nat) (c n : GridPos) :
  path !! i = Some c → path !! S i = Some n →
  path_directions path !! i = Some (step_direction c n).
Proof.
  intros Hc Hn. unfold path_directions.
  rewrite lookup_zip_with, Hc. simpl. rewrite lookup_drop. simpl. by rewrite Hn.
Qed.

Lemma path_directions_length (path : list GridPos) :
  length (path_directions path) = moves path.
Proof.
  unfold path_directions, moves. rewrite length_zip_with, length_drop. lia.
Qed.

Lemma compute_autopilot_path_outcome fuel maze pacman targets pacman' x y :
  grid_pos (body pacman) = Vector2_of x y →
  compute_autopilot_path fuel maze pacman targets = Ok pacman' →
  ∃ targets_set : gset GridPos,
    match targets with
    | Some cells => targets_set = cells
    | None => ∃ cells, remaining_pellets maze = Ok cells ∧
                       targets_set = list_to_set cells
    end ∧
    ((pacman' = enable_autopilot pacman false ∧
      (targets_set = ∅ ∨
       ∃ path, astar_path fuel maze (x, y) targets_set = Ok path ∧
               (length path < 2)%nat)) ∨
     (∃ path, astar_path fuel maze (x, y) targets_set = Ok path ∧
              (2 ≤ length path)%nat ∧
              pacman' = set_autopilot_path (enable_autopilot pacman true)
                                           (path_directions path))).
Proof.
  intros Hpos. unfold compute_autopilot_path. rewrite Hpos.
  unfold Vector2_of at 1 2. cbn [vx vy]. rewrite !py_int_inject_Z.
  assert (∀ targets_set : gset GridPos,
    (if decide (targets_set = ∅) then Ok (enable_autopilot pacman false)
     else path ← astar_path fuel maze (x, y) targets_set ;;;
          if decide (length path < 2)%nat
          then Ok (enable_autopilot pacman false)
          else Ok (set_autopilot_path (enable_autopilot pacman true)
                                      (path_directions path))) = Ok pacman' →
    (pacman' = enable_autopilot pacman false ∧
      (targets_set = ∅ ∨
       ∃ path, astar_path fuel maze (x, y) targets_set = Ok path ∧
               (length path < 2)%nat)) ∨
     (∃ path, astar_path fuel maze (x, y) targets_set = Ok path ∧
              (2 ≤ length path)%nat ∧
              pacman' = set_autopilot_path (enable_autopilot pacman true)
                                           (path_directions path))) as Hrest.
  { intros targets_set. destruct (decide (targets_set = ∅)) as [Hempty|_].
    { intros [= <-]. left. split; [done|by left]. }
    destruct (astar_path fuel maze (x, y) targets_set) as [path| |];
      cbn [rbind]; try done.
    destruct (decide (length path < 2)%nat) as [Hshort|Hlong]; intros [= <-].
    - left. split; [done|]. right. by exists path.
    - right. exists path. split; [done|]. split; [lia|done]. }
  destruct targets as [cells|]; cbn [rbind].
  - intros Hrun. exists cells. split; [done|]. by apply Hrest.
  - destruct (remaining_pellets maze) as [cells| |]; cbn [rbind]; try done.
    intros Hrun. exists (list_to_set cells). split; [by exists cells|].
    by apply Hrest.
Qed.

(** The route that [compute_autopilot_path] hands to the autopilot
    follows the path of the search, for a Pac-Man on a cell of the grid:
    the queue has one direction per move of a walk from Pac-Man's cell to
    a target, each direction is one of the four [DIRECTIONS] (the step
    through the wraparound included), [portal_adjust] takes each cell of
    the walk and its direction to the next cell, and [valid_tile] accepts
    that cell.  When the autopilot is left disabled, the queue is
    empty. *)
Theorem compute_autopilot_path_route (fuel : nat) (maze : Maze)
    (pacman pacman' : Pacman) (targets : option (gset GridPos)) (x y : Z) :
  rectangular maze →
  grid_pos (body pacman) = Vector2_of x y →
  in_grid (x, y) →
  compute_autopilot_path fuel maze pacman targets = Ok pacman' →
  body pacman' = body pacman ∧
  if autopilot_enabled pacman' then
    ∃ path goal,
      walk maze (x, y) path goal ∧
      match targets with
      | Some cells => goal ∈ cells
      | None => ∃ cells, remaining_pellets maze = Ok cells ∧ goal ∈ cells
      end ∧
      (2 ≤ length path)%nat ∧
      length (auto_queue pacman') = moves path ∧
      ∀ i c n, path !! i = Some c → path !! S i = Some n →
        ∃ d, auto_queue pacman' !! i = Some d ∧
             d ∈ DIRECTIONS.*2 ∧
             portal_adjust (vadd (Vector2_of c.1 c.2) d) = Vector2_of n.1 n.2 ∧
             valid_tile maze (Vector2_of n.1 n.2) = Ok true
  else auto_queue pacman' = [].
Proof.
  intros Hrect Hpos Hstart Hrun.
  destruct (compute_autopilot_path_outcome _ _ _ _ _ _ _ Hpos Hrun)
    as (targets_set & Htargets & [[-> _]|(path & Hpath & Hlen & ->)]);
    [done|].
  split; [done|]. cbn [autopilot_enabled set_autopilot_path enable_autopilot auto_queue].
  destruct (astar_path_outcome _ _ _ _ _ Hpath)
    as [[-> _]|(goal & Hgoal & Hwalk & _)]; [simpl in Hlen; lia|].
  exists path, goal. split; [done|]. split.
  { destruct targets as [cells|]; [by subst|].
    destruct Htargets as (cells & Hcells & ->). exists cells. split; [done|].
    by apply elem_of_list_to_set in Hgoal. }
  split; [done|]. split; [apply path_directions_length|].
  intros i c n Hc Hn.
  pose proof (walk_in_grid _ _ _ _ Hstart Hwalk) as Hgrid.
  rewrite Forall_lookup in Hgrid.
  destruct (step_direction_delta maze c n (Hgrid i c Hc)
              (walk_consecutive _ _ _ _ _ _ _ Hwalk Hc Hn))
    as (d & Hd & Hat & Hdir).
  exists (Vector2_of d.1 d.2). split.
  { rewrite <- Hdir. by apply path_directions_lookup. }
  split; [by apply delta_in_DIRECTIONS|].
  by apply neighbour_at_valid_move.
Qed.

Lemma compute_autopilot_path_route_witness :
  let pacman := {| body := {| grid_pos := Vector2_of 1 1;
                              speed := 120;
                              direction := Vector2_of 0 0;
                              pixel_pos := grid_to_pixel (Vector2_of 1 1) |};
                   desired_direction := Vector2_of 0 0;
                   animation_time := 0;
                   colour_index := 0;
                   autopilot_enabled := false;
                   auto_queue := [] |} in
  ∃ pacman',
    compute_autopilot_path 10 the_maze pacman (Some {[ (3, 1) ]}) = Ok pacman' ∧
    auto_queue pacman' = [Vector2_of 1 0; Vector2_of 1 0] ∧
    body pacman' = body pacman ∧
    if autopilot_enabled pacman' then
      ∃ path goal,
        walk the_maze (1, 1) path goal ∧
        goal ∈ ({[ (3, 1) ]} : gset GridPos) ∧
        (2 ≤ length path)%nat ∧
        length (auto_queue pacman') = moves path ∧
        ∀ i c n, path !! i = Some c → path !! S i = Some n →
          ∃ d, auto_queue pacman' !! i = Some d ∧
               d ∈ DIRECTIONS.*2 ∧
               portal_adjust (vadd (Vector2_of c.1 c.2) d) = Vector2_of n.1 n.2 ∧
               valid_tile the_maze (Vector2_of n.1 n.2) = Ok true
    else auto_queue pacman' = [].
Proof.
  intros pacman.
  destruct (compute_autopilot_path 10 the_maze pacman (Some {[ (3, 1) ]}))
    as [pacman'| |] eqn:Hrun; [|vm_compute in Hrun; discriminate..].
  exists pacman'. split; [reflexivity|]. split.
  { vm_compute in Hrun. injection Hrun as <-. reflexivity. }
  apply (compute_autopilot_path_route 10 the_maze pacman pacman'
           (Some {[ (3, 1) ]}) 1 1).
  - apply the_maze_rectangular.
  - reflexivity.
  - unfold in_grid, settings.GRID_WIDTH, settings.GRID_HEIGHT. simpl. lia.
  - exact Hrun.
Defined.

Lemma update_autopilot_outcome (maze : Maze) (p p' : Pacman) :
  update_autopilot maze p = Ok p' →
  body p' = body p ∧
  autopilot_enabled p' = autopilot_enabled p ∧
  animation_time p' = animation_time p ∧
  colour_index p' = colour_index p ∧
  ((desired_direction p' = desired_direction p ∧
    (auto_queue p' = auto_queue p ∨ auto_queue p' = [])) ∨
   (autopilot_enabled p = true ∧ auto_queue p = [] ∧ auto_queue p' = [] ∧
    desired_direction p' = Vector2_of 0 0) ∨
   (autopilot_enabled p = true ∧
    auto_queue p = desired_direction p' :: auto_queue p' ∧
    is_at_center (body p) = true ∧
    valid_tile maze
      (portal_adjust (vadd (grid_pos (body p)) (desired_direction p')))
    = Ok true)).
Proof.
  unfold update_autopilot.
  destruct (autopilot_enabled p) eqn:Hauto; cbn [negb].
  2:{ intros [= <-]. repeat split; try done. left. split; [done|by left]. }
  destruct (auto_queue p) as [|next_direction rest] eqn:Hqueue.
  { intros [= <-]. repeat split; try done. right. left. done. }
  destruct (is_at_center (body p)) eqn:Hcentre.
  2:{ intros [= <-]. repeat split; try done. left. split; [done|by left]. }
  cbv zeta.
  destruct (valid_tile maze _) as [[|]| |] eqn:Hvalid; cbn [rbind]; try done.
  - intros [= <-]. repeat split; try done. right. right. done.
  - intros [= <-]. repeat split; try done. left. split; [done|by right].
Qed.

(** [update_autopilot] moves nothing and only consumes the route: the
    queue afterwards is a suffix of the queue before, and the desired
    direction changes only to the zero vector, when the route is used up,
    or to the head of the queue, when Pac-Man is at the centre of its tile
    and the head leads to a valid tile. *)
Theorem update_autopilot_consumes_route (maze : Maze) (p p' : Pacman) :
  update_autopilot maze p = Ok p' →
  body p' = body p ∧
  autopilot_enabled p' = autopilot_enabled p ∧
  suffix (auto_queue p') (auto_queue p) ∧
  (desired_direction p' = desired_direction p ∨
   (auto_queue p = [] ∧ desired_direction p' = Vector2_of 0 0) ∨
   (auto_queue p = desired_direction p' :: auto_queue p' ∧
    is_at_center (body p) = true ∧
    valid_tile maze
      (portal_adjust (vadd (grid_pos (body p)) (desired_direction p')))
    = Ok true)).
Proof.
  intros (Hbody & Hauto & _ & _ & Hcases)%update_autopilot_outcome.
  split; [done|]. split; [done|].
  destruct Hcases as [[Hd [Hq|Hq]]|[(_ & Hq & Hq' & Hd)|(_ & Hq & Hc & Hv)]].
  - split; [by rewrite Hq|by left].
  - split; [rewrite Hq; apply suffix_nil|by left].
  - split; [by rewrite Hq, Hq'|right; by left].
  - split; [rewrite Hq; by apply suffix_cons_r|right; by right].
Qed.

Lemma update_autopilot_consumes_route_witness :
  let p := {| body := {| grid_pos := Vector2_of 1 1;
                         speed := 120;
                         direction := Vector2_of 0 0;
                         pixel_pos := grid_to_pixel (Vector2_of 1 1) |};
              desired_direction := Vector2_of 0 0;
              animation_time := 0;
              colour_index := 0;
              autopilot_enabled := true;
              auto_queue := [Vector2_of 1 0; Vector2_of 0 1] |} in
  ∃ p', update_autopilot the_maze p = Ok p' ∧
        desired_direction p' = Vector2_of 1 0 ∧
        auto_queue p' = [Vector2_of 0 1] ∧
        suffix (auto_queue p') (auto_queue p).
Proof.
  intros p.
  destruct (update_autopilot the_maze p) as [p'| |] eqn:Hrun;
    [|vm_compute in Hrun; discriminate..].
  destruct (update_autopilot_consumes_route the_maze p p' Hrun)
    as (_ & _ & Hsuffix & _).
  exists p'. split; [reflexivity|].
  vm_compute in Hrun. injection Hrun as <-.
  exact (conj eq_refl (conj eq_refl Hsuffix)).
Defined.

Lemma integrate_inside (e : Entity) (dt : Q) :
  (-1 <= vx (direction e) <= 1)%Q →
  (0 <= speed e * dt <= inject_Z settings.TILE_SIZE)%Q →
  (0 <= vx (pixel_pos e) <= inject_Z settings.SCREEN_WIDTH)%Q →
  (inject_Z (- settings.TILE_SIZE) <= vx (integrate e dt))%Q ∧
  (vx (integrate e dt)
   <= inject_Z (settings.SCREEN_WIDTH + settings.TILE_SIZE))%Q.
Proof.
  unfold integrate, vadd, vscale. cbn [vx].
  change (inject_Z (- settings.TILE_SIZE)) with (- (24 # 1))%Q.
  change (inject_Z settings.TILE_SIZE) with (24 # 1).
  change (inject_Z settings.SCREEN_WIDTH) with (672 # 1).
  change (inject_Z (settings.SCREEN_WIDTH + settings.TILE_SIZE)) with (696 # 1).
  generalize (vx (direction e)) (speed e) (vx (pixel_pos e)).
  intros d s x [Hd1 Hd2] [Hu1 Hu2] [Hx1 Hx2].
  assert (d * s * dt == d * (s * dt))%Q as -> by ring.
  set (u := (s * dt)%Q) in *. clearbody u.
  assert (0 <= (1 - d) * u)%Q by (apply Qmult_le_0_compat; lra).
  assert (0 <= (1 + d) * u)%Q by (apply Qmult_le_0_compat; lra).
  split; lra.
Qed.

(** With frame steps of at most one tile and directions whose horizontal
    part is at most one, as those of [DIRECTIONS] are, a Pac-Man that
    stands on a valid tile inside the window stands on a valid tile after
    [Pacman.update], whatever the keys and the autopilot route ask for: it
    never enters a wall. *)
Theorem Pacman_update_stays_valid (maze : Maze) (p p' : Pacman) (dt : Q) :
  valid_tile maze (grid_pos (body p)) = Ok true →
  Forall (λ d, (-1 <= vx d <= 1)%Q)
         (direction (body p) :: desired_direction p :: auto_queue p) →
  (0 <= speed (body p) * dt <= inject_Z settings.TILE_SIZE)%Q →
  (0 <= vx (pixel_pos (body p)) <= inject_Z settings.SCREEN_WIDTH)%Q →
  Pacman_update maze p dt = Ok p' →
  valid_tile maze (grid_pos (body p')) = Ok true.
Proof.
  intros Hvalid Hdirs Hstep Hpixel. unfold Pacman_update.
  destruct (update_autopilot maze p) as [p1| |] eqn:Hauto; cbn [rbind]; try done.
  apply update_autopilot_outcome in Hauto as (Hbody1 & _ & _ & _ & Hdesired).
  apply Forall_cons in Hdirs as [Hdir Hdirs].
  assert ((-1 <= vx (desired_direction p1) <= 1)%Q) as Hd1.
  { rewrite Forall_forall in Hdirs.
    destruct Hdesired as [[-> _]|[(_ & _ & _ & ->)|(_ & Hq & _)]].
    - apply Hdirs. left.
    - by vm_compute.
    - apply Hdirs. right. rewrite Hq. left. }
  clear Hdesired Hdirs.
  lazymatch goal with |- rbind ?turn _ = _ → _ =>
    destruct turn as [p2| |] eqn:Hturn; cbn [rbind]; try done
  end.
  assert (grid_pos (body p2) = grid_pos (body p) ∧
          pixel_pos (body p2) = pixel_pos (body p) ∧
          speed (body p2) = speed (body p) ∧
          (-1 <= vx (direction (body p2)) <= 1)%Q) as (Hg & Hp & Hs & Hd2).
  { revert Hturn. destruct (_ && _).
    - cbv zeta.
      destruct (valid_tile maze (portal_adjust _)) as [[|]| |];
        cbn [rbind]; try done;
        intros [= <-]; cbn [body set_body set_direction grid_pos pixel_pos
                            speed direction]; by rewrite ?Hbody1.
    - intros [= <-]. by rewrite Hbody1. }
  destruct (Qeq_bool (length_squared (direction (body p2))) 0).
  { intros [= <-]. by rewrite Hg. }
  lazymatch goal with |- rbind ?check _ = _ → _ =>
    destruct check as [[|]| |]; cbn [rbind]; try done
  end.
  { intros [= <-]. cbn [body set_body set_direction grid_pos]. by rewrite Hg. }
  destruct (update_position maze (body p2) dt) as [moved| |] eqn:Hmove;
    cbn [rbind]; try done.
  intros [= <-]. cbn [body].
  destruct (integrate_inside (body p2) dt) as [Hl Hr];
    [done|by rewrite Hs|by rewrite Hp|].
  apply (update_position_inside maze (body p2) moved dt); try done.
  by rewrite Hg.
Qed.

Lemma Pacman_update_stays_valid_witness :
  let p := {| body := {| grid_pos := Vector2_of 1 1;
                         speed := 120;
                         direction := Vector2_of 0 0;
                         pixel_pos := grid_to_pixel (Vector2_of 1 1) |};
              desired_direction := Vector2_of 0 0;
              animation_time := 0;
              colour_index := 0;
              autopilot_enabled := true;
              auto_queue := [Vector2_of 1 0; Vector2_of 0 (-1)] |} in
  ∃ p', Pacman_update the_maze p (1 # 8) = Ok p' ∧
        grid_pos (body p') = Vector2_of 2 1 ∧
        valid_tile the_maze (grid_pos (body p')) = Ok true.
Proof.
  intros p.
  destruct (Pacman_update the_maze p (1 # 8)) as [p'| |] eqn:Hrun;
    [|vm_compute in Hrun; discriminate..].
  exists p'. split; [reflexivity|]. split.
  { vm_compute in Hrun. injection Hrun as <-. reflexivity. }
  apply (Pacman_update_stays_valid the_maze p p' (1 # 8)).
  - by vm_compute.
  - repeat constructor; by vm_compute.
  - split; by vm_compute.
  - split; by vm_compute.
  - exact Hrun.
Defined.

(** A click on a tile that is off the grid or a wall changes nothing.  A
    click on a traversable tile switches [auto_replan] off and leaves
    Pac-Man where it is; if the autopilot is then enabled, its route is
    that of a walk from Pac-Man's cell to the clicked tile, and if not,
    the route is empty and Pac-Man is on the clicked tile or cannot reach
    it. *)
Theorem handle_mouse_click_route (fuel : nat) (maze : Maze)
    (pacman pacman' : Pacman) (auto_replan auto_replan' : bool)
    (pos : Z * Z) (x y : Z) :
  rectangular maze →
  grid_pos (body pacman) = Vector2_of x y →
  handle_mouse_click fuel maze pacman auto_replan pos
  = Ok (pacman', auto_replan') →
  let tile := (pos.1 `div` settings.TILE_SIZE,
               pos.2 `div` settings.TILE_SIZE) in
  (¬ traversable maze tile ∧ pacman' = pacman ∧ auto_replan' = auto_replan) ∨
  (traversable maze tile ∧ auto_replan' = false ∧
   body pacman' = body pacman ∧
   if autopilot_enabled pacman'
   then ∃ path, walk maze (x, y) path tile ∧ (2 ≤ length path)%nat ∧
                auto_queue pacman' = path_directions path
   else auto_queue pacman' = [] ∧
        ((x, y) = tile ∨ ¬ reachable maze (x, y) tile)).
Proof.
  intros Hrect Hpos. unfold handle_mouse_click. cbv zeta.
  set (grid_x := pos.1 `div` settings.TILE_SIZE).
  set (grid_y := pos.2 `div` settings.TILE_SIZE).
  destruct (decide (0 ≤ grid_x < settings.GRID_WIDTH ∧
                    0 ≤ grid_y < settings.GRID_HEIGHT)) as [Hin|Hout].
  2:{ rewrite bool_decide_eq_false_2 by done. intros [= <- <-]. left.
      split; [|done]. by intros [Hin _]. }
  rewrite bool_decide_eq_true_2 by done. cbn [negb].
  rewrite (valid_tile_integer maze _ _ Hrect).
  rewrite bool_decide_eq_true_2 by lia. cbn [rbind andb].
  destruct (wall_free maze (grid_x, grid_y)) eqn:Hfree; cbn [negb].
  2:{ intros [= <- <-]. left. split; [|done].
      intros [_ Hfree']. congruence. }
  destruct (compute_autopilot_path fuel maze pacman (Some {[(grid_x, grid_y)]}))
    as [pacman1| |] eqn:Hplan; cbn [rbind]; try done.
  intros [= <- <-]. right. split; [done|]. split; [done|].
  destruct (compute_autopilot_path_outcome _ _ _ _ _ _ _ Hpos Hplan)
    as (targets_set & -> & [[-> Hwhy]|(path & Hpath & Hlen & ->)]).
  - split; [done|]. cbn [autopilot_enabled enable_autopilot auto_queue].
    split; [done|].
    destruct Hwhy as [Hempty|(path & Hpath & Hlen)]; [set_solver|].
    destruct (astar_path_outcome _ _ _ _ _ Hpath)
      as [[_ Hnone]|(goal & ->%elem_of_singleton & Hwalk & _)].
    + right. intros Hreach. apply (Hnone _ Hreach). set_solver.
    + left. destruct path as [|c [|c' path]]; simpl in Hlen; try lia.
      * apply walk_length in Hwalk. simpl in Hwalk. lia.
      * apply walk_singleton in Hwalk as [-> ->]. done.
  - split; [done|].
    cbn [autopilot_enabled enable_autopilot set_autopilot_path auto_queue].
    destruct (astar_path_outcome _ _ _ _ _ Hpath)
      as [[-> _]|(goal & ->%elem_of_singleton & Hwalk & _)];
      [simpl in Hlen; lia|].
    by exists path.
Qed.

Lemma handle_mouse_click_route_witness :
  let pacman := {| body := {| grid_pos := Vector2_of 1 1;
                              speed := 120;
                              direction := Vector2_of 0 0;
                              pixel_pos := grid_to_pixel (Vector2_of 1 1) |};
                   desired_direction := Vector2_of 0 0;
                   animation_time := 0;
                   colour_index := 0;
                   autopilot_enabled := false;
                   auto_queue := [] |} in
  ∃ pacman',
    handle_mouse_click 10 the_maze pacman true (80, 30) = Ok (pacman', false) ∧
    autopilot_enabled pacman' = true ∧
    ((¬ traversable the_maze (3, 1) ∧ pacman' = pacman ∧ false = true) ∨
     (traversable the_maze (3, 1) ∧ false = false ∧
      body pacman' = body pacman ∧
      if autopilot_enabled pacman'
      then ∃ path, walk the_maze (1, 1) path (3, 1) ∧ (2 ≤ length path)%nat ∧
                   auto_queue pacman' = path_directions path
      else auto_queue pacman' = [] ∧
           ((1, 1) = (3, 1) ∨ ¬ reachable the_maze (1, 1) (3, 1)))).
Proof.
  intros pacman.
  destruct (handle_mouse_click 10 the_maze pacman true (80, 30))
    as [[pacman' replan]| |] eqn:Hrun; [|vm_compute in Hrun; discriminate..].
  assert (replan = false ∧ autopilot_enabled pacman' = true) as [-> Hen].
  { vm_compute in Hrun. injection Hrun as <- <-. done. }
  exists pacman'. split; [reflexivity|]. split; [exact Hen|].
  apply (handle_mouse_click_route 10 the_maze pacman pacman' true false
           (80, 30) 1 1).
  - apply the_maze_rectangular.
  - reflexivity.
  - exact Hrun.
Defined.

(** ** Modes of the pursuers *)

(** Whether a pursuer flees is decided by the whole group: [decide_mode]
    on the snapshot of [observe_ghost_state] returns ["fuite"] and the
    scatter corner exactly when at least one ghost of the list is
    Frightened, whatever the mode of the ghost that asks and wherever it
    and Pac-Man are. *)
Theorem flee_iff_some_ghost_frightened (maze : Maze)
    (pacman_at ghost_at corner : Vector2) (ghosts : list Ghost) :
  decide_mode (observe_ghost_state maze pacman_at ghost_at corner ghosts)
  = ("fuite"%string, corner)
  ↔ ∃ ghost, ghost ∈ ghosts ∧ mode ghost = FRIGHTENED.
Proof.
  unfold decide_mode, observe_ghost_state.
  cbn [power_mode_active ghost_pos pacman_pos distance_threshold
       scatter_corner].
  destruct (existsb _ ghosts) eqn:Hex.
  - split; [intros _|done].
    apply existsb_exists in Hex as (ghost & Hin & Hmode).
    exists ghost. split; [by apply list_elem_of_In|].
    by apply bool_decide_eq_true in Hmode.
  - split.
    + case_decide; intros [=].
    + intros (ghost & Hin & Hmode).
      assert (existsb (λ ghost, bool_decide (mode ghost = FRIGHTENED)) ghosts
              = true) as Hex'; [|congruence].
      apply existsb_exists. exists ghost. split; [by apply list_elem_of_In|].
      by apply bool_decide_eq_true.
Qed.

Lemma Ghost_update_modes (g : Ghost) (dt : Q) (path : list GridPos)
    (at_home : bool) :
  (mode (Ghost_update g dt path at_home) = mode g ∨
   mode (Ghost_update g dt path at_home) = CHASE) ∧
  (mode g ≠ FRIGHTENED →
   mode (Ghost_update g dt path at_home) ≠ FRIGHTENED ∧
   frightened_timer (Ghost_update g dt path at_home) = frightened_timer g) ∧
  (mode g = SCATTER ∨ mode g = CHASE → Ghost_update g dt path at_home = g).
Proof.
  destruct g as [m t]. unfold Ghost_update. cbn [mode frightened_timer].
  destruct m, (decide (2 ≤ length path)%nat), at_home;
    cbn; try destruct (Qle_bool (t - dt) 0); cbn;
    (split; [|split];
     [ first [by left|by right]
     | intros H; first [done|by split]
     | intros [H|H]; done ]).
Qed.

(** [Ghost.update] changes the mode of a ghost only to Chase: over any
    run of updates a ghost ends in the mode it had or in Chase; a ghost
    that is not Frightened does not become Frightened and keeps its
    timer; and a Scatter or Chase ghost is left exactly as it was. *)
Theorem ghost_update_only_leads_to_chase (g : Ghost) (ticks : list Tick) :
  (mode (run_updates g ticks) = mode g ∨ mode (run_updates g ticks) = CHASE) ∧
  (mode g ≠ FRIGHTENED →
   mode (run_updates g ticks) ≠ FRIGHTENED ∧
   frightened_timer (run_updates g ticks) = frightened_timer g) ∧
  (mode g = SCATTER ∨ mode g = CHASE → run_updates g ticks = g).
Proof.
  revert g. induction ticks as [|[dt path at_home] ticks IH]; intros g.
  { cbn. split; [by left|]. split; [done|done]. }
  change (run_updates g (mkTick dt path at_home :: ticks))
    with (run_updates (Ghost_update g dt path at_home) ticks).
  destruct (Ghost_update_modes g dt path at_home) as (Hmode & Hcalm & Hsame).
  destruct (IH (Ghost_update g dt path at_home)) as (IHmode & IHcalm & IHsame).
  split; [|split].
  - destruct IHmode as [->| ->]; [done|by right].
  - intros Hg. destruct (Hcalm Hg) as [Hg1 Ht1].
    destruct (IHcalm Hg1) as [Hg2 Ht2]. split; [done|congruence].
  - intros Hg. rewrite (Hsame Hg). rewrite (Hsame Hg) in IHsame. by apply IHsame.
Qed.

(** ** Score and pellets *)

(** The pellet block of [Game.update] changes the score exactly when a
    pellet leaves the maze: for a Pac-Man on an in-bounds cell of a maze
    whose rows are distinct objects, either the score, the maze, the
    ghosts and [remaining_pellets] are all as before, or the score grew
    by 10 or by 50 and [remaining_pellets] lost Pac-Man's cell and no
    other. *)
Theorem Game_update_pellets_score (maze maze' : Maze) (pacman : Entity)
    (score score' : Z) (ghosts ghosts' : list Ghost) (x y : Z)
    (before : list GridPos) :
  NoDup (grid maze) →
  grid_pos pacman = Vector2_of x y →
  0 ≤ x → 0 ≤ y →
  remaining_pellets maze = Ok before →
  Game_update_pellets maze pacman score ghosts = Ok (maze', score', ghosts') →
  ∃ after,
    remaining_pellets maze' = Ok after ∧
    ((score' = score ∧ maze' = maze ∧ ghosts' = ghosts ∧ after = before) ∨
     ((score' = score + 10 ∨ score' = score + 50) ∧
      before ≡ₚ (x, y) :: after)).
Proof.
  intros Hdistinct Hpos Hx Hy Hbefore. unfold Game_update_pellets.
  destruct (is_at_center pacman).
  2:{ intros [= <- <- <-]. exists before. split; [done|by left]. }
  rewrite Hpos. unfold Vector2_of. cbn [vx vy]. rewrite !py_int_inject_Z.
  destruct (consume_tile maze x y) as [[v maze1]| |] eqn:Hconsume;
    cbn [rbind fst snd]; try done.
  destruct (decide (v = "."%char)) as [->|Hdot].
  { intros [= <- <- <-].
    destruct (consume_tile_removes_pellet maze maze1 x y "."%char before)
      as (after & Hafter & Hperm & _); try done.
    exists after. split; [done|]. right. split; [by left|done]. }
  destruct (decide (v = "o"%char)) as [->|Hpower].
  { intros [= <- <- <-].
    destruct (consume_tile_removes_pellet maze maze1 x y "o"%char before)
      as (after & Hafter & Hperm & _); try done.
    exists after. split; [done|]. right. split; [by right|done]. }
  intros [= <- <- <-].
  apply consume_tile_outcome in Hconsume as (r & row & k & _ & _ & _ & _ & ->).
  assert (is_pellet v = false) as ->.
  { unfold is_pellet. apply bool_decide_eq_false. by intros [|]. }
  exists before. split; [done|by left].
Qed.

Lemma Game_update_pellets_score_witness :
  let pacman := {| grid_pos := Vector2_of 1 3;
                   speed := 120;
                   direction := Vector2_of 0 0;
                   pixel_pos := grid_to_pixel (Vector2_of 1 3) |} in
  ∃ maze' ghosts' before after,
    Game_update_pellets the_maze pacman 0 [mkGhost CHASE 0] = Ok (maze', 50, ghosts') ∧
    remaining_pellets the_maze = Ok before ∧
    remaining_pellets maze' = Ok after ∧
    before ≡ₚ (1, 3) :: after.
Proof.
  intros pacman.
  destruct (Game_update_pellets the_maze pacman 0 [mkGhost CHASE 0])
    as [[[maze' score'] ghosts']| |] eqn:Hrun;
    [|vm_compute in Hrun; discriminate..].
  assert (score' = 50) as ->.
  { vm_compute in Hrun. by injection Hrun as _ <- _. }
  destruct (remaining_pellets the_maze) as [before| |] eqn:Hbefore;
    [|vm_compute in Hbefore; discriminate..].
  destruct (Game_update_pellets_score the_maze maze' pacman 0 50
              [mkGhost CHASE 0] ghosts' 1 3 before)
    as (after & Hafter & [(Hscore & _)|[_ Hperm]]).
  - apply from_blueprint_rows_distinct.
  - reflexivity.
  - lia.
  - lia.
  - exact Hbefore.
  - exact Hrun.
  - discriminate Hscore.
  - exists maze', ghosts', before, after.
    exact (conj eq_refl (conj eq_refl (conj Hafter Hperm))).
Defined.

(** ** Instances of the properties stated for every input *)

Lemma heuristic_least_witness :
  heuristic (3, 14) {[ (24, 14); (3, 20) ]} = manhattan_to (3, 14) (3, 20) ∨
  heuristic (3, 14) {[ (24, 14); (3, 20) ]} = manhattan_to (3, 14) (24, 14).
Proof.
  destruct (heuristic_least (3, 14) {[ (24, 14); (3, 20) ]})
    as (_ & _ & Hattained & _).
  destruct Hattained as (g & Hg & ->); [set_solver|].
  apply elem_of_union in Hg as [->%elem_of_singleton| ->%elem_of_singleton];
    [by right|by left].
Defined.

Lemma pellets_and_walls_cells_witness :
  ∃ ps ws,
    pellets the_maze = Ok ps ∧ walls the_maze = Ok ws ∧
    NoDup ps ∧ NoDup ws ∧ (1, 1) ∈ ps ∧ (0, 0) ∈ ws ∧ (1, 1) ∉ ws.
Proof.
  destruct (pellets the_maze) as [ps| |] eqn:Hps;
    [|vm_compute in Hps; discriminate..].
  destruct (walls the_maze) as [ws| |] eqn:Hws;
    [|vm_compute in Hws; discriminate..].
  destruct (pellets_and_walls_cells the_maze) as [Hpellets Hwalls].
  destruct (Hpellets ps Hps) as [Hnodup Hin].
  destruct (Hwalls ws Hws) as [Hnodup' Hin'].
  exists ps, ws. split; [reflexivity|]. split; [reflexivity|].
  split; [exact Hnodup|]. split; [exact Hnodup'|]. split; [|split].
  - apply Hin. split; [lia|]. split; [lia|]. left. by vm_compute.
  - apply Hin'. split; [lia|]. split; [lia|]. by vm_compute.
  - intros (_ & _ & Hwall)%Hin'. vm_compute in Hwall. discriminate.
Defined.

Lemma ghost_update_only_leads_to_chase_witness :
  run_updates (mkGhost SCATTER 3)
    [mkTick (1 # 60) [] true; mkTick 4 [(1, 1); (2, 1)] false]
  = mkGhost SCATTER 3.
Proof.
  destruct (ghost_update_only_leads_to_chase (mkGhost SCATTER 3)
              [mkTick (1 # 60) [] true; mkTick 4 [(1, 1); (2, 1)] false])
    as (_ & _ & Hsame).
  apply Hsame. by left.
Defined.

(** ** Unreachable goals *)

Lemma rmapM_all_Ok {A B} (f : A → result B) (l : list A) :
  (∀ a, a ∈ l → ∃ b, f a = Ok b) → ∃ ys, rmapM f l = Ok ys.
Proof.
  induction l as [|a l IH]; intros Hall; simpl; [by eexists|].
  destruct (Hall a) as [b ->]; [left|].
  destruct IH as [ys ->]; [intros a' Ha'; apply Hall; by right|].
  simpl. by eexists.
Qed.

Lemma the_maze_grid_get (y x : Z) :
  0 ≤ y < 30 → 0 ≤ x < 28 → ∃ v, grid_get the_maze y x = Ok v.
Proof.
  intros Hy Hx.
  assert (forallb (λ c : Z * Z,
                     match grid_get the_maze c.2 c.1 with
                     | Ok _ => true
                     | _ => false
                     end)
                  (x ← seqZ 0 28; y ← seqZ 0 30; [(x, y)]) = true) as Hall
    by (vm_compute; reflexivity).
  rewrite forallb_forall in Hall. specialize (Hall (x, y)).
  rewrite <- list_elem_of_In in Hall. cbn [fst snd] in Hall.
  destruct (grid_get the_maze y x) as [v| |]; [by exists v|..];
    (discriminate Hall;
     apply list_elem_of_bind; exists x; split; [|apply elem_of_seqZ; lia];
     apply list_elem_of_bind; exists y; split; [|apply elem_of_seqZ; lia];
     by apply list_elem_of_singleton).
Qed.

(** On the maze of the game [neighbours] returns at every cell, on or
    off the grid, that is not on one of the rows 29 to 31, the rows next
    to the row 30 that [settings.GRID_HEIGHT] counts and the blueprint
    does not have.  Every cell an agent can stand on is on rows 1 to
    28. *)
Lemma the_maze_lookups_in_range (c : GridPos) :
  c.2 < 29 ∨ 31 < c.2 → lookups_in_range the_maze c.
Proof.
  intros Hrow. unfold lookups_in_range, neighbours.
  destruct (rmapM_all_Ok (neighbour_at the_maze c) DELTAS) as [ys ->];
    [|by eexists].
  intros d Hd. unfold neighbour_at. cbv zeta.
  destruct (decide (c.2 + d.2 < 0 ∨ c.2 + d.2 >= settings.GRID_HEIGHT))
    as [|Hin]; [by eexists|].
  unfold settings.GRID_HEIGHT, settings.GRID_WIDTH in *.
  assert (-1 ≤ d.2 ≤ 1) as Hd2.
  { unfold DELTAS in Hd.
    repeat (apply elem_of_cons in Hd as [->|Hd]);
      [..|by apply not_elem_of_nil in Hd]; simpl; lia. }
  match goal with |- context [grid_get the_maze ?ny ?nx] =>
    destruct (the_maze_grid_get ny nx) as [v ->];
      [lia|repeat case_decide; lia|]
  end.
  cbn [rbind]. destruct (decide (v ≠ "X"%char)); by eexists.
Qed.

(** C7 (unreachable goals).  On a maze whose traversable cells can all be
    expanded, as those of the maze of the game can, and from a start cell
    at which [neighbours] returns, as it does at every cell an agent of
    the game stands on, [astar_path] terminates within [astar_fuel]
    turns of its loops and returns a path without raising; the path is
    empty exactly when no goal can be reached from the start cell, and so
    it is for the empty goal set. *)
Theorem astar_path_exhausted_frontier (maze : Maze) (start : GridPos)
    (goals : gset GridPos) (fuel : nat) :
  maze_closed maze →
  lookups_in_range maze start →
  (astar_fuel ≤ fuel)%nat →
  (∃ path, astar_path fuel maze start goals = Ok path) ∧
  (astar_path fuel maze start goals = Ok []
   ↔ ∀ goal, goal ∈ goals → ¬ reachable maze start goal) ∧
  astar_path fuel maze start ∅ = Ok [].
Proof.
  intros Hclosed Hstart Hfuel.
  destruct (astar_path_spec maze start goals fuel Hstart Hclosed Hfuel)
    as (path & Hpath & Hcases).
  split; [by exists path|]. split; [split|].
  - intros Hempty goal Hgoal Hreach.
    destruct (astar_path_outcome _ _ _ _ _ Hempty)
      as [[_ Hnone]|(g & _ & Hwalk & _)].
    + by apply (Hnone goal).
    + apply walk_length in Hwalk. simpl in Hwalk. lia.
  - intros Hnone. rewrite Hpath.
    destruct Hcases as [[-> _]|(goal & Hgoal & Hwalk)]; [done|].
    destruct (Hnone goal Hgoal). by eapply walk_reachable.
  - destruct (astar_path_spec maze start ∅ fuel Hstart Hclosed Hfuel)
      as (path' & -> & [[-> _]|(goal & Hgoal & _)]); [done|].
    by apply not_elem_of_empty in Hgoal.
Qed.

Lemma astar_path_exhausted_frontier_witness :
  (∃ path, astar_path astar_fuel the_maze (13, 23) {[ (0, 0) ]} = Ok path) ∧
  (astar_path astar_fuel the_maze (13, 23) {[ (0, 0) ]} = Ok []
   ↔ ∀ goal, goal ∈ ({[ (0, 0) ]} : gset GridPos) →
             ¬ reachable the_maze (13, 23) goal) ∧
  astar_path astar_fuel the_maze (13, 23) ∅ = Ok [].
Proof.
  apply (astar_path_exhausted_frontier the_maze (13, 23) {[ (0, 0) ]} astar_fuel).
  - apply the_maze_closed.
  - apply the_maze_lookups_in_range. left. simpl. lia.
  - apply le_n.
Defined.
